(** * meanwhile: a shallow embedding of [meanwhile.py]

    The Python module offers a [Job] object: a pool of worker threads that
    applies one target function to a growing set of inputs.  This file embeds
    the module in Rocq and states the properties of its specification.

    Layout of the embedding:
    - Python exceptions and [threading.Lock] objects;
    - the console ([_status], [_hide_status], [_show_status], [print]);
    - the [Job] record (the fields set by [Job.__init__]) and the [World]
      around it (lock states, spawned threads, source of random choices,
      console, and two ghost logs used only to state properties);
    - a state-and-exception monad [M] in which every method is written
      statement by statement;
    - the worker loop, cut at its blocking points into three segments;
    - a labelled step function interleaving client calls and worker segments,
      and a finer one that lets other threads run between the end of a call
      of the target function and the handling of its outcome;
    - [Job.wait], run against a script of what happens at each [join]. *)

From stdpp Require Import base gmap sets list strings pretty.

(** ** Python exceptions *)

(** The exception classes the module raises or distinguishes.  [TargetError]
    stands for any other subclass of [Exception] a target function raises. *)
Inductive PyExn : Type :=
  | Empty                      (* queue.Empty *)
  | KeyboardInterrupt
  | SystemExit
  | RuntimeError               (* release of an unlocked lock *)
  | KeyError
  | TargetError (code : Z).

(** [isinstance(e, Empty)], what the clause [except Empty] tests. *)
Definition isinstance_Empty (e : PyExn) : bool :=
  match e with Empty => true | _ => false end.

(** [isinstance(e, Exception)], what the clause [except Exception] tests:
    [KeyboardInterrupt] and [SystemExit] derive from [BaseException] only. *)
Definition isinstance_Exception (e : PyExn) : bool :=
  match e with KeyboardInterrupt | SystemExit => false | _ => true end.

(** ** Lock objects *)

(** The six locks created by [Job.__init__] and the module-level print lock
    (which the source also calls [_plock]). *)
Inductive lock_id : Type :=
  | _ilock      (* input set lock *)
  | _rlock      (* results lock *)
  | _elock      (* exceptions lock *)
  | _tlock      (* thread dict lock *)
  | _block      (* pause lock: the gate *)
  | _plock      (* paused threads counter lock *)
  | module_plock. (* the global print lock *)

#[global] Instance lock_id_eq_dec : EqDecision lock_id.
Proof. solve_decision. Defined.

(** The five locks that guard a component of the job (all but the gate and
    the print lock). *)
Definition component_lock (l : lock_id) : bool :=
  match l with
  | _ilock | _rlock | _elock | _tlock | _plock => true
  | _block | module_plock => false
  end.

(** ** The console *)

Definition CR : Ascii.ascii := Ascii.ascii_of_nat 13.
Definition TAB : Ascii.ascii := Ascii.ascii_of_nat 9.

(** [_status] is the module global; [screen] lists what the builtin
    [print] ([_print]) has written, oldest first. *)
Record Console : Type := mkConsole {
  _status : option string;
  screen : list string
}.

Definition _print (s : string) (c : Console) : Console :=
  {| _status := _status c; screen := screen c ++ [s] |}.

(** The string [space] built by the loop of [_hide_status]. *)
Fixpoint blank (s : string) : string :=
  match s with
  | EmptyString => EmptyString
  | String c s' =>
      String (if Ascii.eqb c TAB then TAB else Ascii.ascii_of_nat 32) (blank s')
  end.

Definition _hide_status (c : Console) : Console :=
  let c1 :=
    match _status c with
    | Some st =>
        _print (String CR EmptyString +:+ blank st +:+ String CR EmptyString) c
    | None => c
    end in
  {| _status := None; screen := screen c1 |}.

Definition _show_status (status : string) (c : Console) : Console :=
  let c1 := _hide_status c in
  let c2 := _print status c1 in
  {| _status := Some status; screen := screen c2 |}.

(** ** The job *)

Section Meanwhile.

Context {Input : Type} `{Countable Input} {Value : Type}.

(** The fields of a [Job] object, in the order [__init__] creates them.  The
    target is left out: the outcome of each call of the target function is
    chosen by the environment (see [call_result]). *)
Record Job : Type := mkJob {
  _queue : list (Input * Z);
  _inputs : gset Input;
  _results : gmap Input Value;
  _exceptions : gmap Input PyExn;
  _n_attempts : Z;
  _n_threads : Z;
  _threads : gmap string nat;      (* tid -> thread object (a handle) *)
  _n_paused : Z
}.

Definition with_queue (q : list (Input * Z)) (j : Job) : Job :=
  mkJob q (_inputs j) (_results j) (_exceptions j) (_n_attempts j)
        (_n_threads j) (_threads j) (_n_paused j).
Definition with_inputs (s : gset Input) (j : Job) : Job :=
  mkJob (_queue j) s (_results j) (_exceptions j) (_n_attempts j)
        (_n_threads j) (_threads j) (_n_paused j).
Definition with_results (r : gmap Input Value) (j : Job) : Job :=
  mkJob (_queue j) (_inputs j) r (_exceptions j) (_n_attempts j)
        (_n_threads j) (_threads j) (_n_paused j).
Definition with_exceptions (e : gmap Input PyExn) (j : Job) : Job :=
  mkJob (_queue j) (_inputs j) (_results j) e (_n_attempts j)
        (_n_threads j) (_threads j) (_n_paused j).
Definition with_n_attempts (n : Z) (j : Job) : Job :=
  mkJob (_queue j) (_inputs j) (_results j) (_exceptions j) n
        (_n_threads j) (_threads j) (_n_paused j).
Definition with_n_threads (n : Z) (j : Job) : Job :=
  mkJob (_queue j) (_inputs j) (_results j) (_exceptions j) (_n_attempts j)
        n (_threads j) (_n_paused j).
Definition with_threads (t : gmap string nat) (j : Job) : Job :=
  mkJob (_queue j) (_inputs j) (_results j) (_exceptions j) (_n_attempts j)
        (_n_threads j) t (_n_paused j).
Definition with_n_paused (n : Z) (j : Job) : Job :=
  mkJob (_queue j) (_inputs j) (_results j) (_exceptions j) (_n_attempts j)
        (_n_threads j) (_threads j) n.

(** [Job.__init__(target, n_threads, n_attempts)]. *)
Definition Job_init (n_threads n_attempts : Z) : Job :=
  mkJob [] ∅ ∅ ∅ n_attempts n_threads ∅ 0.

(** Where a worker thread stands in the function [worker] of [_start]. *)
Inductive wstate : Type :=
  | WCreated                                 (* Thread object built, not started *)
  | WStart                                   (* at the top of [while True] *)
  | WGate                                    (* counted as paused, before the gate *)
  | WProcessing (arg : Input) (attempt : Z)  (* inside [target_function(arg)] *)
  | WExited                                  (* returned *)
  | WDied (e : PyExn).                       (* ended by an uncaught exception *)

Record Thread : Type := mkThread {
  t_tid : string;
  t_pc : wstate
}.

(** How one call [target_function(arg)] ends. *)
Inductive call_result : Type :=
  | Returned (v : Value)
  | Raised (e : PyExn).

(** Ghost events, written by the embedding and never read by the code. *)
Inductive event : Type :=
  | EvPut (arg : Input) (attempt : Z)             (* [_queue.put] *)
  | EvGet (arg : Input) (attempt : Z)             (* [_queue.get] returned it *)
  | EvDone (arg : Input) (attempt : Z) (r : call_result). (* the call ended *)

(** Everything the methods read or write:
    - [job]: the [Job] object;
    - [locks]: the lock objects that are locked right now;
    - [spawned]: every thread created so far, a handle is an index here;
    - [entropy], [drawn]: the random source read by [random.choice];
    - [console]: the module's console state;
    - [lock_log] (ghost): the locked set after each successful acquire;
    - [history] (ghost): the queue and processing events so far. *)
Record World : Type := mkWorld {
  job : Job;
  locks : list lock_id;
  spawned : list Thread;
  entropy : nat → nat;
  drawn : nat;
  console : Console;
  lock_log : list (list lock_id);
  history : list event
}.

Definition with_job (j : Job) (w : World) : World :=
  mkWorld j (locks w) (spawned w) (entropy w) (drawn w) (console w)
          (lock_log w) (history w).
Definition with_locks (ls : list lock_id) (w : World) : World :=
  mkWorld (job w) ls (spawned w) (entropy w) (drawn w) (console w)
          (lock_log w) (history w).
Definition with_spawned (ts : list Thread) (w : World) : World :=
  mkWorld (job w) (locks w) ts (entropy w) (drawn w) (console w)
          (lock_log w) (history w).
Definition with_drawn (n : nat) (w : World) : World :=
  mkWorld (job w) (locks w) (spawned w) (entropy w) n (console w)
          (lock_log w) (history w).
Definition with_console (c : Console) (w : World) : World :=
  mkWorld (job w) (locks w) (spawned w) (entropy w) (drawn w) c
          (lock_log w) (history w).
Definition with_lock_log (lg : list (list lock_id)) (w : World) : World :=
  mkWorld (job w) (locks w) (spawned w) (entropy w) (drawn w) (console w)
          lg (history w).
Definition with_history (h : list event) (w : World) : World :=
  mkWorld (job w) (locks w) (spawned w) (entropy w) (drawn w) (console w)
          (lock_log w) h.

(** A fresh program: one new [Job], nothing locked, nothing printed. *)
Definition World_init (rnd : nat → nat) (n_threads n_attempts : Z) : World :=
  mkWorld (Job_init n_threads n_attempts) [] [] rnd 0 (mkConsole None []) [] [].

(** ** The monad of method bodies *)

(** A statement ends normally, raises, or waits forever on a lock that the
    running code itself never releases. *)
Inductive outcome (A : Type) : Type :=
  | Ok (a : A) (w : World)
  | Raise (e : PyExn) (w : World)
  | Blocked (l : lock_id) (w : World).
Arguments Ok {A} a w.
Arguments Raise {A} e w.
Arguments Blocked {A} l w.

Definition M (A : Type) : Type := World → outcome A.

Definition ret {A} (a : A) : M A := λ w, Ok a w.
Definition bind {A B} (m : M A) (f : A → M B) : M B :=
  λ w, match m w with
       | Ok a w' => f a w'
       | Raise e w' => Raise e w'
       | Blocked l w' => Blocked l w'
       end.
Definition raise {A} (e : PyExn) : M A := λ w, Raise e w.

Notation "'let!' x ':=' m 'in' k" := (bind m (λ x, k))
  (at level 10, x name, m at level 100, k at level 200, only parsing).
Notation "m '>>' k" := (bind m (λ _, k))
  (at level 100, right associativity, only parsing).

Definition get_job : M Job := λ w, Ok (job w) w.
Definition update_job (f : Job → Job) : M unit :=
  λ w, Ok () (with_job (f (job w)) w).
Definition update_console (f : Console → Console) : M unit :=
  λ w, Ok () (with_console (f (console w)) w).
Definition log_event (ev : event) : M unit :=
  λ w, Ok () (with_history (history w ++ [ev]) w).

(** [lock.acquire(blocking)]: an unlocked lock is taken; a locked one makes a
    non-blocking call return [False] and a blocking call wait. *)
Definition acquire (l : lock_id) (blocking : bool) : M bool :=
  λ w, if bool_decide (l ∈ locks w)
       then (if blocking then Blocked l w else Ok false w)
       else Ok true (with_lock_log (lock_log w ++ [l :: locks w])
                       (with_locks (l :: locks w) w)).

(** [lock.release()]: raises [RuntimeError] on an unlocked lock. *)
Definition release (l : lock_id) : M unit :=
  λ w, if bool_decide (l ∈ locks w)
       then Ok () (with_locks (filter (λ x, x ≠ l) (locks w)) w)
       else Raise RuntimeError w.

(** [lock.locked()]. *)
Definition locked (l : lock_id) : M bool :=
  λ w, Ok (bool_decide (l ∈ locks w)) w.

(** [with lock: body]: the lock is released on the way out, also when the
    body raises. *)
Definition with_lock {A} (l : lock_id) (body : M A) : M A :=
  λ w, match acquire l true w with
       | Ok _ w1 =>
           match body w1 with
           | Ok a w2 => bind (release l) (λ _, ret a) w2
           | Raise e w2 => bind (release l) (λ _, raise e) w2
           | Blocked l' w2 => Blocked l' w2
           end
       | Raise e w1 => Raise e w1
       | Blocked l' w1 => Blocked l' w1
       end.

(** [for x in xs: f x]. *)
Fixpoint for_each {B} (xs : list B) (f : B → M unit) : M unit :=
  match xs with
  | [] => ret ()
  | x :: xs' => f x >> for_each xs' f
  end.

(** [range(n)]: empty when [n] is zero or negative. *)
Definition range (n : Z) : list Z := Z.of_nat <$> seq 0 (Z.to_nat n).

(** ** Threads and thread ids *)

Definition hexdigits : string := "0123456789abcdef".

(** [random.choice(seq)]: the element at the index given by the next random
    draw, reduced to the length of the (non-empty) sequence. *)
Definition choice (s : string) : M Ascii.ascii :=
  λ w, let i := entropy w (drawn w) `mod` String.length s in
       Ok (default Ascii.zero (String.get i s)) (with_drawn (S (drawn w)) w).

(** The list built by a generator expression [(m for i in range(n))]. *)
Fixpoint collect {A} (n : nat) (m : M A) : M (list A) :=
  match n with
  | O => ret []
  | S n' => let! x := m in let! xs := collect n' m in ret (x :: xs)
  end.

(** [_generate_tid()]: sixteen random hexadecimal digits, joined. *)
Definition _generate_tid : M string :=
  let! cs := collect 16 (choice hexdigits) in
  ret (String.string_of_list_ascii cs).

(** [Thread(target = worker, args = (tid,))]: a new thread object. *)
Definition Thread_new (tid : string) : M nat :=
  λ w, Ok (length (spawned w))
          (with_spawned (spawned w ++ [mkThread tid WCreated]) w).

Definition set_pc (h : nat) (pc : wstate) (w : World) : World :=
  with_spawned (alter (λ t, mkThread (t_tid t) pc) h (spawned w)) w.

(** [thread.start()]. *)
Definition Thread_start (h : nat) : M unit := λ w, Ok () (set_pc h WStart w).

(** [thread.isAlive()]. *)
Definition isAlive (h : nat) (w : World) : bool :=
  match t_pc <$> spawned w !! h with
  | Some WStart | Some WGate | Some (WProcessing _ _) => true
  | _ => false
  end.

(** ** Methods of [Job] *)

(** [self._queue.put(item)]. *)
Definition queue_put (item : Input * Z) : M unit :=
  update_job (λ j, with_queue (_queue j ++ [item]) j) >>
  log_event (EvPut item.1 item.2).

(** [del self._threads[tid]]: [KeyError] when the key is missing. *)
Definition del_thread (tid : string) : M unit :=
  let! j := get_job in
  if bool_decide (tid ∈ dom (_threads j))
  then update_job (λ j, with_threads (delete tid (_threads j)) j)
  else raise KeyError.

(** [del self._exceptions[arg]]: [KeyError] when the key is missing. *)
Definition del_exception (arg : Input) : M unit :=
  let! j := get_job in
  if bool_decide (arg ∈ dom (_exceptions j))
  then update_job (λ j, with_exceptions (delete arg (_exceptions j)) j)
  else raise KeyError.

(** The part of [Job._start] after the definition of [worker]: spawn the
    required number of threads. *)
Definition _start : M unit :=
  with_lock _tlock (
    let! j := get_job in
    let new_threads := (_n_threads j - Z.of_nat (size (_threads j)))%Z in
    for_each (range new_threads) (λ _,
      let! tid := _generate_tid in
      let! thread := Thread_new tid in
      update_job (λ j, with_threads (<[tid := thread]> (_threads j)) j) >>
      Thread_start thread)).

(** [Job.add(arg, force)]. *)
Definition add (arg : Input) (force : bool) : M unit :=
  with_lock _ilock (
    let! j := get_job in
    if bool_decide (arg ∉ _inputs j) || force then
      update_job (λ j, with_inputs ({[arg]} ∪ _inputs j) j) >>
      queue_put (arg, 1%Z) >>
      _start
    else ret ()).

(** [Job.add_many(args, force)]. *)
Definition add_many (args : list Input) (force : bool) : M unit :=
  with_lock _ilock (
    for_each args (λ arg,
      let! j := get_job in
      if bool_decide (arg ∉ _inputs j) || force then
        update_job (λ j, with_inputs ({[arg]} ∪ _inputs j) j) >>
        queue_put (arg, 1%Z)
      else ret ())) >>
  _start.

(** [Job.get_n_pending()]: [self._queue.qsize()]. *)
Definition get_n_pending : M Z :=
  let! j := get_job in ret (Z.of_nat (length (_queue j))).

(** [Job.get_n_finished()]. *)
Definition get_n_finished : M Z :=
  with_lock _rlock (let! j := get_job in ret (Z.of_nat (size (_results j)))).

(** [Job.get_n_running()]. *)
Definition get_n_running : M Z :=
  with_lock _tlock (
    let! j := get_job in
    ret (Z.of_nat (size (_threads j)) - _n_paused j)%Z).

(** [Job.get_n_failed()]. *)
Definition get_n_failed : M Z :=
  with_lock _elock (let! j := get_job in ret (Z.of_nat (size (_exceptions j)))).

(** The template of [_get_status_string], filled with four numbers. *)
Definition status_template (pending running finished failed : Z) : string :=
  "pending: " +:+ pretty pending +:+ String TAB " running: " +:+
  pretty running +:+ String TAB " finished: " +:+ pretty finished +:+
  String TAB " failed: " +:+ pretty failed.

(** [Job._get_status_string()]. *)
Definition _get_status_string : M string :=
  let! pending := get_n_pending in
  let! running := get_n_running in
  let! finished := get_n_finished in
  let! failed := get_n_failed in
  ret (status_template pending running finished failed).

(** [Job.set_n_threads(n)]. *)
Definition set_n_threads (n : Z) : M unit :=
  update_job (with_n_threads n) >> _start.

(** [Job.set_n_attempts(n)]. *)
Definition set_n_attempts (n : Z) : M unit :=
  update_job (with_n_attempts n).

(** [Job.kill()]. *)
Definition kill : M unit := set_n_threads 0.

(** [Job.pause()]: [self._block.acquire(False)], the answer is dropped. *)
Definition pause : M unit :=
  let! _ := acquire _block false in ret ().

(** [Job.resume()]: [self._block.release()]. *)
Definition resume : M unit := release _block.

(** [Job.has_result(arg)]. *)
Definition has_result (arg : Input) : M bool :=
  with_lock _rlock (
    let! j := get_job in ret (bool_decide (arg ∈ dom (_results j)))).

(** [Job.get_result(arg)]. *)
Definition get_result (arg : Input) : M Value :=
  with_lock _rlock (
    let! j := get_job in
    match _results j !! arg with
    | Some v => ret v
    | None => raise KeyError
    end).

(** [Job.get_results()]. *)
Definition get_results : M (gmap Input Value) :=
  let! results := with_lock _rlock (let! j := get_job in ret (_results j)) in
  ret results.

(** [Job.has_exception(arg)]. *)
Definition has_exception (arg : Input) : M bool :=
  with_lock _elock (
    let! j := get_job in ret (bool_decide (arg ∈ dom (_exceptions j)))).

(** [Job.get_exception(arg)]. *)
Definition get_exception (arg : Input) : M PyExn :=
  with_lock _elock (
    let! j := get_job in
    match _exceptions j !! arg with
    | Some e => ret e
    | None => raise KeyError
    end).

(** [Job.get_exceptions()]. *)
Definition get_exceptions : M (gmap Input PyExn) :=
  let! exceptions :=
    with_lock _elock (let! j := get_job in ret (_exceptions j)) in
  ret exceptions.

(** [Job.retry(arg)]. *)
Definition retry (arg : Input) : M unit :=
  with_lock _elock (
    let! j := get_job in
    if bool_decide (arg ∈ dom (_exceptions j))
    then del_exception arg
    else ret ()) >>
  add arg true.

(** [Job.retry_many(args)]. *)
Definition retry_many (args : list Input) : M unit :=
  for_each args (λ arg, retry arg).

(** [Job.retry_all()].  [list(self._exceptions)] is the list of the keys.
    Python lists them in the order of insertion, the model in the order of
    the map: the order in which the failed inputs are put back is not that
    of the source, and no statement below depends on it. *)
Definition retry_all : M unit :=
  with_lock _elock (
    let! j := get_job in
    let args := (map_to_list (_exceptions j)).*1 in
    for_each args (λ arg, del_exception arg) >>
    add_many args true).

(** ** The worker loop *)

(** The function [worker(tid)] of [_start] is an endless loop that blocks at
    the pause gate and inside the target function.  It is cut there into
    three segments; each runs without interruption and tells where the
    thread stands next. *)

(** Segment 1, from the top of [while True] up to the gate:
    [with self._plock: self._n_paused += 1]. *)
Definition worker_enter : M wstate :=
  with_lock _plock (update_job (λ j, with_n_paused (_n_paused j + 1)%Z j)) >>
  ret WGate.

(** Segment 2, through the gate, the shrink check and [self._queue.get]:
    the head of the queue is taken; on an empty queue the call times out
    with [Empty], which the first [except] clause handles. *)
Definition worker_dequeue (tid : string) : M wstate :=
  with_lock _block (ret ()) >>
  with_lock _plock (update_job (λ j, with_n_paused (_n_paused j - 1)%Z j)) >>
  let! stop :=
    with_lock _tlock (
      let! j := get_job in
      if (Z.of_nat (size (_threads j)) >? _n_threads j)%Z
      then del_thread tid >> ret true
      else ret false) in
  if stop : bool then ret WExited else
  let! j := get_job in
  match _queue j with
  | (arg, attempt) :: q =>
      update_job (with_queue q) >>
      log_event (EvGet arg attempt) >>
      ret (WProcessing arg attempt)
  | [] =>
      with_lock _tlock (del_thread tid) >>
      ret WExited
  end.

(** The rest of the [try] statement after [target_function(arg)] has ended
    with [r]: the store of the result, or the [except] clause that matches.
    The clauses are tried in the order of the source: [except Empty] first,
    then [except Exception]; an exception matching neither leaves the
    function. *)
Definition worker_store (tid : string) (arg : Input) (attempt : Z)
    (r : call_result) : M wstate :=
  match r with
  | Returned result =>
      with_lock _rlock (
        update_job (λ j, with_results (<[arg := result]> (_results j)) j)) >>
      ret WStart
  | Raised e =>
      if isinstance_Empty e then
        with_lock _tlock (del_thread tid) >>
        ret WExited
      else if isinstance_Exception e then
        let! j := get_job in
        (if (attempt <? _n_attempts j)%Z
         then queue_put (arg, (attempt + 1)%Z)
         else with_lock _elock (
                update_job (λ j,
                  with_exceptions (<[arg := e]> (_exceptions j)) j))) >>
        ret WStart
      else raise e
  end.

(** Segment 3, from the end of [target_function(arg)] to the end of the
    [try] statement, when no other thread runs in between. *)
Definition worker_finish (tid : string) (arg : Input) (attempt : Z)
    (r : call_result) : M wstate :=
  log_event (EvDone arg attempt r) >>
  worker_store tid arg attempt r.

(** ** Interleaving *)

(** The calls a client makes on the job. *)
Inductive call : Type :=
  | CAdd (arg : Input) (force : bool)
  | CAddMany (args : list Input) (force : bool)
  | CRetry (arg : Input)
  | CRetryMany (args : list Input)
  | CRetryAll
  | CSetNThreads (n : Z)
  | CSetNAttempts (n : Z)
  | CKill
  | CPause
  | CResume.

Definition client (c : call) : M unit :=
  match c with
  | CAdd arg force => add arg force
  | CAddMany args force => add_many args force
  | CRetry arg => retry arg
  | CRetryMany args => retry_many args
  | CRetryAll => retry_all
  | CSetNThreads n => set_n_threads n
  | CSetNAttempts n => set_n_attempts n
  | CKill => kill
  | CPause => pause
  | CResume => resume
  end.

(** One step of the whole program: a client call, or one segment of the
    worker with handle [h]; [Finish] carries how the target call ends. *)
Inductive label : Type :=
  | Call (c : call)
  | Enter (h : nat)
  | Dequeue (h : nat)
  | Finish (h : nat) (r : call_result).

(** A client call that raises hands the exception to its caller; the job
    lives on.  A call that waits on a lock cannot complete. *)
Definition run_client (m : M unit) (w : World) : option World :=
  match m w with
  | Ok _ w' => Some w'
  | Raise _ w' => Some w'
  | Blocked _ _ => None
  end.

(** A segment that raises ends its thread; one that waits does not move. *)
Definition run_segment (h : nat) (m : M wstate) (w : World) : option World :=
  match m w with
  | Ok pc w' => Some (set_pc h pc w')
  | Raise e w' => Some (set_pc h (WDied e) w')
  | Blocked _ _ => None
  end.

Definition step (l : label) (w : World) : option World :=
  match l with
  | Call c => run_client (client c) w
  | Enter h =>
      match spawned w !! h with
      | Some (mkThread tid WStart) => run_segment h worker_enter w
      | _ => None
      end
  | Dequeue h =>
      match spawned w !! h with
      | Some (mkThread tid WGate) => run_segment h (worker_dequeue tid) w
      | _ => None
      end
  | Finish h r =>
      match spawned w !! h with
      | Some (mkThread tid (WProcessing arg attempt)) =>
          run_segment h (worker_finish tid arg attempt r) w
      | _ => None
      end
  end.

(** A schedule, run from left to right; [None] when a step is not enabled. *)
Fixpoint exec (ls : list label) (w : World) : option World :=
  match ls with
  | [] => Some w
  | l :: ls' =>
      match step l w with
      | Some w' => exec ls' w'
      | None => None
      end
  end.


(** ** A finer interleaving

    Between the end of [target_function(arg)] and the statement that
    handles its outcome a worker holds no lock, and other threads can run.
    The finer steps cut segment 3 there: [Return] ends the call and leaves
    the outcome in the hand of the worker, [Store] handles it.  The steps
    of [label] are kept, [Finish] being a [Return] and a [Store] with
    nothing in between. *)

(** [in_hand] maps the handle of a worker to the outcome of its call that
    is not handled yet. *)
Record Fine : Type := mkFine {
  base : World;
  in_hand : gmap nat call_result
}.

Definition Fine_init (rnd : nat → nat) (n_threads n_attempts : Z) : Fine :=
  mkFine (World_init rnd n_threads n_attempts) ∅.

Inductive flabel : Type :=
  | Coarse (lb : label)
  | Return (h : nat) (r : call_result)
  | Store (h : nat).

Definition fstep (lb : flabel) (fw : Fine) : option Fine :=
  match lb with
  | Coarse (Finish h r) =>
      match in_hand fw !! h with
      | None => (λ w', mkFine w' (in_hand fw)) <$> step (Finish h r) (base fw)
      | Some _ => None
      end
  | Coarse lb => (λ w', mkFine w' (in_hand fw)) <$> step lb (base fw)
  | Return h r =>
      match spawned (base fw) !! h, in_hand fw !! h with
      | Some (mkThread tid (WProcessing arg attempt)), None =>
          (λ w', mkFine w' (<[h := r]> (in_hand fw)))
            <$> run_client (log_event (EvDone arg attempt r)) (base fw)
      | _, _ => None
      end
  | Store h =>
      match spawned (base fw) !! h, in_hand fw !! h with
      | Some (mkThread tid (WProcessing arg attempt)), Some r =>
          (λ w', mkFine w' (delete h (in_hand fw)))
            <$> run_segment h (worker_store tid arg attempt r) (base fw)
      | _, _ => None
      end
  end.

Fixpoint fexec (ls : list flabel) (fw : Fine) : option Fine :=
  match ls with
  | [] => Some fw
  | l :: ls' =>
      match fstep l fw with
      | Some fw' => fexec ls' fw'
      | None => None
      end
  end.


(** ** Printing and waiting *)

(** [meanwhile.print(...)], for one already formatted line. *)
Definition print (line : string) : M unit :=
  with_lock module_plock (
    λ w, let status := _status (console w) in
         (update_console _hide_status >>
          update_console (_print line) >>
          match status with
          | Some st => update_console (_show_status st)
          | None => ret ()
          end) w).

(** [Job.print_status()]. *)
Definition print_status : M unit :=
  let! st := _get_status_string in print st.

(** [try: body except E: handler], where [catch] tells the instances of
    [E]. *)
Definition try_except {A} (body : M A) (catch : PyExn → bool)
    (handler : M A) : M A :=
  λ w, match body w with
       | Raise e w' => if catch e then handler w' else Raise e w'
       | o => o
       end.

(** What happens at one [thread.join(timeout = ...)] of [Job.wait]:
    - [JInterrupt busy]: a [KeyboardInterrupt] is delivered to the waiting
      thread; [busy] tells whether another thread holds the print lock at
      that moment;
    - [JReturn progress clock]: the join returns after the other threads
      took the steps [progress], and [time()] then reads [clock].
    Times are in milliseconds. *)
Inductive join_event : Type :=
  | JInterrupt (busy : bool)
  | JReturn (progress : list label) (clock : Z).

(** The steps of [progress] that are enabled, in order. *)
Fixpoint run_progress (ls : list label) (w : World) : World :=
  match ls with
  | [] => w
  | l :: ls' => run_progress ls' (default w (step l w))
  end.

(** The status redraw [with _plock: _show_status(self._get_status_string())]. *)
Definition redraw_status : M unit :=
  with_lock module_plock (
    let! st := _get_status_string in
    update_console (_show_status st)).

(** The loop [while thread.isAlive(): ...] of [Job.wait].  The local [pt]
    and the rest of the script are handed on; [None] means that the script
    ended while a join was still blocking. *)
Fixpoint wait_join (h : nat) (show_status : bool) (et : option Z)
    (script : list join_event) (pt : Z) : M (option (Z * list join_event)) :=
  λ w,
    if isAlive h w then
      match script with
      | [] => Ok None w
      | JInterrupt busy :: _ =>
          Raise KeyboardInterrupt
            (if busy then with_locks (module_plock :: locks w) w else w)
      | JReturn progress ct :: script' =>
          let w1 := run_progress progress w in
          if match et with Some et => (ct >=? et)%Z | None => false end
          then Raise KeyboardInterrupt w1
          else if (ct >=? pt + 1000)%Z && show_status
          then (redraw_status >> wait_join h show_status et script' ct) w1
          else wait_join h show_status et script' pt w1
      end
    else Ok (Some (pt, script)) w.

(** The loop [for thread in threads: ...]. *)
Fixpoint wait_threads (hs : list nat) (show_status : bool) (et : option Z)
    (script : list join_event) (pt : Z) : M (option (Z * list join_event)) :=
  match hs with
  | [] => ret (Some (pt, script))
  | h :: hs' =>
      let! r := wait_join h show_status et script pt in
      match r with
      | Some (pt', script') => wait_threads hs' show_status et script' pt'
      | None => ret None
      end
  end.

(** The loop [while self.get_n_running() + self.get_n_pending() > 0: ...];
    [fuel] bounds the number of rounds.  The answer tells whether the loop
    was left. *)
Fixpoint wait_loop (fuel : nat) (show_status : bool) (et : option Z)
    (script : list join_event) (pt : Z) : M bool :=
  match fuel with
  | O => ret false
  | S fuel' =>
      let! running := get_n_running in
      let! pending := get_n_pending in
      if (running + pending >? 0)%Z then
        let! threads :=
          with_lock _tlock (
            let! j := get_job in ret (map_to_list (_threads j)).*2) in
        let! r := wait_threads threads show_status et script pt in
        match r with
        | Some (pt', script') => wait_loop fuel' show_status et script' pt'
        | None => ret false
        end
      else ret true
  end.

(** The body of the [try] statement of [Job.wait]; [clock0] and [clock1]
    are what the two first calls of [time()] read. *)
Definition wait_body (show_status : bool) (timeout : option Z)
    (clock0 clock1 : Z) (fuel : nat) (script : list join_event) : M bool :=
  let et := (λ t, clock0 + t)%Z <$> timeout in
  let pt := clock1 in
  (if show_status then redraw_status else ret ()) >>
  let! left := wait_loop fuel show_status et script pt in
  if left : bool then
    (if show_status
     then with_lock module_plock (update_console _hide_status)
     else ret ()) >>
    ret true
  else ret false.

(** The clause [except KeyboardInterrupt] of [Job.wait]. *)
Definition wait_handler (show_status : bool) : M bool :=
  let! busy := locked module_plock in
  (if show_status && negb busy
   then with_lock module_plock (update_console _hide_status)
   else ret ()) >>
  ret true.

Definition is_KeyboardInterrupt (e : PyExn) : bool :=
  match e with KeyboardInterrupt => true | _ => false end.

(** [Job.wait(show_status, timeout)].  [Ok true] is a return of the method,
    [Ok false] says that the script or the fuel was too short to see it
    return, [Raise e] that [e] reaches the caller. *)
Definition wait (show_status : bool) (timeout : option Z)
    (clock0 clock1 : Z) (fuel : nat) (script : list join_event) : M bool :=
  try_except (wait_body show_status timeout clock0 clock1 fuel script)
             is_KeyboardInterrupt
             (wait_handler show_status).

(** ** Notions used in the statements *)

(** The world right after [l] was acquired. *)
Definition acquired (l : lock_id) (w : World) : World :=
  with_lock_log (lock_log w ++ [l :: locks w]) (with_locks (l :: locks w) w).

(** No component lock is held: the state of the job between two calls. *)
Definition quiet (w : World) : Prop :=
  filter (λ l, l ≠ _block) (locks w) = [].

(** The digit [choice(hexdigits)] returns for the random draw [r]. *)
Definition hexdigit (r : nat) : Ascii.ascii :=
  default Ascii.zero (String.get (r `mod` String.length hexdigits) hexdigits).

(** The id [_generate_tid] builds from the draws number [d] to [d + 15]. *)
Definition tid_at (rnd : nat → nat) (d : nat) : string :=
  String.string_of_list_ascii ((λ i, hexdigit (rnd (d + i))) <$> seq 0 16).

(** The effect of one round of the loop of [_start]. *)
Definition spawn_one (w : World) : World :=
  let tid := tid_at (entropy w) (drawn w) in
  mkWorld
    (with_threads (<[tid := length (spawned w)]> (_threads (job w))) (job w))
    (locks w) (spawned w ++ [mkThread tid WStart]) (entropy w)
    (drawn w + 16) (console w) (lock_log w) (history w).

Fixpoint spawn_n (n : nat) (w : World) : World :=
  match n with
  | O => w
  | S n' => spawn_n n' (spawn_one w)
  end.

(** The number of threads [_start] has to spawn: [range(new_threads)] has
    that many elements. *)
Definition new_threads (w : World) : nat :=
  Z.to_nat (_n_threads (job w) - Z.of_nat (size (_threads (job w)))).

(** The effect of [_start] when the thread dict lock is free. *)
Definition started (w : World) : World :=
  with_locks (locks w) (spawn_n (new_threads w) (acquired _tlock w)).

(** The effect of [self._inputs.add(arg); self._queue.put((arg, 1))]. *)
Definition enqueue (arg : Input) (w : World) : World :=
  mkWorld
    (with_queue (_queue (job w) ++ [(arg, 1%Z)])
       (with_inputs ({[arg]} ∪ _inputs (job w)) (job w)))
    (locks w) (spawned w) (entropy w) (drawn w) (console w) (lock_log w)
    (history w ++ [EvPut arg 1%Z]).

(** The test [arg not in self._inputs or force]. *)
Definition accepts (force : bool) (arg : Input) (w : World) : bool :=
  bool_decide (arg ∉ _inputs (job w)) || force.

(** The effect of one round of the loop of [add_many]. *)
Definition submit (force : bool) (arg : Input) (w : World) : World :=
  if accepts force arg w then enqueue arg w else w.

Fixpoint submit_all (force : bool) (args : list Input) (w : World) : World :=
  match args with
  | [] => w
  | arg :: args' => submit_all force args' (submit force arg w)
  end.

(** The effect of [add] on a quiet world. *)
Definition add_effect (arg : Input) (force : bool) (w : World) : World :=
  with_locks (locks w)
    (if accepts force arg w
     then started (enqueue arg (acquired _ilock w))
     else acquired _ilock w).

(** The effect of [add_many] on a quiet world. *)
Definition add_many_effect (args : list Input) (force : bool) (w : World)
    : World :=
  started (with_locks (locks w) (submit_all force args (acquired _ilock w))).

(** The effect of the first statement of [retry]. *)
Definition retry_clear (arg : Input) (w : World) : World :=
  with_locks (locks w)
    (if bool_decide (arg ∈ dom (_exceptions (job w)))
     then with_job (with_exceptions (delete arg (_exceptions (job w)))
                      (job (acquired _elock w)))
            (acquired _elock w)
     else acquired _elock w).

(** The effect of [retry] on a quiet world. *)
Definition retry_effect (arg : Input) (w : World) : World :=
  add_effect arg true (retry_clear arg w).

(** The effect of [with l: f] when [l] is free and [f] takes no lock. *)
Definition region (l : lock_id) (f : World → World) (w : World) : World :=
  with_locks (locks w) (f (acquired l w)).

Definition on_job (f : Job → Job) (w : World) : World := with_job (f (job w)) w.

Definition inc_paused : World → World :=
  on_job (λ j, with_n_paused (_n_paused j + 1)%Z j).
Definition dec_paused : World → World :=
  on_job (λ j, with_n_paused (_n_paused j - 1)%Z j).
Definition forget_thread (tid : string) : World → World :=
  on_job (λ j, with_threads (delete tid (_threads j)) j).

(** The effect of [with self._tlock: del self._threads[tid]], with the
    [KeyError] of a missing key. *)
Definition leave (tid : string) (w : World) : outcome wstate :=
  if bool_decide (tid ∈ dom (_threads (job w)))
  then Ok WExited (region _tlock (forget_thread tid) w)
  else Raise KeyError (region _tlock (λ w, w) w).

(** The effect of the first segment of the worker loop. *)
Definition enter_outcome (w : World) : outcome wstate :=
  Ok WGate (region _plock inc_paused w).

(** The world after the gate and the decrement of the paused counter. *)
Definition through_gate (w : World) : World :=
  region _plock dec_paused (region _block (λ w, w) w).

Definition over_target (w : World) : bool :=
  (Z.of_nat (size (_threads (job w))) >? _n_threads (job w))%Z.

(** The effect of the second segment of the worker loop. *)
Definition dequeue_outcome (tid : string) (w : World) : outcome wstate :=
  if bool_decide (_block ∈ locks w) then Blocked _block w else
  let w1 := through_gate w in
  if over_target w1 then leave tid w1 else
  let w2 := region _tlock (λ w, w) w1 in
  match _queue (job w2) with
  | (arg, attempt) :: q =>
      Ok (WProcessing arg attempt)
         (with_history (history w2 ++ [EvGet arg attempt])
            (on_job (with_queue q) w2))
  | [] => leave tid w2
  end.

(** The effect of the third segment of the worker loop. *)
Definition finish_outcome (tid : string) (arg : Input) (attempt : Z)
    (r : call_result) (w : World) : outcome wstate :=
  let w1 := with_history (history w ++ [EvDone arg attempt r]) w in
  match r with
  | Returned result =>
      Ok WStart
         (region _rlock
            (on_job (λ j, with_results (<[arg := result]> (_results j)) j)) w1)
  | Raised e =>
      if isinstance_Empty e then leave tid w1
      else if isinstance_Exception e then
        if (attempt <? _n_attempts (job w1))%Z
        then Ok WStart
               (with_history (history w1 ++ [EvPut arg (attempt + 1)%Z])
                  (on_job (λ j, with_queue (_queue j ++ [(arg, (attempt + 1)%Z)]) j)
                     w1))
        else Ok WStart
               (region _elock
                  (on_job (λ j, with_exceptions (<[arg := e]> (_exceptions j)) j))
                  w1)
      else Raise e w1
  end.

Definition forget_exception (arg : Input) : World → World :=
  on_job (λ j, with_exceptions (delete arg (_exceptions j)) j).

(** The effect of the first loop of [retry_all]. *)
Fixpoint drain (args : list Input) (w : World) : World :=
  match args with
  | [] => w
  | arg :: args' => drain args' (forget_exception arg w)
  end.

(** The keys of [self._exceptions]. *)
Definition failed_inputs (w : World) : list Input :=
  (map_to_list (_exceptions (job w))).*1.

(** The effect of [retry_all] on a quiet world. *)
Definition retry_all_effect (w : World) : World :=
  region _elock
    (λ w1, add_many_effect (failed_inputs w) true (drain (failed_inputs w) w1))
    w.

(** The effect of [retry_many] on a quiet world. *)
Fixpoint retry_many_effect (args : list Input) (w : World) : World :=
  match args with
  | [] => w
  | arg :: args' => retry_many_effect args' (retry_effect arg w)
  end.

(** Whether the job is paused: the gate is locked. *)
Definition paused (w : World) : bool := bool_decide (_block ∈ locks w).

(** The world a client call leaves behind when it starts on a quiet one. *)
Definition client_effect (c : call) (w : World) : World :=
  match c with
  | CAdd arg force => add_effect arg force w
  | CAddMany args force => add_many_effect args force w
  | CRetry arg => retry_effect arg w
  | CRetryMany args => retry_many_effect args w
  | CRetryAll => retry_all_effect w
  | CSetNThreads n => started (on_job (with_n_threads n) w)
  | CSetNAttempts n => on_job (with_n_attempts n) w
  | CKill => started (on_job (with_n_threads 0) w)
  | CPause => if paused w then w else acquired _block w
  | CResume =>
      if paused w
      then with_locks (filter (λ x, x ≠ _block) (locks w)) w
      else w
  end.

(** The world a segment of a worker leaves behind. *)
Definition settle (h : nat) (o : outcome wstate) : option World :=
  match o with
  | Ok pc w' => Some (set_pc h pc w')
  | Raise e w' => Some (set_pc h (WDied e) w')
  | Blocked _ _ => None
  end.

(** A schedule whose every step passes the test [ok] in the world it
    starts from. *)
Fixpoint exec_if (ok : World → label → bool) (ls : list label) (w : World)
    : option World :=
  match ls with
  | [] => Some w
  | l :: ls' =>
      if ok w l then
        match step l w with
        | Some w' => exec_if ok ls' w'
        | None => None
        end
      else None
  end.

(** ** The view of a world and its moves

    The properties of the stores only depend on a part of the world, its
    [view]: the queue, the input set, the two stores, the number of
    attempts, where each thread stands, and the history.  Every step of the
    program changes the view by a sequence of elementary [move]s. *)

Record View : Type := mkView {
  v_queue : list (Input * Z);
  v_inputs : gset Input;
  v_results : gmap Input Value;
  v_exceptions : gmap Input PyExn;
  v_n_attempts : Z;
  v_pcs : list wstate;
  v_history : list event
}.

Definition view (w : World) : View :=
  mkView (_queue (job w)) (_inputs (job w)) (_results (job w))
         (_exceptions (job w)) (_n_attempts (job w)) (t_pc <$> spawned w)
         (history w).

Definition v_enqueue (arg : Input) (v : View) : View :=
  mkView (v_queue v ++ [(arg, 1%Z)]) ({[arg]} ∪ v_inputs v) (v_results v)
         (v_exceptions v) (v_n_attempts v) (v_pcs v)
         (v_history v ++ [EvPut arg 1%Z]).

Definition v_clear (arg : Input) (v : View) : View :=
  mkView (v_queue v) (v_inputs v) (v_results v)
         (delete arg (v_exceptions v)) (v_n_attempts v) (v_pcs v)
         (v_history v).

Definition v_config (n : Z) (v : View) : View :=
  mkView (v_queue v) (v_inputs v) (v_results v) (v_exceptions v) n (v_pcs v)
         (v_history v).

Definition v_pcs_to (pcs : list wstate) (v : View) : View :=
  mkView (v_queue v) (v_inputs v) (v_results v) (v_exceptions v)
         (v_n_attempts v) pcs (v_history v).

Definition v_take (q : list (Input * Z)) (arg : Input) (attempt : Z)
    (v : View) : View :=
  mkView q (v_inputs v) (v_results v) (v_exceptions v) (v_n_attempts v)
         (v_pcs v) (v_history v ++ [EvGet arg attempt]).

(** What the end of a call of the target function does to the stores. *)
Definition v_finish (arg : Input) (attempt : Z) (r : call_result) (v : View)
    : View :=
  let h1 := v_history v ++ [EvDone arg attempt r] in
  match r with
  | Returned result =>
      mkView (v_queue v) (v_inputs v) (<[arg := result]> (v_results v))
             (v_exceptions v) (v_n_attempts v) (v_pcs v) h1
  | Raised e =>
      if isinstance_Empty e || negb (isinstance_Exception e) then
        mkView (v_queue v) (v_inputs v) (v_results v) (v_exceptions v)
               (v_n_attempts v) (v_pcs v) h1
      else if (attempt <? v_n_attempts v)%Z then
        mkView (v_queue v ++ [(arg, (attempt + 1)%Z)]) (v_inputs v)
               (v_results v) (v_exceptions v) (v_n_attempts v) (v_pcs v)
               (h1 ++ [EvPut arg (attempt + 1)%Z])
      else
        mkView (v_queue v) (v_inputs v) (v_results v)
               (<[arg := e]> (v_exceptions v)) (v_n_attempts v) (v_pcs v) h1
  end.

(** A thread that is not inside the target function. *)
Definition idle (pc : wstate) : bool :=
  match pc with WProcessing _ _ => false | _ => true end.

Inductive kind : Type :=
  | KSubmit (arg : Input)       (* accepted submission of a new input *)
  | KForce (arg : Input)        (* forced submission *)
  | KRetry (arg : Input)        (* a failed input is cleared and resubmitted *)
  | KConfig (n : Z)             (* the number of attempts changes *)
  | KSpawn                      (* a thread is started *)
  | KIdle (h : nat)             (* thread [h] moves outside the target *)
  | KTake (h : nat) (arg : Input) (attempt : Z)
  | KDone (h : nat) (arg : Input) (attempt : Z) (r : call_result).

Inductive move : kind → View → View → Prop :=
  | move_submit arg v :
      arg ∉ v_inputs v → move (KSubmit arg) v (v_enqueue arg v)
  | move_force arg v : move (KForce arg) v (v_enqueue arg v)
  | move_retry arg v :
      arg ∈ dom (v_exceptions v) →
      move (KRetry arg) v (v_enqueue arg (v_clear arg v))
  | move_config n v : move (KConfig n) v (v_config n v)
  | move_spawn v : move KSpawn v (v_pcs_to (v_pcs v ++ [WStart]) v)
  | move_idle h pc pc' v :
      v_pcs v !! h = Some pc → idle pc = true → idle pc' = true →
      move (KIdle h) v (v_pcs_to (<[h := pc']> (v_pcs v)) v)
  | move_take h arg attempt q pc v :
      v_pcs v !! h = Some pc → idle pc = true →
      v_queue v = (arg, attempt) :: q →
      move (KTake h arg attempt) v
           (v_pcs_to (<[h := WProcessing arg attempt]> (v_pcs v))
                     (v_take q arg attempt v))
  | move_done h arg attempt r pc' v :
      v_pcs v !! h = Some (WProcessing arg attempt) → idle pc' = true →
      move (KDone h arg attempt r) v
           (v_pcs_to (<[h := pc']> (v_pcs v)) (v_finish arg attempt r v)).

(** Sequences of moves whose kinds satisfy [P]. *)
Inductive run (P : kind → Prop) : View → View → Prop :=
  | run_refl v : run P v v
  | run_more v v' v'' k :
      run P v v' → P k → move k v' v'' → run P v v''.

(** The kinds of moves a step can make, from the view it starts in. *)
Definition label_kinds (lb : label) (v : View) (k : kind) : Prop :=
  match lb with
  | Call (CAdd arg force) =>
      k = KSpawn ∨ (if force then k = KForce arg else k = KSubmit arg)
  | Call (CAddMany args force) =>
      k = KSpawn ∨
      ∃ arg, arg ∈ args ∧ (if force then k = KForce arg else k = KSubmit arg)
  | Call (CRetry arg) =>
      k = KSpawn ∨
      (if bool_decide (arg ∈ dom (v_exceptions v))
       then k = KRetry arg else k = KForce arg)
  | Call (CRetryMany args) =>
      k = KSpawn ∨
      ∃ arg, arg ∈ args ∧
        (k = KRetry arg ∨
         (¬ (NoDup args ∧ Forall (λ a, a ∈ dom (v_exceptions v)) args) ∧
          k = KForce arg))
  | Call CRetryAll =>
      k = KSpawn ∨ ∃ arg, arg ∈ dom (v_exceptions v) ∧ k = KRetry arg
  | Call (CSetNThreads _) | Call CKill => k = KSpawn
  | Call (CSetNAttempts n) => k = KConfig n
  | Call CPause | Call CResume => False
  | Enter h => k = KIdle h
  | Dequeue h => k = KIdle h ∨ ∃ arg attempt, k = KTake h arg attempt
  | Finish h r =>
      ∃ arg attempt,
        v_pcs v !! h = Some (WProcessing arg attempt) ∧
        k = KDone h arg attempt r
  end.

(** The loops of [add_many] and [retry_all], on views. *)
Definition v_submit (force : bool) (arg : Input) (v : View) : View :=
  if bool_decide (arg ∉ v_inputs v) || force then v_enqueue arg v else v.

Fixpoint v_submit_all (force : bool) (args : list Input) (v : View) : View :=
  match args with
  | [] => v
  | arg :: args' => v_submit_all force args' (v_submit force arg v)
  end.

Fixpoint v_drain (args : list Input) (v : View) : View :=
  match args with
  | [] => v
  | arg :: args' => v_drain args' (v_clear arg v)
  end.

(** ** Counting where an input is *)

Fixpoint count {A} (p : A → bool) (xs : list A) : nat :=
  match xs with
  | [] => 0
  | x :: xs' => (if p x then 1 else 0) + count p xs'
  end.

(** The work items of [arg] waiting in the queue. *)
Definition queued (arg : Input) (q : list (Input * Z)) : nat :=
  count (λ it, bool_decide (it.1 = arg)) q.

(** The thread is inside [target_function(arg)]. *)
Definition busy (arg : Input) (pc : wstate) : bool :=
  match pc with
  | WProcessing arg' _ => bool_decide (arg' = arg)
  | _ => false
  end.

(** The threads that are processing [arg] right now. *)
Definition in_flight (arg : Input) (pcs : list wstate) : nat :=
  count (busy arg) pcs.

(** One when [arg] is a key of the store, zero otherwise. *)
Definition kept {V} (arg : Input) (m : gmap Input V) : nat :=
  if bool_decide (arg ∈ dom m) then 1 else 0.

(** The input is at one place at most: in the queue, in a worker, in the
    results or in the exceptions; and nowhere before it was submitted. *)
Definition tidy_at (arg : Input) (v : View) : Prop :=
  queued arg (v_queue v) + in_flight arg (v_pcs v) +
  kept arg (v_results v) + kept arg (v_exceptions v)
  ≤ (if bool_decide (arg ∈ v_inputs v) then 1 else 0).

Definition tidy (v : View) : Prop := ∀ arg, tidy_at arg v.

(** The steps that resubmit no input that may still be somewhere: no forced
    [add] or [add_many], and [retry] only of inputs whose exception is
    recorded. *)
Definition gentle (w : World) (lb : label) : bool :=
  match lb with
  | Call (CAdd _ force) | Call (CAddMany _ force) => negb force
  | Call (CRetry arg) => bool_decide (arg ∈ dom (_exceptions (job w)))
  | Call (CRetryMany args) =>
      bool_decide
        (NoDup args ∧ Forall (λ a, a ∈ dom (_exceptions (job w))) args)
  | _ => true
  end.

(** The kinds of moves gentle steps make. *)
Definition gentle_kind (k : kind) : Prop :=
  match k with KForce _ => False | _ => True end.

(** ** Reading the history *)

(** The value of the last successful call for [arg] in the history. *)
Definition latest_success (arg : Input) (hist : list event) : option Value :=
  foldl (λ acc ev,
           match ev with
           | EvDone a _ (Returned x) =>
               if bool_decide (a = arg) then Some x else acc
           | _ => acc
           end) None hist.

(** How often the item [(arg, 1)] was put in the queue. *)
Definition first_puts (arg : Input) (hist : list event) : nat :=
  count (λ ev, match ev with
               | EvPut a n => bool_decide (a = arg) && bool_decide (n = 1%Z)
               | _ => false
               end) hist.

(** How often a call for [arg] raised. *)
Definition failures (arg : Input) (hist : list event) : nat :=
  count (λ ev, match ev with
               | EvDone a _ (Raised _) => bool_decide (a = arg)
               | _ => false
               end) hist.

(** Every attempt number in the queue and in the workers is at least one. *)
Definition attempts_positive (v : View) : Prop :=
  Forall (λ it, (1 ≤ it.2)%Z) (v_queue v) ∧
  Forall (λ pc, match pc with
                | WProcessing _ n => (1 ≤ n)%Z
                | _ => True
                end) (v_pcs v).

(** The steps without any forced submission: no [force], no [retry]. *)
Definition unforced (w : World) (lb : label) : bool :=
  match lb with
  | Call (CAdd _ force) | Call (CAddMany _ force) => negb force
  | Call (CRetry _) | Call (CRetryMany _) | Call CRetryAll => false
  | _ => true
  end.

Definition unforced_kind (k : kind) : Prop :=
  match k with KForce _ | KRetry _ => False | _ => True end.

(** ** An input whose processing always fails *)

(** The call raised an instance of [Exception] other than [queue.Empty]:
    the clause [except Exception] handles it. *)
Definition ordinary (r : call_result) : bool :=
  match r with
  | Raised e => isinstance_Exception e && negb (isinstance_Empty e)
  | Returned _ => false
  end.

Definition at_item (arg : Input) (n : Z) (it : Input * Z) : bool :=
  bool_decide (it.1 = arg) && bool_decide (it.2 = n).

Definition at_pc (arg : Input) (n : Z) (pc : wstate) : bool :=
  match pc with
  | WProcessing a m => bool_decide (a = arg) && bool_decide (m = n)
  | _ => false
  end.

(** The items [(arg, n)] in the queue and in the workers. *)
Definition around (arg : Input) (n : Z) (v : View) : nat :=
  count (at_item arg n) (v_queue v) + count (at_pc arg n) (v_pcs v).

(** The steps of a schedule in which [arg] is submitted without force and
    never retried, the number of attempts is left alone, and every call of
    the target function for [arg] raises an ordinary exception. *)
Definition doomed (arg : Input) (w : World) (lb : label) : bool :=
  match lb with
  | Call (CAdd b force) => negb force || negb (bool_decide (b = arg))
  | Call (CAddMany bs force) => negb force || bool_decide (arg ∉ bs)
  | Call (CRetry b) => negb (bool_decide (b = arg))
  | Call (CRetryMany bs) => bool_decide (arg ∉ bs)
  | Call CRetryAll => bool_decide (arg ∉ dom (_exceptions (job w)))
  | Call (CSetNAttempts _) => false
  | Finish h r =>
      match spawned w !! h with
      | Some (mkThread _ (WProcessing b _)) =>
          negb (bool_decide (b = arg)) || ordinary r
      | _ => true
      end
  | _ => true
  end.

Definition doomed_kind (arg : Input) (k : kind) : Prop :=
  match k with
  | KForce b | KRetry b => b ≠ arg
  | KConfig _ => False
  | KDone _ b _ r => b = arg → ordinary r = true
  | _ => True
  end.

(** What holds of such an input along the schedule, when [N] attempts are
    allowed: its only item [(arg, n)] has failed [n - 1] times, it is in the
    exceptions once it has failed [N] times, and it has no result. *)
Definition doom (arg : Input) (N : Z) (v : View) : Prop :=
  tidy_at arg v ∧
  v_n_attempts v = N ∧
  (∀ n, 1 ≤ around arg n v →
        Z.of_nat (failures arg (v_history v)) = (n - 1)%Z ∧ (1 ≤ n ≤ N)%Z) ∧
  (arg ∈ dom (v_exceptions v) →
   Z.of_nat (failures arg (v_history v)) = N) ∧
  (queued arg (v_queue v) + in_flight arg (v_pcs v) +
   kept arg (v_exceptions v) = 0 →
   failures arg (v_history v) = 0) ∧
  (arg ∉ dom (v_results v)).

(** ** The ids of new threads *)

(** The ids that [n] calls of [_generate_tid] build, from draw [d] on. *)
Definition generated_tids (rnd : nat → nat) (d n : nat) : list string :=
  (λ i, tid_at rnd (d + 16 * i)) <$> seq 0 n.

(** The ids of the threads a call of [_start] spawns. *)
Definition new_tids (w : World) : list string :=
  generated_tids (entropy w) (drawn w) (new_threads w).

(** ** Which locks are held together *)

(** The component locks in a snapshot of the locked set. *)
Definition held (snapshot : list lock_id) : list lock_id :=
  filter (λ l, component_lock l = true) snapshot.

Definition world_of {A} (o : outcome A) : World :=
  match o with
  | Ok _ w | Raise _ w | Blocked _ w => w
  end.

(** The operations on a job: its methods (all but [wait], which runs while
    other threads log their own locks), the module's printing, and the
    three segments of the worker loop. *)
Inductive operation : Type :=
  | OStart
  | OAdd (arg : Input) (force : bool)
  | OAddMany (args : list Input) (force : bool)
  | OGetNPending | OGetNFinished | OGetNRunning | OGetNFailed
  | OGetStatusString
  | OPrintStatus
  | OSetNThreads (n : Z)
  | OSetNAttempts (n : Z)
  | OKill | OPause | OResume
  | OHasResult (arg : Input) | OGetResult (arg : Input) | OGetResults
  | OHasException (arg : Input) | OGetException (arg : Input)
  | OGetExceptions
  | ORetry (arg : Input)
  | ORetryMany (args : list Input)
  | ORetryAll
  | OWorkerEnter
  | OWorkerDequeue (tid : string)
  | OWorkerFinish (tid : string) (arg : Input) (attempt : Z) (r : call_result).

(** The world an operation leaves behind, whatever it answers. *)
Definition after (o : operation) (w : World) : World :=
  match o with
  | OStart => world_of (_start w)
  | OAdd arg force => world_of (add arg force w)
  | OAddMany args force => world_of (add_many args force w)
  | OGetNPending => world_of (get_n_pending w)
  | OGetNFinished => world_of (get_n_finished w)
  | OGetNRunning => world_of (get_n_running w)
  | OGetNFailed => world_of (get_n_failed w)
  | OGetStatusString => world_of (_get_status_string w)
  | OPrintStatus => world_of (print_status w)
  | OSetNThreads n => world_of (set_n_threads n w)
  | OSetNAttempts n => world_of (set_n_attempts n w)
  | OKill => world_of (kill w)
  | OPause => world_of (pause w)
  | OResume => world_of (resume w)
  | OHasResult arg => world_of (has_result arg w)
  | OGetResult arg => world_of (get_result arg w)
  | OGetResults => world_of (get_results w)
  | OHasException arg => world_of (has_exception arg w)
  | OGetException arg => world_of (get_exception arg w)
  | OGetExceptions => world_of (get_exceptions w)
  | ORetry arg => world_of (retry arg w)
  | ORetryMany args => world_of (retry_many args w)
  | ORetryAll => world_of (retry_all w)
  | OWorkerEnter => world_of (worker_enter w)
  | OWorkerDequeue tid => world_of (worker_dequeue tid w)
  | OWorkerFinish tid arg attempt r =>
      world_of (worker_finish tid arg attempt r w)
  end.

(** The component locks an operation may hold at a time: one at most, but
    for [add] (and [retry], [retry_many], which call it), which takes the
    thread dict lock inside the input set lock, and for [retry_all], which
    keeps the exceptions lock while [add_many] takes these two in turn. *)
Definition may_hold (o : operation) (snapshot : list lock_id) : Prop :=
  match o with
  | OAdd _ _ | ORetry _ | ORetryMany _ =>
      length (held snapshot) ≤ 1 ∨ held snapshot = [_tlock; _ilock]
  | ORetryAll =>
      length (held snapshot) ≤ 1 ∨ held snapshot = [_ilock; _elock] ∨
      held snapshot = [_tlock; _elock]
  | _ => length (held snapshot) ≤ 1
  end.

(** The locked sets logged between [w] and [w'] all satisfy [P]. *)
Definition logged (P : list lock_id → Prop) (w w' : World) : Prop :=
  ∃ lg, lock_log w' = lock_log w ++ lg ∧ Forall P lg.

(** What [meanwhile.print] does to the console. *)
Definition printed (line : string) (c : Console) : Console :=
  let c2 := _print line (_hide_status c) in
  match _status c with
  | Some st => _show_status st c2
  | None => c2
  end.

Definition on_console (f : Console → Console) (w : World) : World :=
  with_console (f (console w)) w.

(** The world after the four counters of [_get_status_string] were read. *)
Definition counted (w : World) : World :=
  region _elock (λ w, w) (region _rlock (λ w, w) (region _tlock (λ w, w) w)).

(** The string [_get_status_string] returns. *)
Definition status_string (w : World) : string :=
  status_template
    (Z.of_nat (length (_queue (job w))))
    (Z.of_nat (size (_threads (job w))) - _n_paused (job w))
    (Z.of_nat (size (_results (job w))))
    (Z.of_nat (size (_exceptions (job w)))).


(** The item [(arg, 1)] was put in the queue once if [arg] is in the input
    set, and never otherwise. *)
Definition put_once (v : View) : Prop :=
  ∀ arg, first_puts arg (v_history v) =
         if bool_decide (arg ∈ v_inputs v) then 1 else 0.

(** The world the clause [except KeyboardInterrupt] of [Job.wait] leaves:
    the status line is erased under the print lock if it is shown and the
    print lock is free. *)
Definition interrupted (show_status : bool) (w : World) : World :=
  if show_status && negb (bool_decide (module_plock ∈ locks w))
  then region module_plock (on_console _hide_status) w
  else w.

(** ** Further notions for the statements *)

(** The text [_hide_status] prints over the status [st]. *)
Definition eraser (st : string) : string :=
  String CR EmptyString +:+ blank st +:+ String CR EmptyString.

(** The character that covers [ch] when a status is erased. *)
Definition cover (ch : Ascii.ascii) : Ascii.ascii :=
  if Ascii.eqb ch TAB then TAB else Ascii.ascii_of_nat 32.

(** The operations that only read the job. *)
Definition reads_only (o : operation) : bool :=
  match o with
  | OGetNPending | OGetNFinished | OGetNRunning | OGetNFailed
  | OGetStatusString
  | OHasResult _ | OGetResult _ | OGetResults
  | OHasException _ | OGetException _ | OGetExceptions => true
  | _ => false
  end.

(** The operations on the gate, which is locked and unlocked by different
    calls. *)
Definition moves_gate (o : operation) : bool :=
  match o with OPause | OResume => true | _ => false end.

(** The thread stands between the two updates of the paused counter. *)
Definition at_gate (pc : wstate) : bool :=
  match pc with WGate => true | _ => false end.

(** The items [add_many] and [retry_many] put for the inputs [args]. *)
Definition first_attempts (args : list Input) : list (Input * Z) :=
  (λ a, (a, 1%Z)) <$> args.

(** Whatever is queued, in process or stored has been put in the input
    set. *)
Definition registered (v : View) : Prop :=
  Forall (λ it, it.1 ∈ v_inputs v) (v_queue v) ∧
  Forall (λ pc, match pc with
                | WProcessing a _ => a ∈ v_inputs v
                | _ => True
                end) (v_pcs v) ∧
  (∀ a, a ∈ dom (v_results v) → a ∈ v_inputs v) ∧
  (∀ a, a ∈ dom (v_exceptions v) → a ∈ v_inputs v).

(** The thread objects [wait] finds in the dict and that are alive. *)
Definition live_threads (w : World) : list nat :=
  filter (λ h, isAlive h w = true) (map_to_list (_threads (job w))).*2.

(** The sum [self.get_n_running() + self.get_n_pending()]. *)
Definition work_left (w : World) : Z :=
  (Z.of_nat (size (_threads (job w))) - _n_paused (job w) +
   Z.of_nat (length (_queue (job w))))%Z.

(** The paused counter is the number of threads at the gate. *)
Definition gate_counted (w : World) : Prop :=
  _n_paused (job w) = Z.of_nat (count at_gate (t_pc <$> spawned w)).

(** The moves made by client calls. *)
Definition client_kind (k : kind) : Prop :=
  match k with
  | KIdle _ | KTake _ _ _ | KDone _ _ _ _ => False
  | _ => True
  end.

(** The world after [with _plock: _show_status(self._get_status_string())]. *)
Definition redrawn (w : World) : World :=
  region module_plock
    (λ w1, on_console (_show_status (status_string w1)) (counted w1)) w.

(** ** The finer interleaving *)

(** The effect of [worker_store] on a quiet world. *)
Definition store_outcome (tid : string) (arg : Input) (attempt : Z)
    (r : call_result) (w1 : World) : outcome wstate :=
  match r with
  | Returned result =>
      Ok WStart
         (region _rlock
            (on_job (λ j, with_results (<[arg := result]> (_results j)) j)) w1)
  | Raised e =>
      if isinstance_Empty e then leave tid w1
      else if isinstance_Exception e then
        if (attempt <? _n_attempts (job w1))%Z
        then Ok WStart
               (with_history (history w1 ++ [EvPut arg (attempt + 1)%Z])
                  (on_job (λ j, with_queue (_queue j ++ [(arg, (attempt + 1)%Z)]) j)
                     w1))
        else Ok WStart
               (region _elock
                  (on_job (λ j, with_exceptions (<[arg := e]> (_exceptions j)) j))
                  w1)
      else Raise e w1
  end.

(** Thread [h] is inside the target function for [arg], or holds the
    outcome of its call. *)
Definition processes (arg : Input) (w : World) (h : nat) : bool :=
  match t_pc <$> spawned w !! h with
  | Some (WProcessing a _) => bool_decide (a = arg)
  | _ => false
  end.

(** No worker holds an outcome for [arg] that is not handled yet. *)
Definition unheld (arg : Input) (fw : Fine) : Prop :=
  map_Forall (λ h _, processes arg (base fw) h = false) (in_hand fw).

(** The calls for an input end one at a time: no call for an input ends
    while the outcome of another call for it is in hand. *)
Definition in_order (fw : Fine) (lb : flabel) : bool :=
  match lb with
  | Return h _ | Coarse (Finish h _) =>
      match t_pc <$> spawned (base fw) !! h with
      | Some (WProcessing a _) => bool_decide (unheld a fw)
      | _ => true
      end
  | _ => true
  end.

Fixpoint fexec_if (ok : Fine → flabel → bool) (ls : list flabel) (fw : Fine)
    : option Fine :=
  match ls with
  | [] => Some fw
  | l :: ls' =>
      if ok fw l then
        match fstep l fw with
        | Some fw' => fexec_if ok ls' fw'
        | None => None
        end
      else None
  end.

(** What a step writes to the results: a [Store], or a [Finish], of a
    returned value writes it over the entry of the input; no other step
    touches the results. *)
Definition written (lb : flabel) (fw : Fine)
    (results : gmap Input Value) : gmap Input Value :=
  match lb with
  | Store h =>
      match t_pc <$> spawned (base fw) !! h, in_hand fw !! h with
      | Some (WProcessing a _), Some (Returned x) => <[a := x]> results
      | _, _ => results
      end
  | Coarse (Finish h (Returned x)) =>
      match t_pc <$> spawned (base fw) !! h with
      | Some (WProcessing a _) => <[a := x]> results
      | _ => results
      end
  | _ => results
  end.

(** The invariant of the schedules in which calls end in order, for one
    input: every outcome in hand belongs to a worker that is still in its
    [try] statement; when none is in hand for [arg], the results hold the
    value of the last call that returned; one outcome at most is in hand
    for [arg], and it is that of the last call. *)
Definition settled (arg : Input) (fw : Fine) : Prop :=
  (∀ h r, in_hand fw !! h = Some r →
          ∃ a n, t_pc <$> spawned (base fw) !! h = Some (WProcessing a n)) ∧
  (unheld arg fw →
   _results (job (base fw)) !! arg
   = latest_success arg (history (base fw))) ∧
  (∀ h r, in_hand fw !! h = Some r → processes arg (base fw) h = true →
     (∀ h' r', in_hand fw !! h' = Some r' →
               processes arg (base fw) h' = true → h' = h) ∧
     match r with
     | Returned x => latest_success arg (history (base fw)) = Some x
     | Raised _ =>
         _results (job (base fw)) !! arg
         = latest_success arg (history (base fw))
     end).

(** The moves that do not end a call. *)
Definition calm_kind (k : kind) : Prop :=
  match k with KDone _ _ _ _ => False | _ => True end.

(** ** Submitting a second time *)

(** The step is an unforced submission of [arg], by [add] or in the list of
    an [add_many]. *)
Definition submits (arg : Input) (lb : label) : bool :=
  match lb with
  | Call (CAdd a force) => negb force && bool_decide (a = arg)
  | Call (CAddMany args force) => negb force && bool_decide (arg ∈ args)
  | _ => false
  end.
End Meanwhile.

Arguments Ok {Input _ _ Value A} a w.
Arguments Raise {Input _ _ Value A} e w.
Arguments Blocked {Input _ _ Value A} l w.


(** ** A job on integers, for examples *)

(** A random source that gives the [k]-th generated thread id sixteen times
    the digit [k]: the first ids are distinct. *)
Definition digit_per_thread : nat → nat := λ n, n `div` 16.

(** A new job with integer inputs and results. *)
Definition new_job (n_threads n_attempts : Z) : @World Z _ _ Z :=
  World_init digit_per_thread n_threads n_attempts.

(** Input 5 fails once and for all, is then submitted again with
    [force = True], and succeeds. *)
Definition force_after_failure : list (@label Z Z) :=
  [Call (CAdd 5%Z false); Enter 0; Dequeue 0;
   Finish 0 (Raised (TargetError 1));
   Call (CAdd 5%Z true); Enter 0; Dequeue 0; Finish 0 (Returned 7%Z)].

(** The same, with [retry] in place of the forced [add]. *)
Definition retry_after_failure : list (@label Z Z) :=
  [Call (CAdd 5%Z false); Enter 0; Dequeue 0;
   Finish 0 (Raised (TargetError 1));
   Call (CRetry 5%Z); Enter 0; Dequeue 0; Finish 0 (Returned 7%Z)].

(** Input 5 is submitted again with [force = True] while the first worker
    is still processing it; the second worker takes the new item. *)
Definition force_while_running : list (@label Z Z) :=
  [Call (CAdd 5%Z false); Enter 0; Dequeue 0;
   Call (CAdd 5%Z true); Enter 1; Dequeue 1].

(** The world a schedule ends in ([w0] itself when it cannot run). *)
Definition outcome_of (ok : @World Z _ _ Z → @label Z Z → bool)
    (ls : list (@label Z Z)) (w0 : @World Z _ _ Z) : @World Z _ _ Z :=
  default w0 (exec_if ok ls w0).

(** With two attempts allowed, input 5 fails twice. *)
Definition two_failures : list (@label Z Z) :=
  [Call (CAdd 5%Z false); Enter 0; Dequeue 0;
   Finish 0 (Raised (TargetError 1));
   Enter 0; Dequeue 0; Finish 0 (Raised (TargetError 2))].

(** The first call for input 5 ends with the exception [e]. *)
Definition first_call_raises (e : PyExn) : list (@label Z Z) :=
  [Call (CAdd 5%Z false); Enter 0; Dequeue 0; Finish 0 (Raised e)].


(** The job after its only attempt for input 5 failed. *)
Definition after_one_failure : @World Z _ _ Z :=
  outcome_of (λ _ _, true) (first_call_raises (TargetError 1)) (new_job 2 1).

(** The job after input 5 was added: two workers wait to start. *)
Definition after_one_add : @World Z _ _ Z :=
  outcome_of (λ _ _, true) [Call (CAdd 5%Z false)] (new_job 2 1).

(** A random source that always gives the same digit: all generated thread
    ids are equal. *)
Definition constant_source : nat → nat := λ _, 0.

(** The job in the middle of [add(5)]: the input set lock is held and the
    item is in the queue when [_start] is called. *)
Definition inside_add : @World Z _ _ Z :=
  enqueue 5%Z (acquired _ilock (new_job 2 1)).

(** Input 5 is submitted by [add_many], processed with success, and both
    workers leave when they find the queue empty. *)
Definition drained_pool : list (@label Z Z) :=
  [Call (CAddMany [5%Z] false); Enter 0; Dequeue 0; Finish 0 (Returned 7%Z);
   Enter 0; Dequeue 0; Enter 1; Dequeue 1].

Definition after_drained_pool : @World Z _ _ Z :=
  outcome_of (λ _ _, true) drained_pool (new_job 2 1).

(** The world a schedule of finer steps ends in. *)
Definition foutcome_of (ok : @Fine Z _ _ Z → @flabel Z Z → bool)
    (ls : list (@flabel Z Z)) (fw0 : @Fine Z _ _ Z) : @Fine Z _ _ Z :=
  default fw0 (fexec_if ok ls fw0).

(** Input 5 has the result 1 and is submitted twice more with
    [force = True].  Both workers take one of the new items.  The call of
    worker 0 returns 7, then the call of worker 1 returns 9; worker 1
    stores its result first. *)
Definition stores_cross : list (@flabel Z Z) :=
  [Coarse (Call (CAdd 5%Z false)); Coarse (Enter 0); Coarse (Dequeue 0);
   Coarse (Finish 0 (Returned 1%Z));
   Coarse (Call (CAdd 5%Z true)); Coarse (Call (CAdd 5%Z true));
   Coarse (Enter 0); Coarse (Dequeue 0); Coarse (Enter 1); Coarse (Dequeue 1);
   Return 0 (Returned 7%Z); Return 1 (Returned 9%Z); Store 1; Store 0].

(** The same, but each worker stores its result before the call of the
    other one ends. *)
Definition stores_in_turn : list (@flabel Z Z) :=
  [Coarse (Call (CAdd 5%Z false)); Coarse (Enter 0); Coarse (Dequeue 0);
   Coarse (Finish 0 (Returned 1%Z));
   Coarse (Call (CAdd 5%Z true)); Coarse (Call (CAdd 5%Z true));
   Coarse (Enter 0); Coarse (Dequeue 0); Coarse (Enter 1); Coarse (Dequeue 1);
   Return 0 (Returned 7%Z); Store 0; Return 1 (Returned 9%Z); Store 1].

(** The job after worker 0 came to the gate. *)
Definition after_one_enter : @World Z _ _ Z :=
  outcome_of (λ _ _, true) [Call (CAdd 5%Z false); Enter 0] (new_job 2 1).

(** The job after worker 0 took the item of input 5. *)
Definition after_one_take : @World Z _ _ Z :=
  outcome_of (λ _ _, true) [Call (CAdd 5%Z false); Enter 0; Dequeue 0]
    (new_job 2 1).

(** A job with a target of zero threads and one pending input. *)
Definition unstaffed : @World Z _ _ Z :=
  outcome_of (λ _ _, true) [Call (CAdd 5%Z false)] (new_job 0 1).

(** A console that shows a status line. *)
Definition showing : Console :=
  mkConsole (Some (status_template 1 2 3 4)) [status_template 1 2 3 4].

(** The id of the first thread of the examples. *)
Definition tid0 : string := "0000000000000000".

(** The id of the second thread, and the job after worker 0 took the only
    item and worker 1 came to the gate. *)
Definition tid1 : string := "1111111111111111".

Definition after_second_enter : @World Z _ _ Z :=
  outcome_of (λ _ _, true)
    [Call (CAdd 5%Z false); Enter 0; Dequeue 0; Enter 1] (new_job 2 1).
(** * Properties *)

Section Properties.

Context {Input : Type} {Input_eq_dec : EqDecision Input}
        {Input_countable : Countable Input} {Value : Type}.

Local Abbreviation World := (@World Input _ _ Value).
Local Abbreviation Job := (@Job Input _ _ Value).
Local Abbreviation M := (@M Input _ _ Value).
Local Abbreviation View := (@View Input _ _ Value).
Local Abbreviation kind := (@kind Input Value).
Local Abbreviation label := (@label Input Value).
Local Abbreviation event := (@event Input Value).
Local Abbreviation call_result := (@call_result Value).
Local Abbreviation wstate := (@wstate Input).
Local Abbreviation Thread := (@Thread Input).
Local Abbreviation Fine := (@Fine Input _ _ Value).
Local Abbreviation flabel := (@flabel Input Value).

Notation "'let!' x ':=' m 'in' k" := (bind m (λ x, k))
  (at level 10, x name, m at level 100, k at level 200, only parsing).
Notation "m '>>' k" := (bind m (λ _, k))
  (at level 100, right associativity, only parsing).

Implicit Types (w : World) (j : Job) (l : lock_id) (arg : Input).
Implicit Types (v u : View) (k : kind) (P Q : kind → Prop) (lb : label).
Implicit Types (r : call_result) (pc : wstate) (fw : Fine).

(** ** Running the primitives *)

Lemma acquire_free l (b : bool) w :
  l ∉ locks w → acquire l b w = Ok true (acquired l w).
Proof.
  intros Hl. unfold acquire. by rewrite bool_decide_eq_false_2.
Qed.

Lemma filter_ne_cons l (ls : list lock_id) :
  l ∉ ls → filter (λ x, x ≠ l) (l :: ls) = ls.
Proof.
  intros Hl. rewrite filter_cons_False by (intros Hne; by apply Hne).
  induction ls as [|x ls IH]; [done|].
  apply not_elem_of_cons in Hl as [Hx Hls].
  rewrite filter_cons_True by congruence. f_equal. by apply IH.
Qed.

Lemma release_held l (ls : list lock_id) w :
  locks w = l :: ls → l ∉ ls → release l w = Ok () (with_locks ls w).
Proof.
  intros Hw Hl. unfold release.
  rewrite bool_decide_eq_true_2 by (rewrite Hw; apply list_elem_of_here).
  by rewrite Hw, filter_ne_cons.
Qed.

Lemma with_lock_Ok {A} l (body : M A) w a w2 :
  l ∉ locks w →
  body (acquired l w) = Ok a w2 →
  locks w2 = l :: locks w →
  with_lock l body w = Ok a (with_locks (locks w) w2).
Proof.
  intros Hl Hb Hw2. unfold with_lock. rewrite acquire_free by done.
  rewrite Hb. unfold bind. by rewrite (release_held l (locks w)).
Qed.

Lemma with_lock_Raise {A} l (body : M A) w e w2 :
  l ∉ locks w →
  body (acquired l w) = Raise e w2 →
  locks w2 = l :: locks w →
  with_lock l body w = Raise e (with_locks (locks w) w2).
Proof.
  intros Hl Hb Hw2. unfold with_lock. rewrite acquire_free by done.
  rewrite Hb. unfold bind. by rewrite (release_held l (locks w)).
Qed.

Lemma with_lock_Blocked {A} l (body : M A) w :
  l ∈ locks w → with_lock l body w = Blocked l w.
Proof.
  intros Hl. unfold with_lock, acquire. by rewrite bool_decide_eq_true_2.
Qed.

Lemma quiet_free l w : quiet w → l ≠ _block → l ∉ locks w.
Proof.
  unfold quiet. intros Hq Hl Hin.
  assert (Hf : l ∈ filter (λ l, l ≠ _block) (locks w))
    by by apply list_elem_of_filter.
  rewrite Hq in Hf. by apply not_elem_of_nil in Hf.
Qed.

Lemma quiet_free2 l l' w : quiet w → l ≠ _block → l ≠ l' → l ∉ l' :: locks w.
Proof.
  intros Hq Hl Hne. apply not_elem_of_cons. split; [done|]. by apply quiet_free.
Qed.

Lemma quiet_same w w' : locks w' = locks w → quiet w → quiet w'.
Proof. unfold quiet. by intros ->. Qed.

(** ** Spawning threads *)

Lemma collect_choice (s : string) n w :
  collect n (choice s) w =
  Ok ((λ i, default Ascii.zero
              (String.get (entropy w (drawn w + i) `mod` String.length s) s))
        <$> seq 0 n)
     (with_drawn (drawn w + n) w).
Proof.
  revert w. induction n as [|n IH]; intros w.
  - destruct w. cbn. by rewrite Nat.add_0_r.
  - cbn [collect]. unfold bind at 1. unfold choice at 1.
    unfold bind at 1. rewrite IH. unfold bind, ret.
    destruct w as [j ls sp rnd d co lg hi].
    unfold with_drawn.
    cbn [entropy drawn job locks spawned console lock_log history].
    replace (S d + n) with (d + S n) by lia. f_equal.
    rewrite <- cons_seq, fmap_cons, Nat.add_0_r. f_equal.
    rewrite <- fmap_S_seq, <- list_fmap_compose.
    apply list_fmap_ext. intros i x _. cbn. by rewrite Nat.add_succ_r.
Qed.

Lemma _generate_tid_run w :
  _generate_tid w =
  Ok (tid_at (entropy w) (drawn w)) (with_drawn (drawn w + 16) w).
Proof.
  unfold _generate_tid, bind. by rewrite collect_choice.
Qed.

Lemma alter_snoc {A} (f : A → A) (xs : list A) (x : A) :
  alter f (length xs) (xs ++ [x]) = xs ++ [f x].
Proof.
  induction xs as [|y xs IH]; [done|]. cbn. by rewrite IH.
Qed.

Lemma spawn_round_run w :
  (let! tid := _generate_tid in
   let! thread := Thread_new tid in
   update_job (λ j, with_threads (<[tid := thread]> (_threads j)) j) >>
   Thread_start thread) w = Ok () (spawn_one w).
Proof.
  unfold bind at 1. rewrite _generate_tid_run.
  unfold bind, Thread_new, update_job, Thread_start, set_pc, spawn_one.
  destruct w as [j ls sp rnd d co lg hi].
  cbn [entropy drawn with_drawn with_spawned with_job job locks spawned
       console lock_log history].
  by rewrite alter_snoc.
Qed.

Lemma spawn_loop_run {B} (xs : list B) w :
  for_each xs (λ _,
    let! tid := _generate_tid in
    let! thread := Thread_new tid in
    update_job (λ j, with_threads (<[tid := thread]> (_threads j)) j) >>
    Thread_start thread) w = Ok () (spawn_n (length xs) w).
Proof.
  revert w. induction xs as [|x xs IH]; intros w; [done|].
  cbn [for_each length spawn_n]. unfold bind at 1.
  rewrite spawn_round_run. apply IH.
Qed.

Lemma spawn_n_locks n w : locks (spawn_n n w) = locks w.
Proof. revert w. induction n as [|n IH]; intros w; [done|]. cbn. by rewrite IH. Qed.

Lemma spawn_n_lock_log n w : lock_log (spawn_n n w) = lock_log w.
Proof. revert w. induction n as [|n IH]; intros w; [done|]. cbn. by rewrite IH. Qed.

Lemma spawn_n_history n w : history (spawn_n n w) = history w.
Proof. revert w. induction n as [|n IH]; intros w; [done|]. cbn. by rewrite IH. Qed.

Lemma spawn_n_console n w : console (spawn_n n w) = console w.
Proof. revert w. induction n as [|n IH]; intros w; [done|]. cbn. by rewrite IH. Qed.

Lemma range_length n : length (range n) = Z.to_nat n.
Proof. unfold range. by rewrite length_fmap, length_seq. Qed.

(** What [_start] does when the thread dict lock is free. *)
Lemma _start_run w :
  _tlock ∉ locks w →
  _start w =
  Ok () (with_locks (locks w) (spawn_n (new_threads w) (acquired _tlock w))).
Proof.
  intros Hl. unfold _start. apply with_lock_Ok; [done| |].
  - unfold bind at 1, get_job. rewrite spawn_loop_run, range_length. done.
  - by rewrite spawn_n_locks.
Qed.

(** ** Running the submission methods *)

Lemma started_locks w : locks (started w) = locks w.
Proof. done. Qed.

Lemma _start_started w : _tlock ∉ locks w → _start w = Ok () (started w).
Proof. apply _start_run. Qed.

Lemma submit_round_run (force : bool) arg w :
  (let! j := get_job in
   if bool_decide (arg ∉ _inputs j) || force then
     update_job (λ j, with_inputs ({[arg]} ∪ _inputs j) j) >>
     queue_put (arg, 1%Z)
   else ret ()) w = Ok () (submit force arg w).
Proof.
  unfold bind at 1, get_job, submit, accepts.
  destruct (bool_decide (arg ∉ _inputs (job w)) || force); [|done].
  by destruct w as [[] ls sp rnd d co lg hi].
Qed.

Lemma submit_loop_run (force : bool) (args : list Input) w :
  for_each args (λ arg,
    let! j := get_job in
    if bool_decide (arg ∉ _inputs j) || force then
      update_job (λ j, with_inputs ({[arg]} ∪ _inputs j) j) >>
      queue_put (arg, 1%Z)
    else ret ()) w = Ok () (submit_all force args w).
Proof.
  revert w. induction args as [|arg args IH]; intros w; [done|].
  cbn [for_each submit_all]. unfold bind at 1.
  rewrite submit_round_run. apply IH.
Qed.

Lemma submit_all_locks force args w : locks (submit_all force args w) = locks w.
Proof.
  revert w. induction args as [|a args IH]; intros w; [done|].
  cbn. rewrite IH. unfold submit. by destruct (accepts force a w).
Qed.

Lemma add_run arg force w :
  quiet w → add arg force w = Ok () (add_effect arg force w).
Proof.
  intros Hq. unfold add, add_effect.
  assert (_ilock ∉ locks w) by by apply quiet_free.
  assert (_tlock ∉ _ilock :: locks w) by by apply quiet_free2.
  change (accepts force arg w) with (accepts force arg (acquired _ilock w)).
  unfold accepts.
  destruct (bool_decide (arg ∉ _inputs (job (acquired _ilock w))) || force)
    eqn:Hacc.
  - apply with_lock_Ok; [done| |done].
    unfold bind at 1, get_job. rewrite Hacc.
    unfold bind at 1. unfold update_job at 1.
    unfold bind at 1. unfold queue_put, bind at 1, update_job at 1.
    unfold log_event.
    rewrite _start_started by done.
    by destruct w as [[] ls sp rnd d co lg hi].
  - apply with_lock_Ok; [done| |done].
    unfold bind, get_job. by rewrite Hacc.
Qed.

Lemma add_many_run_free args force w :
  _ilock ∉ locks w → _tlock ∉ locks w →
  add_many args force w = Ok () (add_many_effect args force w).
Proof.
  intros Hi Ht. unfold add_many, add_many_effect.
  unfold bind at 1.
  erewrite with_lock_Ok; [|done|apply submit_loop_run|].
  - by apply _start_started.
  - by rewrite submit_all_locks.
Qed.

Lemma add_many_run args force w :
  quiet w → add_many args force w = Ok () (add_many_effect args force w).
Proof. intros Hq. by apply add_many_run_free; apply quiet_free. Qed.

Lemma retry_clear_run arg w :
  quiet w →
  with_lock _elock (
    let! j := get_job in
    if bool_decide (arg ∈ dom (_exceptions j))
    then del_exception arg
    else ret ()) w = Ok () (retry_clear arg w).
Proof.
  intros Hq. unfold retry_clear.
  assert (_elock ∉ locks w) by by apply quiet_free.
  destruct (bool_decide (arg ∈ dom (_exceptions (job w)))) eqn:Hin.
  - apply with_lock_Ok; [done| |done].
    unfold bind at 1, get_job.
    cbn [acquired with_lock_log with_locks job]. rewrite Hin.
    unfold del_exception, bind, get_job.
    cbn [acquired with_lock_log with_locks job]. by rewrite Hin.
  - apply with_lock_Ok; [done| |done].
    unfold bind, get_job.
    cbn [acquired with_lock_log with_locks job]. by rewrite Hin.
Qed.

Lemma retry_clear_quiet arg w : quiet w → quiet (retry_clear arg w).
Proof. by apply quiet_same. Qed.

Lemma retry_run arg w :
  quiet w → retry arg w = Ok () (retry_effect arg w).
Proof.
  intros Hq. unfold retry, retry_effect. unfold bind at 1.
  rewrite retry_clear_run by done.
  by apply add_run, retry_clear_quiet.
Qed.

(** ** Running the worker segments *)

Lemma region_run {A} l (f : World → World) (body : M A) a w :
  l ∉ locks w →
  body (acquired l w) = Ok a (f (acquired l w)) →
  locks (f (acquired l w)) = l :: locks w →
  with_lock l body w = Ok a (region l f w).
Proof. intros. by apply with_lock_Ok. Qed.

Lemma region_raise {A} l (f : World → World) (body : M A) e w :
  l ∉ locks w →
  body (acquired l w) = Raise e (f (acquired l w)) →
  locks (f (acquired l w)) = l :: locks w →
  with_lock l body w = Raise e (region l f w).
Proof. intros. by apply with_lock_Raise. Qed.

Lemma region_locks l f w : locks (region l f w) = locks w.
Proof. done. Qed.

Lemma region_quiet l f w : quiet w → quiet (region l f w).
Proof. by apply quiet_same. Qed.

Lemma leave_run (tid : string) w :
  _tlock ∉ locks w →
  (with_lock _tlock (del_thread tid) >> ret WExited) w = leave tid w.
Proof.
  intros Hl. unfold leave, bind at 1.
  destruct (bool_decide (tid ∈ dom (_threads (job w)))) eqn:Hin.
  - rewrite (region_run _tlock (forget_thread tid) _ ()); [done..| |done].
    unfold del_thread, bind, get_job.
    cbn [acquired with_lock_log with_locks job]. by rewrite Hin.
  - rewrite (region_raise _tlock (λ w, w) _ KeyError); [done..| |done].
    unfold del_thread, bind, get_job.
    cbn [acquired with_lock_log with_locks job]. by rewrite Hin.
Qed.

Lemma worker_enter_run w :
  _plock ∉ locks w → worker_enter w = enter_outcome w.
Proof.
  intros Hl. unfold worker_enter, enter_outcome, bind at 1.
  by rewrite (region_run _plock inc_paused _ ()).
Qed.

Lemma worker_dequeue_run (tid : string) w :
  quiet w → worker_dequeue tid w = dequeue_outcome tid w.
Proof.
  intros Hq. unfold worker_dequeue, dequeue_outcome.
  destruct (bool_decide (_block ∈ locks w)) eqn:Hb.
  { apply bool_decide_eq_true_1 in Hb.
    unfold bind at 1. by rewrite with_lock_Blocked. }
  apply bool_decide_eq_false_1 in Hb.
  unfold bind at 1. rewrite (region_run _block (λ w, w) _ ()); [|done..].
  unfold bind at 1.
  rewrite (region_run _plock dec_paused _ ());
    [|by apply quiet_free; [apply region_quiet|]|done..].
  fold (through_gate w).
  assert (Hq1 : quiet (through_gate w)) by by eapply quiet_same.
  assert (_tlock ∉ locks (through_gate w)) by by apply quiet_free.
  generalize dependent (through_gate w). intros w1 Hq1 Hl1.
  unfold bind at 1. destruct (over_target w1) eqn:Hov.
  - pose proof (leave_run tid w1 Hl1) as Hleave.
    unfold leave in *. unfold bind at 1 in Hleave.
    destruct (bool_decide (tid ∈ dom (_threads (job w1)))) eqn:Hin.
    + rewrite (region_run _tlock (forget_thread tid) _ true); [done..| |done].
      unfold bind at 1, get_job.
      cbn [acquired with_lock_log with_locks job].
      unfold over_target in Hov. rewrite Hov.
      unfold del_thread, bind, get_job.
      cbn [acquired with_lock_log with_locks job]. by rewrite Hin.
    + rewrite (region_raise _tlock (λ w, w) _ KeyError); [done..| |done].
      unfold bind at 1, get_job.
      cbn [acquired with_lock_log with_locks job].
      unfold over_target in Hov. rewrite Hov.
      unfold del_thread, bind, get_job.
      cbn [acquired with_lock_log with_locks job]. by rewrite Hin.
  - rewrite (region_run _tlock (λ w, w) _ false); [|done| |done].
    2:{ unfold bind at 1, get_job.
        cbn [acquired with_lock_log with_locks job].
        unfold over_target in Hov. by rewrite Hov. }
    cbn zeta.
    assert (_tlock ∉ locks (region _tlock (λ w, w) w1)) by done.
    generalize dependent (region _tlock (λ w, w) w1). intros w2 Hl2.
    unfold bind at 1, get_job.
    destruct (_queue (job w2)) as [|[a n] q] eqn:Hqueue.
    + by apply leave_run.
    + done.
Qed.

Lemma worker_finish_run (tid : string) arg (attempt : Z) r w :
  quiet w →
  worker_finish tid arg attempt r w = finish_outcome tid arg attempt r w.
Proof.
  intros Hq. unfold worker_finish, worker_store, finish_outcome.
  unfold bind at 1, log_event.
  assert (Hq1 : quiet (with_history (history w ++ [EvDone arg attempt r]) w))
    by by eapply quiet_same.
  generalize dependent (with_history (history w ++ [EvDone arg attempt r]) w).
  intros w1 Hq1. cbn zeta.
  destruct r as [v|e].
  - unfold bind at 1.
    rewrite (region_run _rlock
      (on_job (λ j, with_results (<[arg := v]> (_results j)) j)) _ ());
      [done|by apply quiet_free|done..].
  - destruct (isinstance_Empty e).
    { apply leave_run. by apply quiet_free. }
    destruct (isinstance_Exception e); [|done].
    unfold bind at 1, get_job.
    destruct (attempt <? _n_attempts (job w1))%Z.
    + done.
    + unfold bind at 1.
      rewrite (region_run _elock
        (on_job (λ j, with_exceptions (<[arg := e]> (_exceptions j)) j)) _ ());
        [done|by apply quiet_free|done..].
Qed.

(** ** Running the other client calls *)

Lemma retry_effect_locks arg w : locks (retry_effect arg w) = locks w.
Proof. done. Qed.

Lemma retry_many_run args w :
  quiet w → retry_many args w = Ok () (retry_many_effect args w).
Proof.
  unfold retry_many. revert w.
  induction args as [|a args IH]; intros w Hq; [done|].
  cbn [for_each retry_many_effect]. unfold bind at 1.
  rewrite retry_run by done. apply IH. by eapply quiet_same.
Qed.

Lemma retry_many_effect_locks args w :
  locks (retry_many_effect args w) = locks w.
Proof.
  revert w. induction args as [|a args IH]; intros w; [done|].
  cbn. by rewrite IH.
Qed.

Lemma drain_run (args : list Input) w :
  NoDup args →
  (∀ a, a ∈ args → a ∈ dom (_exceptions (job w))) →
  for_each args (λ arg, del_exception arg) w = Ok () (drain args w).
Proof.
  revert w. induction args as [|a args IH]; intros w Hnd Hin; [done|].
  apply NoDup_cons in Hnd as [Ha Hnd].
  cbn [for_each drain]. unfold bind at 1.
  unfold del_exception at 1, bind at 1, get_job.
  rewrite bool_decide_eq_true_2 by (apply Hin, list_elem_of_here).
  unfold update_job. apply IH; [done|].
  intros b Hb. cbn. rewrite dom_delete_L.
  apply elem_of_difference. split.
  - by apply Hin, list_elem_of_further.
  - intros ->%elem_of_singleton. done.
Qed.

Lemma drain_locks args w : locks (drain args w) = locks w.
Proof.
  revert w. induction args as [|a args IH]; intros w; [done|].
  cbn. by rewrite IH.
Qed.

Lemma failed_inputs_NoDup w : NoDup (failed_inputs w).
Proof. apply NoDup_fst_map_to_list. Qed.

Lemma elem_of_failed_inputs a w :
  a ∈ failed_inputs w ↔ a ∈ dom (_exceptions (job w)).
Proof.
  unfold failed_inputs. rewrite elem_of_dom, list_elem_of_fmap. split.
  - intros [[a' e] [-> Hin]]. apply elem_of_map_to_list in Hin. by exists e.
  - intros [e He]. exists (a, e). split; [done|]. by apply elem_of_map_to_list.
Qed.

Lemma retry_all_run w :
  quiet w → retry_all w = Ok () (retry_all_effect w).
Proof.
  intros Hq. unfold retry_all, retry_all_effect.
  apply region_run.
  - by apply quiet_free.
  - unfold bind at 1, get_job. unfold bind at 1.
    change ((map_to_list (_exceptions (job (acquired _elock w)))).*1)
      with (failed_inputs w).
    rewrite drain_run.
    + apply add_many_run_free; rewrite drain_locks;
        by apply (quiet_free2 _ _elock).
    + apply failed_inputs_NoDup.
    + intros a Ha. by apply elem_of_failed_inputs in Ha.
  - unfold add_many_effect. rewrite started_locks.
    cbn [with_locks locks]. by rewrite drain_locks.
Qed.

Lemma set_n_threads_run n w :
  quiet w → set_n_threads n w = Ok () (started (on_job (with_n_threads n) w)).
Proof.
  intros Hq. unfold set_n_threads, bind, update_job.
  apply _start_started. by apply (quiet_free _ w).
Qed.

Lemma pause_run w :
  pause w = Ok () (if paused w then w else acquired _block w).
Proof.
  unfold pause, bind, acquire, paused.
  by destruct (bool_decide (_block ∈ locks w)).
Qed.

Lemma resume_run w :
  resume w =
  if paused w
  then Ok () (with_locks (filter (λ x, x ≠ _block) (locks w)) w)
  else Raise RuntimeError w.
Proof. done. Qed.

(** A client call on a quiet world always completes. *)
Lemma step_call c w :
  quiet w → step (Call c) w = Some (client_effect c w).
Proof.
  intros Hq. cbn [step]. unfold run_client.
  destruct c; cbn [client client_effect].
  - by rewrite add_run.
  - by rewrite add_many_run.
  - by rewrite retry_run.
  - by rewrite retry_many_run.
  - by rewrite retry_all_run.
  - by rewrite set_n_threads_run.
  - done.
  - unfold kill. by rewrite set_n_threads_run.
  - rewrite pause_run. done.
  - rewrite resume_run. by destruct (paused w).
Qed.

Lemma client_effect_quiet c w : quiet w → quiet (client_effect c w).
Proof.
  intros Hq. destruct c; cbn [client_effect]; try by eapply quiet_same.
  - eapply quiet_same; [|done]. apply retry_many_effect_locks.
  - destruct (paused w); [done|]. unfold quiet, acquired in *.
    cbn [locks with_lock_log with_locks].
    by rewrite filter_cons_False by (intros Hne; by apply Hne).
  - destruct (paused w); [|done]. unfold quiet in *.
    cbn [locks with_locks].
    rewrite list_filter_filter.
    rewrite <- Hq. apply list_filter_iff. tauto.
Qed.

Lemma step_run (lb : label) w :
  quiet w →
  step lb w =
  match lb with
  | Call c => Some (client_effect c w)
  | Enter h =>
      match spawned w !! h with
      | Some (mkThread tid WStart) => settle h (enter_outcome w)
      | _ => None
      end
  | Dequeue h =>
      match spawned w !! h with
      | Some (mkThread tid WGate) => settle h (dequeue_outcome tid w)
      | _ => None
      end
  | Finish h r =>
      match spawned w !! h with
      | Some (mkThread tid (WProcessing arg attempt)) =>
          settle h (finish_outcome tid arg attempt r w)
      | _ => None
      end
  end.
Proof.
  intros Hq. destruct lb as [c|h|h|h r]; [by apply step_call|..]; cbn [step];
    destruct (spawned w !! h) as [[tid []]|]; try done; unfold run_segment.
  - rewrite worker_enter_run by by apply quiet_free. done.
  - by rewrite worker_dequeue_run.
  - by rewrite worker_finish_run.
Qed.

(** ** Every step is a sequence of moves *)

Lemma run_one P k v v' : P k → move k v v' → run P v v'.
Proof. intros. eapply run_more; [apply run_refl|done..]. Qed.

Lemma run_trans P v v' v'' : run P v v' → run P v' v'' → run P v v''.
Proof.
  intros H1 H2. induction H2 as [|? ? ? ? ? IH ? ?]; [done|].
  eapply run_more; [by apply IH|done..].
Qed.

Lemma run_weaken (P Q : kind → Prop) v v' :
  (∀ k, P k → Q k) → run P v v' → run Q v v'.
Proof.
  intros HPQ Hr. induction Hr; [apply run_refl|].
  eapply run_more; [done|by apply HPQ|done].
Qed.

Lemma run_invariant (P : kind → Prop) (I : View → Prop) v v' :
  (∀ k u u', P k → move k u u' → I u → I u') →
  run P v v' → I v → I v'.
Proof.
  intros Hstep Hr. induction Hr; [done|]. intros Hv.
  eapply Hstep; [done..|]. auto.
Qed.

Lemma view_spawn_n P n w :
  P KSpawn → run P (view w) (view (spawn_n n w)).
Proof.
  intros HP. revert w. induction n as [|n IH]; intros w; [apply run_refl|].
  cbn [spawn_n]. eapply run_trans; [|apply IH].
  apply (run_one _ KSpawn); [done|].
  replace (view (spawn_one w))
    with (v_pcs_to (v_pcs (view w) ++ [WStart]) (view w)); [constructor|].
  unfold view, spawn_one, v_pcs_to. cbn. by rewrite fmap_app.
Qed.

Lemma view_with_locks (ls : list lock_id) w :
  view (with_locks ls w) = view w.
Proof. done. Qed.

Lemma view_acquired l w : view (acquired l w) = view w.
Proof. done. Qed.

Lemma view_started P w : P KSpawn → run P (view w) (view (started w)).
Proof.
  intros HP. unfold started. rewrite view_with_locks.
  rewrite <- (view_acquired _tlock w) at 1.
  by apply view_spawn_n.
Qed.

Lemma view_submit P (force : bool) arg w :
  (if force then P (KForce arg) else P (KSubmit arg)) →
  run P (view w) (view (submit force arg w)).
Proof.
  intros HP. unfold submit, accepts.
  destruct force.
  - rewrite orb_true_r. apply (run_one _ (KForce arg)); [done|].
    apply (move_force arg (view w)).
  - rewrite orb_false_r. case_bool_decide as Hin; [|apply run_refl].
    apply (run_one _ (KSubmit arg)); [done|].
    by apply (move_submit arg (view w)).
Qed.

Lemma view_submit_all P (force : bool) (args : list Input) w :
  (∀ arg, arg ∈ args → if force then P (KForce arg) else P (KSubmit arg)) →
  run P (view w) (view (submit_all force args w)).
Proof.
  revert w. induction args as [|a args IH]; intros w HP; [apply run_refl|].
  cbn [submit_all]. eapply run_trans.
  - apply view_submit, HP, list_elem_of_here.
  - apply IH. intros b Hb. by apply HP, list_elem_of_further.
Qed.

Lemma view_add P arg (force : bool) w :
  P KSpawn → (if force then P (KForce arg) else P (KSubmit arg)) →
  run P (view w) (view (add_effect arg force w)).
Proof.
  intros HS HP. unfold add_effect. rewrite view_with_locks.
  pose proof (view_submit P force arg (acquired _ilock w) HP) as Hsub.
  unfold submit in Hsub. rewrite view_acquired in Hsub.
  change (accepts force arg (acquired _ilock w))
    with (accepts force arg w) in Hsub.
  destruct (accepts force arg w).
  - apply (run_trans P _ (view (enqueue arg (acquired _ilock w))));
      [exact Hsub|].
    exact (view_started P (enqueue arg (acquired _ilock w)) HS).
  - rewrite view_acquired. apply run_refl.
Qed.

Lemma view_add_many P (args : list Input) (force : bool) w :
  P KSpawn →
  (∀ arg, arg ∈ args → if force then P (KForce arg) else P (KSubmit arg)) →
  run P (view w) (view (add_many_effect args force w)).
Proof.
  intros HS HP. unfold add_many_effect.
  set (w1 := with_locks (locks w) (submit_all force args (acquired _ilock w))).
  apply (run_trans P _ (view w1)); [|exact (view_started P w1 HS)].
  unfold w1. rewrite view_with_locks.
  rewrite <- (view_acquired _ilock w) at 1.
  by apply view_submit_all.
Qed.

Lemma view_retry P arg w :
  P KSpawn →
  (if bool_decide (arg ∈ dom (_exceptions (job w)))
   then P (KRetry arg) else P (KForce arg)) →
  run P (view w) (view (retry_effect arg w)).
Proof.
  intros HS HP. unfold retry_effect, add_effect, accepts.
  rewrite orb_true_r, view_with_locks.
  set (w1 := enqueue arg (acquired _ilock (retry_clear arg w))).
  apply (run_trans P _ (view w1)); [|exact (view_started P w1 HS)].
  unfold w1, retry_clear. case_bool_decide as Hin.
  - apply (run_one _ (KRetry arg)); [done|].
    by apply (move_retry arg (view w)).
  - apply (run_one _ (KForce arg)); [done|].
    apply (move_force arg (view w)).
Qed.

Lemma view_of_submit_all (force : bool) (args : list Input) w :
  view (submit_all force args w) = v_submit_all force args (view w).
Proof.
  revert w. induction args as [|a args IH]; intros w; [done|].
  cbn [submit_all v_submit_all]. rewrite IH. f_equal.
  unfold submit, v_submit, accepts. cbn [view v_inputs].
  by destruct (bool_decide (a ∉ _inputs (job w)) || force).
Qed.

Lemma view_of_drain (args : list Input) w :
  view (drain args w) = v_drain args (view w).
Proof.
  revert w. induction args as [|a args IH]; intros w; [done|].
  cbn [drain v_drain]. by rewrite IH.
Qed.

Lemma v_drain_enqueue (args : list Input) arg v :
  v_drain args (v_enqueue arg v) = v_enqueue arg (v_drain args v).
Proof.
  revert v. induction args as [|a args IH]; intros v; [done|].
  cbn [v_drain]. by rewrite <- IH.
Qed.

Lemma v_drain_exceptions (args : list Input) v a :
  a ∉ args →
  v_exceptions (v_drain args v) !! a = v_exceptions v !! a.
Proof.
  revert v. induction args as [|b args IH]; intros v Ha; [done|].
  apply not_elem_of_cons in Ha as [Hab Ha].
  cbn [v_drain]. rewrite IH by done. cbn. by rewrite lookup_delete_ne.
Qed.

(** Clearing every failed input and then resubmitting them all is the same
    as retrying them one after the other. *)
Lemma v_retry_all_run P (args : list Input) v :
  NoDup args →
  (∀ a, a ∈ args → a ∈ dom (v_exceptions v)) →
  (∀ a, a ∈ args → P (KRetry a)) →
  run P v (v_submit_all true args (v_drain args v)).
Proof.
  revert v. induction args as [|a args IH]; intros v Hnd Hin HP;
    [apply run_refl|].
  apply NoDup_cons in Hnd as [Ha Hnd].
  cbn [v_drain v_submit_all].
  replace (v_submit true a (v_drain args (v_clear a v)))
    with (v_drain args (v_enqueue a (v_clear a v))).
  2:{ rewrite v_drain_enqueue. unfold v_submit. by rewrite orb_true_r. }
  eapply run_trans.
  - apply (run_one _ (KRetry a)); [apply HP, list_elem_of_here|].
    apply move_retry, Hin, list_elem_of_here.
  - apply IH; [done| |].
    + intros b Hb. cbn. rewrite dom_delete_L.
      apply elem_of_difference. split; [by apply Hin, list_elem_of_further|].
      intros ->%elem_of_singleton. done.
    + intros b Hb. by apply HP, list_elem_of_further.
Qed.

Lemma view_retry_all P w :
  P KSpawn → (∀ a, a ∈ dom (_exceptions (job w)) → P (KRetry a)) →
  run P (view w) (view (retry_all_effect w)).
Proof.
  intros HS HP. unfold retry_all_effect, region, add_many_effect.
  rewrite view_with_locks.
  set (w1 := drain (failed_inputs w) (acquired _elock w)).
  set (w2 := with_locks (locks w1)
               (submit_all true (failed_inputs w) (acquired _ilock w1))).
  apply (run_trans P _ (view w2)); [|exact (view_started P w2 HS)].
  unfold w2. rewrite view_with_locks, view_of_submit_all, view_acquired.
  unfold w1. rewrite view_of_drain, view_acquired.
  apply v_retry_all_run.
  - apply failed_inputs_NoDup.
  - intros a Ha. by apply elem_of_failed_inputs in Ha.
  - intros a Ha. by apply HP, elem_of_failed_inputs.
Qed.

Lemma spawn_n_exceptions n w :
  _exceptions (job (spawn_n n w)) = _exceptions (job w).
Proof.
  revert w. induction n as [|n IH]; intros w; [done|].
  cbn [spawn_n]. by rewrite IH.
Qed.

Lemma job_with_locks (ls : list lock_id) w : job (with_locks ls w) = job w.
Proof. done. Qed.

Lemma job_acquired l w : job (acquired l w) = job w.
Proof. done. Qed.

Lemma started_exceptions w :
  _exceptions (job (started w)) = _exceptions (job w).
Proof.
  unfold started. by rewrite job_with_locks, spawn_n_exceptions, job_acquired.
Qed.

Lemma enqueue_exceptions arg w :
  _exceptions (job (enqueue arg w)) = _exceptions (job w).
Proof. done. Qed.

Lemma retry_effect_exceptions arg w :
  _exceptions (job (retry_effect arg w)) = delete arg (_exceptions (job w)).
Proof.
  unfold retry_effect, add_effect, accepts.
  rewrite orb_true_r, job_with_locks, started_exceptions, enqueue_exceptions.
  rewrite job_acquired. unfold retry_clear. rewrite job_with_locks.
  case_bool_decide as Hin; [done|].
  rewrite job_acquired. symmetry. apply delete_id. by apply not_elem_of_dom.
Qed.

Lemma view_retry_many_any P (args : list Input) w :
  P KSpawn →
  (∀ a, a ∈ args → P (KRetry a) ∧ P (KForce a)) →
  run P (view w) (view (retry_many_effect args w)).
Proof.
  intros HS. revert w. induction args as [|a args IH]; intros w HP;
    [apply run_refl|].
  cbn [retry_many_effect]. eapply run_trans.
  - apply view_retry; [done|].
    destruct (HP a (list_elem_of_here _ _)). by case_bool_decide.
  - apply IH. intros b Hb. by apply HP, list_elem_of_further.
Qed.

Lemma view_retry_many_failed P (args : list Input) w :
  P KSpawn →
  NoDup args →
  (∀ a, a ∈ args → a ∈ dom (_exceptions (job w))) →
  (∀ a, a ∈ args → P (KRetry a)) →
  run P (view w) (view (retry_many_effect args w)).
Proof.
  intros HS. revert w. induction args as [|a args IH]; intros w Hnd Hin HP;
    [apply run_refl|].
  apply NoDup_cons in Hnd as [Ha Hnd].
  cbn [retry_many_effect]. eapply run_trans.
  - apply view_retry; [done|].
    rewrite bool_decide_eq_true_2 by apply Hin, list_elem_of_here.
    apply HP, list_elem_of_here.
  - apply IH; [done| |].
    + intros b Hb. rewrite retry_effect_exceptions, dom_delete_L.
      apply elem_of_difference. split; [by apply Hin, list_elem_of_further|].
      intros ->%elem_of_singleton. done.
    + intros b Hb. by apply HP, list_elem_of_further.
Qed.

Lemma fmap_alter_pc h pc (ts : list Thread) :
  t_pc <$> alter (λ t, mkThread (t_tid t) pc) h ts = <[h := pc]> (t_pc <$> ts).
Proof.
  revert h. induction ts as [|t ts IH]; intros [|h]; try done.
  cbn. f_equal. apply IH.
Qed.

Lemma view_set_pc h pc w1 w :
  spawned w1 = spawned w →
  view (set_pc h pc w1) = v_pcs_to (<[h := pc]> (v_pcs (view w))) (view w1).
Proof.
  intros Hsp. unfold view, set_pc, v_pcs_to. cbn.
  by rewrite fmap_alter_pc, Hsp.
Qed.

Lemma view_pc h tid pc w :
  spawned w !! h = Some (mkThread tid pc) → v_pcs (view w) !! h = Some pc.
Proof. intros Hh. cbn. by rewrite list_lookup_fmap, Hh. Qed.

Lemma view_leave P h tid pc w w' :
  spawned w !! h = Some (mkThread tid pc) → idle pc = true →
  P (KIdle h) →
  settle h (leave tid w) = Some w' → run P (view w) (view w').
Proof.
  intros Hh Hidle HP. unfold leave.
  case_bool_decide; intros [= <-]; apply (run_one _ (KIdle h)); try done.
  - rewrite (view_set_pc _ _ _ w) by done.
    by apply (move_idle h pc WExited (view w)); [eapply view_pc|..].
  - rewrite (view_set_pc _ _ _ w) by done.
    by apply (move_idle h pc (WDied KeyError) (view w)); [eapply view_pc|..].
Qed.

Lemma view_enter P h tid w w' :
  spawned w !! h = Some (mkThread tid WStart) →
  P (KIdle h) →
  settle h (enter_outcome w) = Some w' → run P (view w) (view w').
Proof.
  intros Hh HP [= <-]. apply (run_one _ (KIdle h)); [done|].
  rewrite (view_set_pc _ _ _ w) by done.
  by apply (move_idle h WStart WGate (view w)); [eapply view_pc|..].
Qed.

Lemma view_dequeue P h tid w w' :
  spawned w !! h = Some (mkThread tid WGate) →
  P (KIdle h) → (∀ a n, P (KTake h a n)) →
  settle h (dequeue_outcome tid w) = Some w' → run P (view w) (view w').
Proof.
  intros Hh HI HT. unfold dequeue_outcome.
  case_bool_decide; [done|]. cbn zeta.
  destruct (over_target (through_gate w)).
  { intros Hs. by apply (view_leave P h tid WGate (through_gate w)). }
  destruct (_queue (job (region _tlock (λ w, w) (through_gate w))))
    as [|[a n] q] eqn:Hq.
  { intros Hs.
    by apply (view_leave P h tid WGate
                (region _tlock (λ w, w) (through_gate w))). }
  intros [= <-]. apply (run_one _ (KTake h a n)); [done|].
  rewrite (view_set_pc _ _ _ w) by done.
  by apply (move_take h a n q WGate (view w)); [eapply view_pc|..].
Qed.

Lemma move_done_eq h arg (attempt : Z) r pc' v v1 :
  v_pcs v !! h = Some (WProcessing arg attempt) → idle pc' = true →
  v1 = v_finish arg attempt r v →
  move (KDone h arg attempt r) v (v_pcs_to (<[h := pc']> (v_pcs v)) v1).
Proof. intros ? ? ->. by constructor. Qed.

Lemma view_finish P h tid arg (attempt : Z) r w w' :
  spawned w !! h = Some (mkThread tid (WProcessing arg attempt)) →
  P (KDone h arg attempt r) →
  settle h (finish_outcome tid arg attempt r w) = Some w' →
  run P (view w) (view w').
Proof.
  intros Hh HP Hs. apply (run_one _ (KDone h arg attempt r)); [done|].
  assert (Hpc : v_pcs (view w) !! h = Some (WProcessing arg attempt))
    by by eapply view_pc.
  unfold finish_outcome in Hs. cbn zeta in Hs.
  destruct r as [x|e].
  - injection Hs as <-. rewrite (view_set_pc _ _ _ w) by done.
    by apply move_done_eq.
  - destruct (isinstance_Empty e) eqn:HE.
    { unfold leave in Hs.
      case_bool_decide; injection Hs as <-;
        rewrite (view_set_pc _ _ _ w) by done;
        (apply move_done_eq; [done..|]);
        unfold v_finish; rewrite HE; reflexivity. }
    destruct (isinstance_Exception e) eqn:HX.
    + cbn [job with_history] in Hs.
      destruct (attempt <? _n_attempts (job w))%Z eqn:Hlt;
        injection Hs as <-; rewrite (view_set_pc _ _ _ w) by done;
        (apply move_done_eq; [done..|]);
        unfold v_finish; cbn [view v_n_attempts]; rewrite HE, HX, Hlt;
        reflexivity.
    + injection Hs as <-. rewrite (view_set_pc _ _ _ w) by done.
      apply move_done_eq; [done..|].
      unfold v_finish. rewrite HE, HX. reflexivity.
Qed.

Lemma settle_locks h (o : outcome wstate) w w' :
  settle h o = Some w' →
  match o with
  | Ok _ w1 | Raise _ w1 | Blocked _ w1 => locks w1 = locks w
  end →
  locks w' = locks w.
Proof. destruct o; cbn; intros [= <-]; done. Qed.

Lemma leave_locks tid w :
  match leave tid w with
  | Ok _ w1 | Raise _ w1 | Blocked _ w1 => locks w1 = locks w
  end.
Proof. unfold leave. by case_bool_decide. Qed.

Lemma dequeue_locks tid w :
  match dequeue_outcome tid w with
  | Ok _ w1 | Raise _ w1 | Blocked _ w1 => locks w1 = locks w
  end.
Proof.
  unfold dequeue_outcome. case_bool_decide; [done|]. cbn zeta.
  destruct (over_target _); [apply (leave_locks tid (through_gate w))|].
  destruct (_queue _) as [|[a n] q]; [|done].
  apply (leave_locks tid (region _tlock (λ w, w) (through_gate w))).
Qed.

Lemma finish_locks tid arg (attempt : Z) r w :
  match finish_outcome tid arg attempt r w with
  | Ok _ w1 | Raise _ w1 | Blocked _ w1 => locks w1 = locks w
  end.
Proof.
  unfold finish_outcome. cbn zeta. destruct r as [x|e]; [done|].
  destruct (isinstance_Empty e); [apply (leave_locks tid (with_history _ w))|].
  destruct (isinstance_Exception e); [|done].
  by destruct (_ <? _)%Z.
Qed.

(** Steps keep the world quiet. *)
Lemma step_quiet lb w w' : quiet w → step lb w = Some w' → quiet w'.
Proof.
  intros Hq. rewrite step_run by done.
  destruct lb as [c|h|h|h r].
  - intros [= <-]. by apply client_effect_quiet.
  - destruct (spawned w !! h) as [[tid []]|]; try done.
    intros Hs. eapply quiet_same; [|done].
    by eapply settle_locks.
  - destruct (spawned w !! h) as [[tid []]|]; try done.
    intros Hs. eapply quiet_same; [|done].
    eapply settle_locks; [done|]. apply dequeue_locks.
  - destruct (spawned w !! h) as [[tid []]|]; try done.
    intros Hs. eapply quiet_same; [|done].
    eapply settle_locks; [done|]. apply finish_locks.
Qed.

(** Every step is a sequence of moves of the kinds of its label. *)
Lemma step_refines lb w w' :
  quiet w → step lb w = Some w' →
  run (label_kinds lb (view w)) (view w) (view w').
Proof.
  intros Hq. rewrite step_run by done.
  destruct lb as [c|h|h|h r].
  - intros [= <-]. destruct c; cbn [client_effect label_kinds].
    + apply view_add; [by left|]. by destruct force; right.
    + apply view_add_many; [by left|].
      intros a Ha. destruct force; right; by exists a.
    + apply view_retry; [by left|].
      case_bool_decide as Hin; cbn [label_kinds view v_exceptions]; right.
      * by rewrite bool_decide_eq_true_2.
      * by rewrite bool_decide_eq_false_2.
    + destruct (decide (NoDup args ∧
          Forall (λ a, a ∈ dom (v_exceptions (view w))) args)) as [[Hnd Hall]|Hno].
      * apply view_retry_many_failed; [by left|done| |].
        -- intros a Ha. by eapply Forall_forall in Hall.
        -- intros a Ha. right. exists a. split; [done|]. by left.
      * apply view_retry_many_any; [by left|].
        intros a Ha. split; right; exists a; (split; [done|]);
          [by left|by right].
    + apply view_retry_all; [by left|]. intros a Ha. right. by exists a.
    + exact (view_started _ (on_job (with_n_threads n) w) eq_refl).
    + apply (run_one _ (KConfig n)); [done|]. apply (move_config n (view w)).
    + exact (view_started _ (on_job (with_n_threads 0) w) eq_refl).
    + destruct (paused w); apply run_refl.
    + destruct (paused w); apply run_refl.
  - destruct (spawned w !! h) as [[tid []]|] eqn:Hh; try done.
    by apply (view_enter _ h tid).
  - destruct (spawned w !! h) as [[tid []]|] eqn:Hh; try done.
    apply (view_dequeue _ h tid); cbn [label_kinds]; [done|by left|].
    intros a n. right. by exists a, n.
  - destruct (spawned w !! h) as [[tid []]|] eqn:Hh; try done.
    apply (view_finish _ h tid); [done|].
    cbn [label_kinds]. exists arg, attempt. split; [|done].
    by eapply view_pc.
Qed.

(** A schedule is a sequence of moves of the kinds its labels allow. *)
Lemma exec_if_run (ok : World → label → bool) P (ls : list label) w0 w :
  (∀ w lb k, quiet w → ok w lb = true → label_kinds lb (view w) k → P k) →
  quiet w0 →
  exec_if ok ls w0 = Some w →
  run P (view w0) (view w) ∧ quiet w.
Proof.
  intros HP. revert w0. induction ls as [|lb ls IH]; intros w0 Hq Hex.
  - injection Hex as <-. split; [apply run_refl|done].
  - cbn [exec_if] in Hex. destruct (ok w0 lb) eqn:Hok; [|done].
    destruct (step lb w0) as [w1|] eqn:Hstep; [|done].
    destruct (IH w1) as [Hrun Hq']; [exact (step_quiet _ _ _ Hq Hstep)|done|].
    split; [|done]. eapply run_trans; [|done].
    eapply run_weaken; [|by apply step_refines].
    intros k Hk. exact (HP w0 lb k Hq Hok Hk).
Qed.

Lemma exec_exec_if (ls : list label) w : exec ls w = exec_if (λ _ _, true) ls w.
Proof.
  revert w. induction ls as [|lb ls IH]; intros w; [done|].
  cbn. destruct (step lb w); [apply IH|done].
Qed.

(** ** Counting *)

Lemma count_app {A} (p : A → bool) (xs ys : list A) :
  count p (xs ++ ys) = count p xs + count p ys.
Proof. induction xs as [|x xs IH]; [done|]. cbn. rewrite IH. lia. Qed.

Lemma count_insert {A} (p : A → bool) (xs : list A) h x y :
  xs !! h = Some x →
  count p (<[h := y]> xs) + (if p x then 1 else 0) =
  count p xs + (if p y then 1 else 0).
Proof.
  revert h. induction xs as [|z xs IH]; intros [|h] Hh; try done.
  - cbn in Hh. injection Hh as ->. cbn. destruct (p x), (p y); lia.
  - cbn in Hh. specialize (IH h Hh). simpl.
    destruct (p z); lia.
Qed.

Lemma queued_app arg (q q' : list (Input * Z)) :
  queued arg (q ++ q') = queued arg q + queued arg q'.
Proof. apply count_app. Qed.

Lemma queued_one arg b (n : Z) :
  queued arg [(b, n)] = if bool_decide (b = arg) then 1 else 0.
Proof. unfold queued. cbn. lia. Qed.

Lemma queued_cons arg b (n : Z) (q : list (Input * Z)) :
  queued arg ((b, n) :: q) =
  (if bool_decide (b = arg) then 1 else 0) + queued arg q.
Proof. done. Qed.

Lemma in_flight_snoc arg (pcs : list wstate) pc :
  in_flight arg (pcs ++ [pc]) =
  in_flight arg pcs + (if busy arg pc then 1 else 0).
Proof. unfold in_flight. rewrite count_app. cbn. lia. Qed.

Lemma in_flight_insert arg (pcs : list wstate) h pc pc' :
  pcs !! h = Some pc →
  in_flight arg (<[h := pc']> pcs) + (if busy arg pc then 1 else 0) =
  in_flight arg pcs + (if busy arg pc' then 1 else 0).
Proof. apply count_insert. Qed.

Lemma idle_not_busy arg pc : idle pc = true → busy arg pc = false.
Proof. by destruct pc. Qed.

Lemma kept_insert {V} arg b (x : V) (m : gmap Input V) :
  kept arg (<[b := x]> m) = if bool_decide (b = arg) then 1 else kept arg m.
Proof.
  unfold kept. rewrite dom_insert_L.
  destruct (decide (b = arg)) as [->|Hne].
  - rewrite !bool_decide_eq_true_2; [done..|set_solver].
  - rewrite (bool_decide_eq_false_2 (b = arg)) by done.
    erewrite bool_decide_ext; [done|set_solver].
Qed.

Lemma kept_delete {V} arg b (m : gmap Input V) :
  kept arg (delete b m) = if bool_decide (b = arg) then 0 else kept arg m.
Proof.
  unfold kept. rewrite dom_delete_L.
  destruct (decide (b = arg)) as [->|Hne].
  - rewrite (bool_decide_eq_true_2 (arg = arg)) by done.
    rewrite bool_decide_eq_false_2; [done|set_solver].
  - rewrite (bool_decide_eq_false_2 (b = arg)) by done.
    erewrite bool_decide_ext; [done|set_solver].
Qed.

Lemma kept_elem {V} arg (m : gmap Input V) : arg ∈ dom m → kept arg m = 1.
Proof. intros. unfold kept. by rewrite bool_decide_eq_true_2. Qed.

Lemma kept_0 {V} arg (m : gmap Input V) : kept arg m = 0 → arg ∉ dom m.
Proof. unfold kept. by case_bool_decide. Qed.

Lemma in_flight_idle arg (pcs : list wstate) h pc pc' :
  pcs !! h = Some pc → idle pc = true → idle pc' = true →
  in_flight arg (<[h := pc']> pcs) = in_flight arg pcs.
Proof.
  intros Hh Hi Hi'. pose proof (in_flight_insert arg pcs h pc pc' Hh) as Hc.
  rewrite !idle_not_busy in Hc by done. lia.
Qed.

(** ** Gentle moves keep the view tidy *)

Ltac vsimpl :=
  cbn [v_queue v_inputs v_results v_exceptions v_n_attempts v_pcs v_history
       v_enqueue v_clear v_config v_pcs_to v_take] in *.

Lemma move_tidy_at k v v' b :
  (∀ a, k = KForce a → a ≠ b) → move k v v' → tidy_at b v → tidy_at b v'.
Proof.
  intros Hk Hm Ht. unfold tidy_at in *.
  destruct Hm as [a v Hnew|a v|a v Hfailed| | |h pc pc' v Hh Hpc Hpc'
                  |h a n q pc v Hh Hpc Hq|h a n r pc' v Hh Hpc']; vsimpl.
  - (* submit *)
    rewrite queued_app, queued_one.
    repeat case_bool_decide; try lia; set_solver.
  - (* force, of another input *)
    specialize (Hk a eq_refl).
    rewrite queued_app, queued_one.
    repeat case_bool_decide; try lia; set_solver.
  - (* retry *)
    rewrite queued_app, queued_one, kept_delete.
    pose proof (kept_elem a _ Hfailed).
    repeat case_bool_decide; subst; try lia; set_solver.
  - done.
  - rewrite in_flight_snoc. cbn [busy]. lia.
  - by rewrite (in_flight_idle b _ h pc pc').
  - (* take *)
    pose proof (in_flight_insert b _ h pc (WProcessing a n) Hh) as Hc.
    rewrite (idle_not_busy _ _ Hpc) in Hc. rewrite Hq, queued_cons in Ht.
    cbn [busy] in Hc. lia.
  - (* done *)
    pose proof (in_flight_insert b _ h _ pc' Hh) as Hc.
    rewrite (idle_not_busy _ _ Hpc') in Hc. cbn [busy] in Hc.
    unfold v_finish. destruct r as [x|e]; vsimpl.
    + rewrite kept_insert. repeat case_bool_decide; subst; lia.
    + destruct (isinstance_Empty e || negb (isinstance_Exception e)); vsimpl.
      { lia. }
      destruct (n <? v_n_attempts v)%Z; vsimpl.
      * rewrite queued_app, queued_one. repeat case_bool_decide; subst; lia.
      * rewrite kept_insert. repeat case_bool_decide; subst; lia.
Qed.

Lemma move_tidy k v v' : gentle_kind k → move k v v' → tidy v → tidy v'.
Proof.
  intros Hk Hm Ht b. eapply move_tidy_at; [|done..].
  intros a ->. done.
Qed.

Lemma gentle_kinds w lb k :
  gentle w lb = true → label_kinds lb (view w) k → gentle_kind k.
Proof.
  intros Hg Hk.
  destruct lb as [[a f|args f|a|args| |n|n| | |]|h|h|h r];
    cbn [gentle label_kinds view v_exceptions] in Hg, Hk.
  - apply negb_true_iff in Hg as ->. by destruct Hk as [->| ->].
  - apply negb_true_iff in Hg as ->. by destruct Hk as [->|[a [_ ->]]].
  - rewrite Hg in Hk. by destruct Hk as [->| ->].
  - apply bool_decide_eq_true_1 in Hg.
    by destruct Hk as [->|[a [_ [->|[Hno _]]]]].
  - by destruct Hk as [->|[a [_ ->]]].
  - by subst.
  - by subst.
  - by subst.
  - done.
  - done.
  - by subst.
  - by destruct Hk as [->|[a [n ->]]].
  - by destruct Hk as [a [n [_ ->]]].
Qed.

Lemma tidy_init (rnd : nat → nat) (nt na : Z) :
  tidy (view (World_init rnd nt na : World)).
Proof.
  intros a. unfold tidy_at. cbn. unfold kept. rewrite !dom_empty_L.
  rewrite !bool_decide_eq_false_2 by set_solver. cbn. lia.
Qed.

Lemma quiet_init (rnd : nat → nat) (nt na : Z) :
  quiet (World_init rnd nt na : World).
Proof. done. Qed.

(** Gentle schedules keep the world tidy. *)
Lemma gentle_tidy (ls : list label) w0 w :
  quiet w0 → tidy (view w0) → exec_if gentle ls w0 = Some w →
  tidy (view w) ∧ quiet w.
Proof.
  intros Hq Ht Hex.
  destruct (exec_if_run gentle gentle_kind ls w0 w) as [Hrun Hq']; try done.
  { intros w1 lb k _. apply gentle_kinds. }
  split; [|done].
  eapply (run_invariant gentle_kind tidy); [|done..].
  intros k u u'. apply move_tidy.
Qed.

(** ** The stores *)

Lemma spawn_n_job n w :
  job (spawn_n n w) = with_threads (_threads (job (spawn_n n w))) (job w).
Proof.
  revert w. induction n as [|n IH]; intros w.
  - by destruct w as [[] ? ? ? ? ? ? ?].
  - cbn [spawn_n]. rewrite IH. by destruct w as [[] ? ? ? ? ? ? ?].
Qed.

Lemma started_job w :
  job (started w) = with_threads (_threads (job (started w))) (job w).
Proof.
  unfold started. rewrite !job_with_locks.
  rewrite spawn_n_job at 1. by rewrite job_acquired.
Qed.

(** C1 (as amended).  In every schedule that resubmits no input that may
    still be somewhere (no forced [add] or [add_many], [retry] only of
    inputs whose exception is recorded, any [retry_all]), each input is in
    exactly one of three states: in neither store, in the results only, or
    in the exceptions only. *)
Theorem stores_exclusive (rnd : nat → nat) (nt na : Z) (ls : list label)
    w arg :
  exec_if gentle ls (World_init rnd nt na) = Some w →
  ((arg ∉ dom (_results (job w))) ∧ (arg ∉ dom (_exceptions (job w)))) ∨
  (arg ∈ dom (_results (job w)) ∧ (arg ∉ dom (_exceptions (job w)))) ∨
  ((arg ∉ dom (_results (job w))) ∧ arg ∈ dom (_exceptions (job w))).
Proof.
  intros Hex.
  destruct (gentle_tidy ls _ w (quiet_init rnd nt na) (tidy_init rnd nt na) Hex)
    as [Ht _].
  specialize (Ht arg). unfold tidy_at, kept in Ht.
  cbn [view v_queue v_pcs v_results v_exceptions v_inputs] in Ht.
  repeat case_bool_decide; try lia; tauto.
Qed.

(** C7 (as amended).  In every such schedule, an input is processed by one
    worker at most at any time, and it is not in the queue while a worker
    processes it. *)
Theorem attempts_never_overlap (rnd : nat → nat) (nt na : Z)
    (ls : list label) w arg :
  exec_if gentle ls (World_init rnd nt na) = Some w →
  in_flight arg (t_pc <$> spawned w) + queued arg (_queue (job w)) ≤ 1.
Proof.
  intros Hex.
  destruct (gentle_tidy ls _ w (quiet_init rnd nt na) (tidy_init rnd nt na) Hex)
    as [Ht _].
  specialize (Ht arg). unfold tidy_at in Ht.
  cbn [view v_queue v_pcs v_results v_exceptions v_inputs] in Ht.
  case_bool_decide; lia.
Qed.

(** C3 (the case the code misses).  [resume] on a job that is not paused
    raises [RuntimeError]: the gate is released although it is not locked. *)
Theorem resume_not_paused_raises w :
  paused w = false → resume w = Raise RuntimeError w.
Proof. intros Hp. by rewrite resume_run, Hp. Qed.

(** [pause] on a paused job does nothing and does not wait. *)
Lemma pause_paused w : paused w = true → pause w = Ok () w.
Proof. intros Hp. by rewrite pause_run, Hp. Qed.

(** C9.  [retry] of an input without a recorded exception, submitted
    before or not, does not raise: the exceptions are unchanged, the item
    [(arg, 1)] is put at the end of the queue and [arg] is in the input
    set. *)
Theorem retry_without_exception w arg :
  quiet w →
  _exceptions (job w) !! arg = None →
  ∃ w', retry arg w = Ok () w' ∧
        _exceptions (job w') = _exceptions (job w) ∧
        _results (job w') = _results (job w) ∧
        _queue (job w') = _queue (job w) ++ [(arg, 1%Z)] ∧
        _inputs (job w') = {[arg]} ∪ _inputs (job w).
Proof.
  intros Hq Hnone. exists (retry_effect arg w).
  split; [by apply retry_run|].
  assert (Hjob : job (retry_clear arg w) = job w).
  { unfold retry_clear. rewrite job_with_locks.
    rewrite bool_decide_eq_false_2 by by apply not_elem_of_dom.
    apply job_acquired. }
  unfold retry_effect, add_effect, accepts.
  rewrite orb_true_r, job_with_locks, started_job.
  cbn [with_threads _exceptions _results _queue _inputs enqueue job
       with_queue with_inputs].
  by rewrite job_acquired, Hjob.
Qed.

(** ** The results hold the latest success *)

Lemma latest_success_snoc arg (hist : list event) ev :
  latest_success arg (hist ++ [ev]) =
  match ev with
  | EvDone a _ (Returned x) =>
      if bool_decide (a = arg) then Some x else latest_success arg hist
  | _ => latest_success arg hist
  end.
Proof. unfold latest_success. by rewrite foldl_app. Qed.

Lemma move_latest k v v' :
  move k v v' →
  (∀ a, v_results v !! a = latest_success a (v_history v)) →
  (∀ a, v_results v' !! a = latest_success a (v_history v')).
Proof.
  intros Hm Hinv b. specialize (Hinv b).
  destruct Hm as [a v Hnew|a v|a v Hfailed| | |h pc pc' v Hh Hpc Hpc'
                  |h a n q pc v Hh Hpc Hq|h a n r pc' v Hh Hpc']; vsimpl;
    rewrite ?latest_success_snoc; try done.
  unfold v_finish. destruct r as [x|e]; vsimpl.
  - rewrite latest_success_snoc, lookup_insert.
    case_decide; case_bool_decide; try done; congruence.
  - destruct (isinstance_Empty e || negb (isinstance_Exception e)); vsimpl.
    { by rewrite latest_success_snoc. }
    destruct (n <? v_n_attempts v)%Z; vsimpl;
      by rewrite !latest_success_snoc.
Qed.

Lemma exec_run (ls : list label) (rnd : nat → nat) (nt na : Z) w :
  exec ls (World_init rnd nt na) = Some w →
  run (λ _, True) (view (World_init rnd nt na : World)) (view w) ∧ quiet w.
Proof.
  rewrite exec_exec_if. apply exec_if_run; [done|apply quiet_init].
Qed.

Lemma add_forced_queue arg w :
  _queue (job (add_effect arg true w)) = _queue (job w) ++ [(arg, 1%Z)] ∧
  _results (job (add_effect arg true w)) = _results (job w).
Proof.
  unfold add_effect, accepts.
  rewrite orb_true_r, job_with_locks, started_job.
  cbn [with_threads _results _queue enqueue job with_queue with_inputs].
  by rewrite job_acquired.
Qed.

(** ** Submitting twice *)

Lemma count_snoc {A} (p : A → bool) (xs : list A) x :
  count p (xs ++ [x]) = count p xs + (if p x then 1 else 0).
Proof. rewrite count_app. simpl. lia. Qed.

Lemma move_attempts_positive k v v' :
  move k v v' → attempts_positive v → attempts_positive v'.
Proof.
  intros Hm [Hq Hpcs]. unfold attempts_positive.
  destruct Hm as [a v Hnew|a v|a v Hfailed| | |h pc pc' v Hh Hpc Hpc'
                  |h a n q pc v Hh Hpc Hq'|h a n r pc' v Hh Hpc']; vsimpl.
  - split; [|done]. apply Forall_app. split; [done|]. by repeat constructor.
  - split; [|done]. apply Forall_app. split; [done|]. by repeat constructor.
  - split; [|done]. apply Forall_app. split; [done|]. by repeat constructor.
  - done.
  - split; [done|]. apply Forall_app. split; [done|]. by repeat constructor.
  - split; [done|]. apply Forall_insert; [done|]. by destruct pc'.
  - rewrite Hq' in Hq. apply Forall_cons in Hq as [Hn Hq].
    split; [done|]. by apply Forall_insert.
  - assert (1 ≤ n)%Z as Hn
      by exact (proj1 (Forall_lookup _ _) Hpcs h _ Hh).
    assert (Hpcs' : Forall (λ pc, match pc with
                                  | WProcessing _ n => (1 ≤ n)%Z
                                  | _ => True
                                  end) (<[h := pc']> (v_pcs v))).
    { apply Forall_insert; [done|]. by destruct pc'. }
    unfold v_finish. destruct r as [x|e]; vsimpl; [done|].
    destruct (isinstance_Empty e || negb (isinstance_Exception e)); vsimpl;
      [done|].
    destruct (n <? v_n_attempts v)%Z; vsimpl; [|done].
    split; [|done]. apply Forall_app. split; [done|].
    repeat constructor. simpl. lia.
Qed.

Lemma move_inputs k v v' arg :
  move k v v' → arg ∈ v_inputs v → arg ∈ v_inputs v'.
Proof.
  intros Hm Hin.
  destruct Hm as [a v Hnew|a v|a v Hfailed| | |h pc pc' v Hh Hpc Hpc'
                  |h a n q pc v Hh Hpc Hq'|h a n r pc' v Hh Hpc']; vsimpl;
    try done; try set_solver.
  unfold v_finish. destruct r as [x|e]; vsimpl; [done|].
  destruct (isinstance_Empty e || negb (isinstance_Exception e)); vsimpl;
    [done|].
  by destruct (n <? v_n_attempts v)%Z.
Qed.

Lemma move_put_once k v v' :
  unforced_kind k → move k v v' →
  attempts_positive v → put_once v → put_once v'.
Proof.
  intros Hk Hm [_ Hpcs] Hinv b. specialize (Hinv b). unfold first_puts in *.
  destruct Hm as [a v Hnew|a v|a v Hfailed| | |h pc pc' v Hh Hpc Hpc'
                  |h a n q pc v Hh Hpc Hq'|h a n r pc' v Hh Hpc']; vsimpl;
    try done.
  - rewrite count_snoc, Hinv.
    rewrite (bool_decide_eq_true_2 (1%Z = 1%Z)), andb_true_r by done.
    destruct (decide (a = b)) as [->|Hne].
    + rewrite (bool_decide_eq_false_2 (b ∈ v_inputs v)) by done.
      rewrite !bool_decide_eq_true_2; [done|set_solver|done].
    + rewrite (bool_decide_eq_false_2 (a = b)) by done.
      rewrite (bool_decide_ext (b ∈ {[a]} ∪ v_inputs v) (b ∈ v_inputs v))
        by set_solver.
      lia.
  - by rewrite count_snoc, Nat.add_0_r.
  - assert (1 ≤ n)%Z as Hn
      by exact (proj1 (Forall_lookup _ _) Hpcs h _ Hh).
    unfold v_finish. destruct r as [x|e]; vsimpl.
    { by rewrite count_snoc, Nat.add_0_r. }
    destruct (isinstance_Empty e || negb (isinstance_Exception e)); vsimpl.
    { by rewrite count_snoc, Nat.add_0_r. }
    destruct (n <? v_n_attempts v)%Z; vsimpl.
    + rewrite !count_snoc, Nat.add_0_r.
      rewrite (bool_decide_eq_false_2 ((n + 1)%Z = 1%Z)) by lia.
      rewrite andb_false_r. lia.
    + by rewrite count_snoc, Nat.add_0_r.
Qed.

Lemma unforced_kinds w lb k :
  unforced w lb = true → label_kinds lb (view w) k → unforced_kind k.
Proof.
  intros Hg Hk.
  destruct lb as [[a f|args f|a|args| |n|n| | |]|h|h|h r];
    cbn [unforced label_kinds view v_exceptions] in Hg, Hk; try done.
  - apply negb_true_iff in Hg as ->. by destruct Hk as [->| ->].
  - apply negb_true_iff in Hg as ->. by destruct Hk as [->|[a [_ ->]]].
  - by subst.
  - by subst.
  - by subst.
  - by subst.
  - by destruct Hk as [->|[a [n ->]]].
  - by destruct Hk as [a [n [_ ->]]].
Qed.

Lemma unforced_run (ls : list label) w0 w :
  quiet w0 → attempts_positive (view w0) → put_once (view w0) →
  exec_if unforced ls w0 = Some w →
  quiet w ∧ attempts_positive (view w) ∧ put_once (view w) ∧
  (∀ arg, arg ∈ _inputs (job w0) → arg ∈ _inputs (job w)).
Proof.
  intros Hq Hpos Honce Hex.
  destruct (exec_if_run unforced unforced_kind ls w0 w) as [Hrun Hq'];
    try done.
  { intros w1 lb k _. apply unforced_kinds. }
  split; [done|].
  assert (Hboth : attempts_positive (view w) ∧ put_once (view w)).
  { apply (run_invariant unforced_kind
             (λ v, attempts_positive v ∧ put_once v) _ _) in Hrun; [done| |done].
    intros k u u' Hk Hm [Hp Ho]. split.
    - by eapply move_attempts_positive.
    - by eapply move_put_once. }
  destruct Hboth. split; [done|]. split; [done|].
  intros arg Hin.
  apply (run_invariant unforced_kind (λ v, arg ∈ v_inputs v) _ _) in Hrun;
    [done| |done].
  intros k u u' _ Hm. exact (move_inputs k u u' arg Hm).
Qed.

Lemma attempts_positive_init (rnd : nat → nat) (nt na : Z) :
  attempts_positive (view (World_init rnd nt na : World)).
Proof. split; constructor. Qed.

Lemma put_once_init (rnd : nat → nat) (nt na : Z) :
  put_once (view (World_init rnd nt na : World)).
Proof.
  intros a. cbn [view World_init Job_init v_history v_inputs job _inputs
                 history first_puts count].
  by rewrite bool_decide_eq_false_2 by set_solver.
Qed.

Lemma submit_all_registered (args : list Input) w :
  Forall (λ a, a ∈ _inputs (job w)) args → submit_all false args w = w.
Proof.
  induction 1 as [|a args Ha Hall IH]; [done|].
  cbn [submit_all]. unfold submit at 1, accepts.
  rewrite orb_false_r, bool_decide_eq_false_2 by by intros Hno. done.
Qed.

Lemma exec_if_app (ok : World → label → bool) (ls1 ls2 : list label) w0 w1 :
  exec_if ok ls1 w0 = Some w1 →
  exec_if ok (ls1 ++ ls2) w0 = exec_if ok ls2 w1.
Proof.
  revert w0. induction ls1 as [|lb ls IH]; intros w0 Hex.
  - by injection Hex as ->.
  - cbn [app exec_if] in *. destruct (ok w0 lb); [|done].
    destruct (step lb w0); [by apply IH|done].
Qed.

(** ** An input whose processing always fails *)

Lemma count_le {A} (p q : A → bool) (xs : list A) :
  (∀ x, p x = true → q x = true) → count p xs ≤ count q xs.
Proof.
  intros Hpq. induction xs as [|x xs IH]; [done|]. simpl.
  specialize (Hpq x). destruct (p x), (q x); lia.
Qed.

Lemma at_item_le arg (n : Z) (q : list (Input * Z)) :
  count (at_item arg n) q ≤ queued arg q.
Proof.
  apply count_le. intros [b m]. unfold at_item. by intros [? _]%andb_true_iff.
Qed.

Lemma at_pc_le arg (n : Z) (pcs : list wstate) :
  count (at_pc arg n) pcs ≤ in_flight arg pcs.
Proof.
  apply count_le. intros [ | | |b m| | ]; try done.
  simpl. by intros [? _]%andb_true_iff.
Qed.

Lemma queued_some arg (q : list (Input * Z)) :
  1 ≤ queued arg q → ∃ n, 1 ≤ count (at_item arg n) q.
Proof.
  unfold queued. induction q as [|[b m] q IH]; simpl; [lia|].
  case_bool_decide as Hb.
  - intros _. exists m. unfold at_item at 1. simpl.
    rewrite !bool_decide_eq_true_2 by done. simpl. lia.
  - intros Hq. destruct (IH ltac:(lia)) as [n Hn]. exists n. lia.
Qed.

Lemma in_flight_some arg (pcs : list wstate) :
  1 ≤ in_flight arg pcs → ∃ n, 1 ≤ count (at_pc arg n) pcs.
Proof.
  unfold in_flight. induction pcs as [|pc pcs IH]; simpl; [lia|].
  destruct (busy arg pc) eqn:Hb.
  - intros _. destruct pc as [ | | |b m| | ]; try done.
    exists m. simpl. simpl in Hb. rewrite Hb.
    rewrite bool_decide_eq_true_2 by done. simpl. lia.
  - intros Hq. destruct (IH ltac:(lia)) as [n Hn]. exists n. lia.
Qed.

Lemma failures_snoc arg (hist : list event) ev :
  failures arg (hist ++ [ev]) =
  failures arg hist +
  match ev with
  | EvDone a _ (Raised _) => if bool_decide (a = arg) then 1 else 0
  | _ => 0
  end.
Proof.
  unfold failures. rewrite count_snoc. f_equal.
  destruct ev as [| |a n [x|e]]; try done.
Qed.

Lemma at_pc_idle arg (n : Z) pc : idle pc = true → at_pc arg n pc = false.
Proof. by destruct pc. Qed.

Lemma around_other_put arg b (n m : Z) (q : list (Input * Z)) :
  b ≠ arg → count (at_item arg n) (q ++ [(b, m)]) = count (at_item arg n) q.
Proof.
  intros Hne. rewrite count_snoc. unfold at_item at 2. simpl.
  rewrite bool_decide_eq_false_2 by done. simpl. lia.
Qed.

Lemma queued_other_put arg b (m : Z) (q : list (Input * Z)) :
  b ≠ arg → queued arg (q ++ [(b, m)]) = queued arg q.
Proof.
  intros Hne. rewrite queued_app, queued_one.
  rewrite bool_decide_eq_false_2 by done. lia.
Qed.

Lemma doom_enqueue_other arg (N : Z) b v :
  b ≠ arg → tidy_at arg (v_enqueue b v) → doom arg N v →
  doom arg N (v_enqueue b v).
Proof.
  intros Hne Ht (_ & HA & HB & HC & HD & HE).
  unfold doom, around in *. vsimpl.
  split; [done|]. split; [done|].
  rewrite failures_snoc, Nat.add_0_r, queued_other_put by done.
  split; [|done].
  intros n. rewrite around_other_put by done. apply HB.
Qed.

Lemma move_doom arg (N : Z) k v v' :
  (1 ≤ N)%Z → doomed_kind arg k → move k v v' →
  doom arg N v → doom arg N v'.
Proof.
  intros HN Hk Hm Hd.
  assert (Ht' : tidy_at arg v').
  { destruct Hd as [Ht _]. eapply move_tidy_at; [|done..].
    intros a ->. exact Hk. }
  destruct Hm as [a v Hnew|a v|a v Hfailed| | |h pc pc' v Hh Hpc Hpc'
                  |h a n0 q pc v Hh Hpc Hq|h a n0 r pc' v Hh Hpc'].
  - (* submit *)
    destruct (decide (a = arg)) as [->|Hne];
      [|by apply doom_enqueue_other].
    destruct Hd as (Ht & HA & HB & HC & HD & HE).
    unfold doom, around, tidy_at in *. vsimpl.
    rewrite (bool_decide_eq_false_2 (arg ∈ v_inputs v)) in Ht by done.
    pose proof (kept_0 arg (v_exceptions v) ltac:(lia)) as Hnoexc.
    split; [done|]. split; [done|].
    rewrite failures_snoc, Nat.add_0_r, HD by lia.
    split; [|split; [done|split; [|done]]].
    + intros n. rewrite count_snoc.
      pose proof (at_item_le arg n (v_queue v)).
      pose proof (at_pc_le arg n (v_pcs v)).
      unfold at_item at 2. simpl.
      rewrite (bool_decide_eq_true_2 (arg = arg)) by done. simpl.
      destruct (bool_decide_reflect (1%Z = n)); lia.
    + rewrite queued_app, queued_one, bool_decide_eq_true_2 by done. lia.
  - (* force *) by apply doom_enqueue_other.
  - (* retry *)
    simpl in Hk.
    assert (Hd' : doom arg N (v_clear a v)).
    { destruct Hd as (Ht & HA & HB & HC & HD & HE).
      unfold doom, around, tidy_at in *. vsimpl.
      rewrite kept_delete, (bool_decide_eq_false_2 (a = arg)) by done.
      rewrite dom_delete_L.
      split; [done|]. split; [done|].
      split; [done|]. split; [|done].
      intros Hin. apply HC. set_solver. }
    by apply doom_enqueue_other.
  - done.
  - (* spawn *)
    destruct Hd as (Ht & HA & HB & HC & HD & HE).
    unfold doom, around in *. vsimpl.
    split; [done|]. split; [done|].
    rewrite in_flight_snoc. simpl. rewrite Nat.add_0_r.
    split; [|done].
    intros n. rewrite count_snoc. simpl. rewrite Nat.add_0_r. apply HB.
  - (* idle *)
    destruct Hd as (Ht & HA & HB & HC & HD & HE).
    unfold doom, around in *. vsimpl.
    split; [done|]. split; [done|].
    rewrite (in_flight_idle arg _ h pc pc') by done.
    assert (Hsame : ∀ n, count (at_pc arg n) (<[h := pc']> (v_pcs v)) =
                         count (at_pc arg n) (v_pcs v)).
    { intros n. pose proof (count_insert (at_pc arg n) _ h pc pc' Hh) as Hc.
      rewrite !at_pc_idle in Hc by done. lia. }
    split; [|done].
    intros n. rewrite Hsame. apply HB.
  - (* take *)
    destruct Hd as (Ht & HA & HB & HC & HD & HE).
    unfold doom, around in *. vsimpl.
    split; [done|]. split; [done|].
    rewrite failures_snoc, Nat.add_0_r.
    assert (Hsame : ∀ n,
      count (at_item arg n) q +
      count (at_pc arg n) (<[h := WProcessing a n0]> (v_pcs v)) =
      count (at_item arg n) (v_queue v) + count (at_pc arg n) (v_pcs v)).
    { intros n.
      pose proof (count_insert (at_pc arg n) _ h pc (WProcessing a n0) Hh)
        as Hc.
      rewrite (at_pc_idle _ _ _ Hpc) in Hc. rewrite Hq. simpl.
      simpl in Hc. unfold at_item at 2. simpl. lia. }
    assert (Hsum :
      queued arg q + in_flight arg (<[h := WProcessing a n0]> (v_pcs v)) =
      queued arg (v_queue v) + in_flight arg (v_pcs v)).
    { pose proof (in_flight_insert arg _ h pc (WProcessing a n0) Hh) as Hc.
      rewrite (idle_not_busy _ _ Hpc) in Hc. rewrite Hq, queued_cons.
      simpl in Hc. lia. }
    split; [|split; [done|split; [|done]]].
    + intros n. rewrite Hsame. apply HB.
    + intros H0. apply HD. lia.
  - (* done *)
    destruct Hd as (Ht & HA & HB & HC & HD & HE).
    simpl in Hk.
    pose proof (in_flight_insert arg _ h _ pc' Hh) as Hfl.
    rewrite (idle_not_busy _ _ Hpc') in Hfl. simpl in Hfl.
    assert (Hat : ∀ n,
      count (at_pc arg n) (<[h := pc']> (v_pcs v)) +
      (if bool_decide (a = arg) && bool_decide (n0 = n) then 1 else 0) =
      count (at_pc arg n) (v_pcs v)).
    { intros n. pose proof (count_insert (at_pc arg n) _ h _ pc' Hh) as Hc.
      rewrite (at_pc_idle _ _ _ Hpc') in Hc. simpl in Hc. lia. }
    destruct (decide (a = arg)) as [->|Hne].
    + (* a call for [arg] ends: it raised an ordinary exception *)
      specialize (Hk eq_refl). destruct r as [x|e]; [done|].
      simpl in Hk. apply andb_true_iff in Hk as [HX HE'].
      apply negb_true_iff in HE'.
      rewrite (bool_decide_eq_true_2 (arg = arg)) in Hfl by done.
      assert (Hn0 : 1 ≤ around arg n0 v).
      { unfold around. specialize (Hat n0).
        rewrite !bool_decide_eq_true_2 in Hat by done. simpl in Hat. lia. }
      destruct (HB n0 Hn0) as [Hfails Hrange].
      unfold tidy_at in Ht.
      assert (Hone : queued arg (v_queue v) + in_flight arg (v_pcs v) +
                     kept arg (v_results v) + kept arg (v_exceptions v) ≤ 1)
        by (destruct (bool_decide (arg ∈ v_inputs v)); lia).
      assert (Hq0 : queued arg (v_queue v) = 0) by lia.
      assert (Hf1 : in_flight arg (v_pcs v) = 1) by lia.
      assert (Hk0 : kept arg (v_exceptions v) = 0) by lia.
      pose proof (kept_0 _ _ Hk0) as Hnoexc.
      assert (Hnone : ∀ n, count (at_item arg n) (v_queue v) = 0 ∧
                           count (at_pc arg n) (<[h := pc']> (v_pcs v)) = 0).
      { intros n. pose proof (at_item_le arg n (v_queue v)).
        pose proof (at_pc_le arg n (<[h := pc']> (v_pcs v))). lia. }
      unfold doom, around. unfold v_finish in Ht' |- *.
      rewrite HE', HX in Ht' |- *. cbn [orb negb] in Ht' |- *.
      destruct (n0 <? v_n_attempts v)%Z eqn:Hlt; vsimpl.
      * apply Z.ltb_lt in Hlt.
        split; [exact Ht'|].
        split; [done|].
        rewrite !failures_snoc, bool_decide_eq_true_2, Nat.add_0_r by done.
        split; [|split; [done|split; [|done]]].
        -- intros n. rewrite count_snoc. destruct (Hnone n) as [-> ->].
           unfold at_item. simpl.
           rewrite (bool_decide_eq_true_2 (arg = arg)) by done. simpl.
           destruct (bool_decide_reflect ((n0 + 1)%Z = n)); lia.
        -- rewrite queued_app, queued_one, bool_decide_eq_true_2 by done.
           lia.
      * apply Z.ltb_ge in Hlt.
        split; [exact Ht'|].
        split; [done|].
        rewrite !failures_snoc, bool_decide_eq_true_2 by done.
        split; [|split; [|split; [|done]]].
        -- intros n. destruct (Hnone n) as [-> ->]. lia.
        -- intros _. lia.
        -- rewrite kept_insert, bool_decide_eq_true_2 by done. lia.
    + (* a call for another input ends *)
      assert (Hat' : ∀ n, count (at_pc arg n) (<[h := pc']> (v_pcs v)) =
                          count (at_pc arg n) (v_pcs v)).
      { intros n. specialize (Hat n).
        rewrite (bool_decide_eq_false_2 (a = arg)) in Hat by done.
        simpl in Hat. lia. }
      rewrite (bool_decide_eq_false_2 (a = arg)) in Hfl by done.
      unfold doom, around. split; [done|].
      unfold v_finish. destruct r as [x|e]; vsimpl.
      * rewrite failures_snoc, Nat.add_0_r, dom_insert_L.
        split; [done|]. split; [|split; [done|split; [|set_solver]]].
        -- intros n. rewrite Hat'. apply HB.
        -- intros H0. apply HD. lia.
      * destruct (isinstance_Empty e || negb (isinstance_Exception e));
          vsimpl.
        { rewrite failures_snoc, bool_decide_eq_false_2, Nat.add_0_r by done.
          split; [done|]. split; [|split; [done|split; [|done]]].
          -- intros n. rewrite Hat'. apply HB.
          -- intros H0. apply HD. lia. }
        destruct (n0 <? v_n_attempts v)%Z; vsimpl.
        -- rewrite !failures_snoc, bool_decide_eq_false_2, !Nat.add_0_r
             by done.
           rewrite queued_other_put by done.
           split; [done|]. split; [|split; [done|split; [|done]]].
           ++ intros n. rewrite Hat', around_other_put by done. apply HB.
           ++ intros H0. apply HD. lia.
        -- rewrite failures_snoc, bool_decide_eq_false_2, Nat.add_0_r by done.
           rewrite kept_insert, (bool_decide_eq_false_2 (a = arg)) by done.
           rewrite dom_insert_L.
           split; [done|]. split; [|split; [|split; [|done]]].
           ++ intros n. rewrite Hat'. apply HB.
           ++ intros Hin. apply HC. set_solver.
           ++ intros H0. apply HD. lia.
Qed.

Lemma doomed_kinds arg w lb k :
  doomed arg w lb = true → label_kinds lb (view w) k → doomed_kind arg k.
Proof.
  intros Hg Hk.
  destruct lb as [[a f|args f|a|args| |n|n| | |]|h|h|h r];
    cbn [doomed label_kinds view v_exceptions v_pcs] in Hg, Hk; try done.
  - destruct Hk as [->|Hk]; [done|]. destruct f; subst; [|done].
    simpl in Hg. apply negb_true_iff, bool_decide_eq_false_1 in Hg. done.
  - destruct Hk as [->|[a [Ha Hk]]]; [done|]. destruct f; subst; [|done].
    simpl in Hg. apply bool_decide_eq_true_1 in Hg. simpl. by intros ->.
  - apply negb_true_iff, bool_decide_eq_false_1 in Hg.
    destruct Hk as [->|Hk]; [done|]. by case_bool_decide; subst.
  - apply bool_decide_eq_true_1 in Hg.
    destruct Hk as [->|[a [Ha [->|[_ ->]]]]]; [done|..]; simpl; by intros ->.
  - apply bool_decide_eq_true_1 in Hg.
    destruct Hk as [->|[a [Ha ->]]]; [done|]. simpl. by intros ->.
  - by subst.
  - by subst.
  - by subst.
  - by destruct Hk as [->|[a [n ->]]].
  - destruct Hk as [a [n [Hpc ->]]]. simpl. intros ->.
    rewrite list_lookup_fmap in Hpc.
    destruct (spawned w !! h) as [[tid pc]|]; [|done].
    simpl in Hpc. injection Hpc as ->.
    by rewrite bool_decide_eq_true_2 in Hg.
Qed.

Lemma doom_init (rnd : nat → nat) (nt N : Z) arg :
  doom arg N (view (World_init rnd nt N : World)).
Proof.
  split; [apply tidy_init|]. split; [done|].
  split; [intros n; cbn; lia|].
  split; [|split; [done|]]; cbn; set_solver.
Qed.

(** C4 (as amended).  Let [arg] be submitted without force and never
    retried, let the number of attempts be [N ≥ 1] throughout, and let every
    call of the target function for [arg] raise an instance of [Exception]
    other than [queue.Empty].  Then at every time [arg] is in the exceptions
    exactly when it has failed [N] times, it has failed [N] times at most,
    and it is not in the results.  Moreover every work item [(a, n)] whose
    call raises such an exception is put back as [(a, n + 1)] with the
    exceptions unchanged if [n] is less than the number of attempts, and is
    recorded in the exceptions with the queue unchanged otherwise. *)
Theorem failing_input_is_recorded (rnd : nat → nat) (nt N : Z)
    (ls : list label) w arg :
  (1 ≤ N)%Z →
  exec_if (doomed arg) ls (World_init rnd nt N) = Some w →
  (arg ∈ dom (_exceptions (job w)) ↔
   Z.of_nat (failures arg (history w)) = N) ∧
  (Z.of_nat (failures arg (history w)) ≤ N)%Z ∧
  (arg ∉ dom (_results (job w))) ∧
  (∀ h tid a (n : Z) e,
     spawned w !! h = Some (mkThread tid (WProcessing a n)) →
     isinstance_Exception e = true → isinstance_Empty e = false →
     ∃ w', step (Finish h (Raised e)) w = Some w' ∧
           _results (job w') = _results (job w) ∧
           if (n <? _n_attempts (job w))%Z
           then _queue (job w') = _queue (job w) ++ [(a, (n + 1)%Z)] ∧
                _exceptions (job w') = _exceptions (job w)
           else _queue (job w') = _queue (job w) ∧
                _exceptions (job w') = <[a := e]> (_exceptions (job w))).
Proof.
  intros HN Hex.
  destruct (exec_if_run (doomed arg) (doomed_kind arg) ls
              (World_init rnd nt N) w) as [Hrun Hq];
    [|apply quiet_init|exact Hex|].
  { intros w1 lb k _. apply doomed_kinds. }
  apply (run_invariant (doomed_kind arg) (doom arg N) _ _
           (λ k u u', move_doom arg N k u u' HN)) in Hrun;
    [|apply doom_init].
  destruct Hrun as (Ht & HA & HB & HC & HD & HE).
  cbn [view v_queue v_pcs v_results v_exceptions v_history v_n_attempts]
    in HA, HC, HD, HE.
  assert (Hcases :
    arg ∈ dom (_exceptions (job w)) ∨
    ((arg ∉ dom (_exceptions (job w))) ∧
     (Z.of_nat (failures arg (history w)) < N)%Z)).
  { destruct (decide (arg ∈ dom (_exceptions (job w)))) as [Hin|Hno];
      [by left|right; split; [done|]].
    assert (Hk0 : kept arg (_exceptions (job w)) = 0)
      by (unfold kept; by rewrite bool_decide_eq_false_2).
    destruct (decide (queued arg (_queue (job w)) +
                      in_flight arg (t_pc <$> spawned w) = 0)) as [H0|Hpos].
    - rewrite HD by lia. lia.
    - assert (∃ n, 1 ≤ around arg n (view w)) as [n Hn].
      { unfold around. cbn [view v_queue v_pcs].
        destruct (decide (1 ≤ queued arg (_queue (job w)))) as [Hqd|Hqd].
        - destruct (queued_some _ _ Hqd) as [n Hn]. exists n. lia.
        - destruct (in_flight_some arg (t_pc <$> spawned w) ltac:(lia))
            as [n Hn]. exists n. lia. }
      destruct (HB n Hn) as [Hf Hr].
      cbn [view v_history] in Hf. lia. }
  split; [|split; [|split; [done|]]].
  - split; [done|]. intros Hf. destruct Hcases as [?|[_ ?]]; [done|lia].
  - destruct Hcases as [Hin|[_ ?]]; [|lia]. rewrite (HC Hin). lia.
  - intros h tid a n e Hh HX HE'. rewrite step_run, Hh by done.
    unfold finish_outcome. rewrite HE', HX.
    cbn [job with_history].
    destruct (n <? _n_attempts (job w))%Z; eexists; (split; [reflexivity|]);
      done.
Qed.

(** ** The threads [_start] spawns *)

Lemma generated_tids_S (rnd : nat → nat) d n :
  generated_tids rnd d (S n) = tid_at rnd d :: generated_tids rnd (d + 16) n.
Proof.
  unfold generated_tids. rewrite <- cons_seq, fmap_cons.
  f_equal; [f_equal; lia|].
  rewrite <- fmap_S_seq, <- list_fmap_compose.
  apply list_fmap_ext. intros i x _. simpl. f_equal. lia.
Qed.

Lemma spawn_n_entropy n w : entropy (spawn_n n w) = entropy w.
Proof. revert w. induction n as [|n IH]; intros w; [done|]. cbn. by rewrite IH. Qed.

Lemma spawn_n_spawned n w :
  spawned (spawn_n n w) =
  spawned w ++
  ((λ tid, mkThread tid WStart) <$> generated_tids (entropy w) (drawn w) n).
Proof.
  revert w. induction n as [|n IH]; intros w.
  - unfold generated_tids. simpl. by rewrite app_nil_r.
  - cbn [spawn_n]. rewrite IH, generated_tids_S, fmap_cons.
    cbn [spawn_one spawned entropy drawn]. by rewrite <- app_assoc.
Qed.

Lemma spawn_n_threads_other n w (tid : string) :
  tid ∉ generated_tids (entropy w) (drawn w) n →
  _threads (job (spawn_n n w)) !! tid = _threads (job w) !! tid.
Proof.
  revert w. induction n as [|n IH]; intros w Hno; [done|].
  rewrite generated_tids_S in Hno. apply not_elem_of_cons in Hno as [Hne Hno].
  cbn [spawn_n]. rewrite IH by done.
  cbn [spawn_one job _threads with_threads]. by rewrite lookup_insert_ne.
Qed.

Lemma spawn_n_threads_new n w i (tid : string) :
  NoDup (generated_tids (entropy w) (drawn w) n) →
  generated_tids (entropy w) (drawn w) n !! i = Some tid →
  _threads (job (spawn_n n w)) !! tid = Some (length (spawned w) + i).
Proof.
  revert w i. induction n as [|n IH]; intros w i Hnd Hi; [done|].
  rewrite generated_tids_S in Hnd, Hi. apply NoDup_cons in Hnd as [Hfirst Hnd].
  cbn [spawn_n]. destruct i as [|i].
  - injection Hi as <-. rewrite spawn_n_threads_other by done.
    cbn [spawn_one job _threads with_threads].
    by rewrite lookup_insert_eq, Nat.add_0_r.
  - rewrite (IH (spawn_one w) i) by done.
    cbn [spawn_one spawned]. rewrite length_app. simpl. f_equal. lia.
Qed.

Lemma spawn_n_threads_size n w :
  NoDup (generated_tids (entropy w) (drawn w) n) →
  (∀ tid, tid ∈ generated_tids (entropy w) (drawn w) n →
          tid ∉ dom (_threads (job w))) →
  size (_threads (job (spawn_n n w))) = size (_threads (job w)) + n.
Proof.
  revert w. induction n as [|n IH]; intros w Hnd Hfresh; [simpl; lia|].
  rewrite generated_tids_S in Hnd, Hfresh.
  apply NoDup_cons in Hnd as [Hfirst Hnd].
  cbn [spawn_n]. rewrite IH; [| done |].
  - cbn [spawn_one job _threads with_threads].
    rewrite map_size_insert_None; [lia|].
    apply not_elem_of_dom, Hfresh, list_elem_of_here.
  - intros tid Htid. cbn [spawn_one job _threads with_threads].
    rewrite dom_insert_L. apply not_elem_of_union. split.
    + intros ->%elem_of_singleton. done.
    + by apply Hfresh, list_elem_of_further.
Qed.

(** C6 (as amended).  Every call of [_start] that finds the thread dict
    lock free, whatever other locks its caller holds, spawns
    [max(0, target - live)] threads, where [live] is the size of the thread
    dict: one started thread for each of the generated ids, in order, and
    none when the dict holds more threads than the target.  Each new thread
    is entered in the dict under its id; entries under other ids are
    untouched.  The ids are random and not checked: when the generated ids
    are distinct, every new thread is found under its id afterwards, and
    when they are not in the dict before either, the dict grows by the
    number of new threads. *)
Theorem start_spawns_missing_threads w :
  _tlock ∉ locks w →
  ∃ w', _start w = Ok () w' ∧
    locks w' = locks w ∧
    spawned w' = spawned w ++ ((λ tid, mkThread tid WStart) <$> new_tids w) ∧
    Z.of_nat (length (new_tids w)) =
      Z.max 0 (_n_threads (job w) - Z.of_nat (size (_threads (job w)))) ∧
    (∀ tid : string, tid ∉ new_tids w →
       _threads (job w') !! tid = _threads (job w) !! tid) ∧
    (NoDup (new_tids w) →
     (∀ i (tid : string), new_tids w !! i = Some tid →
        _threads (job w') !! tid = Some (length (spawned w) + i)) ∧
     ((∀ tid : string, tid ∈ new_tids w → tid ∉ dom (_threads (job w))) →
      size (_threads (job w')) =
      size (_threads (job w)) + length (new_tids w))).
Proof.
  intros Hfree. exists (started w).
  split; [by apply _start_started|]. split; [done|].
  unfold started, new_tids, new_threads.
  rewrite job_with_locks.
  change (spawned (with_locks ?ls ?x)) with (spawned x).
  set (n := Z.to_nat (_n_threads (job w) - Z.of_nat (size (_threads (job w))))).
  split; [apply (spawn_n_spawned n (acquired _tlock w))|].
  split.
  { unfold generated_tids. rewrite length_fmap, length_seq. unfold n. lia. }
  split; [intros tid; apply (spawn_n_threads_other n (acquired _tlock w))|].
  intros Hnd. split.
  - intros i tid. by apply (spawn_n_threads_new n (acquired _tlock w)).
  - intros Hfresh.
    rewrite (spawn_n_threads_size n (acquired _tlock w)) by done.
    unfold generated_tids. by rewrite length_fmap, length_seq, job_acquired.
Qed.

(** ** Running the readers *)

Lemma reader_run {A} l (f : Job → A) w :
  l ∉ locks w →
  with_lock l (let! j := get_job in ret (f j)) w =
  Ok (f (job w)) (region l (λ w, w) w).
Proof. intros Hl. by apply (region_run l (λ w, w)). Qed.

Lemma get_n_finished_run w :
  quiet w →
  get_n_finished w =
  Ok (Z.of_nat (size (_results (job w)))) (region _rlock (λ w, w) w).
Proof. intros Hq. by apply reader_run, quiet_free. Qed.

Lemma get_n_running_run w :
  quiet w →
  get_n_running w =
  Ok (Z.of_nat (size (_threads (job w))) - _n_paused (job w))%Z
     (region _tlock (λ w, w) w).
Proof.
  intros Hq.
  by apply (reader_run _tlock
              (λ j, (Z.of_nat (size (_threads j)) - _n_paused j)%Z)),
           quiet_free.
Qed.

Lemma get_n_failed_run w :
  quiet w →
  get_n_failed w =
  Ok (Z.of_nat (size (_exceptions (job w)))) (region _elock (λ w, w) w).
Proof. intros Hq. by apply reader_run, quiet_free. Qed.

Lemma _get_status_string_run w :
  quiet w → _get_status_string w = Ok (status_string w) (counted w).
Proof.
  intros Hq. unfold _get_status_string, counted.
  unfold bind at 1. unfold get_n_pending at 1, bind at 1, get_job at 1.
  unfold ret at 1. unfold bind at 1. rewrite get_n_running_run by done.
  unfold bind at 1.
  rewrite get_n_finished_run by by apply region_quiet.
  unfold bind at 1.
  rewrite get_n_failed_run by by do 2 apply region_quiet.
  done.
Qed.

Lemma print_run (line : string) w :
  module_plock ∉ locks w →
  print line w = Ok () (region module_plock (on_console (printed line)) w).
Proof.
  intros Hl. unfold print. apply region_run; [done| |done].
  unfold bind, update_console, on_console, printed.
  by destruct w as [j ls sp rnd d [[st|] scr] lg hi].
Qed.

Lemma has_result_run arg w :
  quiet w →
  has_result arg w =
  Ok (bool_decide (arg ∈ dom (_results (job w)))) (region _rlock (λ w, w) w).
Proof.
  intros Hq.
  by apply (reader_run _rlock (λ j, bool_decide (arg ∈ dom (_results j)))),
           quiet_free.
Qed.

Lemma has_exception_run arg w :
  quiet w →
  has_exception arg w =
  Ok (bool_decide (arg ∈ dom (_exceptions (job w))))
     (region _elock (λ w, w) w).
Proof.
  intros Hq.
  by apply (reader_run _elock
              (λ j, bool_decide (arg ∈ dom (_exceptions j)))),
           quiet_free.
Qed.

Lemma get_result_run arg w :
  quiet w →
  get_result arg w =
  match _results (job w) !! arg with
  | Some x => Ok x (region _rlock (λ w, w) w)
  | None => Raise KeyError (region _rlock (λ w, w) w)
  end.
Proof.
  intros Hq. unfold get_result.
  destruct (_results (job w) !! arg) as [x|] eqn:Hx.
  - apply (region_run _rlock (λ w, w)); [by apply quiet_free| |done].
    unfold bind, get_job. cbn [acquired with_lock_log with_locks job].
    by rewrite Hx.
  - apply (region_raise _rlock (λ w, w)); [by apply quiet_free| |done].
    unfold bind, get_job. cbn [acquired with_lock_log with_locks job].
    by rewrite Hx.
Qed.

Lemma get_exception_run arg w :
  quiet w →
  get_exception arg w =
  match _exceptions (job w) !! arg with
  | Some e => Ok e (region _elock (λ w, w) w)
  | None => Raise KeyError (region _elock (λ w, w) w)
  end.
Proof.
  intros Hq. unfold get_exception.
  destruct (_exceptions (job w) !! arg) as [x|] eqn:Hx.
  - apply (region_run _elock (λ w, w)); [by apply quiet_free| |done].
    unfold bind, get_job. cbn [acquired with_lock_log with_locks job].
    by rewrite Hx.
  - apply (region_raise _elock (λ w, w)); [by apply quiet_free| |done].
    unfold bind, get_job. cbn [acquired with_lock_log with_locks job].
    by rewrite Hx.
Qed.

Lemma get_results_run w :
  quiet w →
  get_results w = Ok (_results (job w)) (region _rlock (λ w, w) w).
Proof.
  intros Hq. unfold get_results, bind.
  by rewrite (reader_run _rlock _results) by by apply quiet_free.
Qed.

Lemma get_exceptions_run w :
  quiet w →
  get_exceptions w = Ok (_exceptions (job w)) (region _elock (λ w, w) w).
Proof.
  intros Hq. unfold get_exceptions, bind.
  by rewrite (reader_run _elock _exceptions) by by apply quiet_free.
Qed.

(** ** Which locks are held together *)

Lemma logged_same (P : list lock_id → Prop) w w' :
  lock_log w' = lock_log w → logged P w w'.
Proof. intros Hl. exists []. by rewrite app_nil_r. Qed.

Lemma logged_trans (P : list lock_id → Prop) w w1 w2 :
  logged P w w1 → logged P w1 w2 → logged P w w2.
Proof.
  intros (lg1 & H1 & HP1) (lg2 & H2 & HP2). exists (lg1 ++ lg2).
  split; [by rewrite H2, H1, app_assoc|]. by apply Forall_app.
Qed.

Lemma logged_region (P : list lock_id → Prop) l (f : World → World) w :
  P (l :: locks w) →
  logged P (acquired l w) (f (acquired l w)) →
  logged P w (region l f w).
Proof.
  intros HP Hf. apply (logged_trans P w (acquired l w)).
  - exists [l :: locks w]. split; [done|]. by repeat constructor.
  - destruct Hf as (lg & Hlg & HPlg). by exists lg.
Qed.

Lemma logged_region_same (P : list lock_id → Prop) l (f : World → World) w :
  P (l :: locks w) →
  (∀ w1, lock_log (f w1) = lock_log w1) →
  logged P w (region l f w).
Proof. intros HP Hf. apply logged_region; [done|]. by apply logged_same. Qed.

Lemma logged_started (P : list lock_id → Prop) w :
  P (_tlock :: locks w) → logged P w (started w).
Proof.
  intros HP. exists [_tlock :: locks w]. split; [|by repeat constructor].
  unfold started. cbn [with_locks lock_log]. by rewrite spawn_n_lock_log.
Qed.

Lemma held_quiet w : quiet w → held (locks w) = [].
Proof.
  unfold quiet, held. induction (locks w) as [|l ls IH]; [done|].
  destruct (decide (l = _block)) as [->|Hne].
  - rewrite filter_cons_False by (intros H; by apply H).
    intros Hq. rewrite filter_cons_False by done. by apply IH.
  - by rewrite filter_cons_True.
Qed.

Lemma held_one l w :
  quiet w → length (held (l :: locks w)) ≤ 1.
Proof.
  intros Hq. unfold held. destruct (component_lock l) eqn:Hc.
  - rewrite filter_cons_True by done. fold (held (locks w)).
    by rewrite held_quiet.
  - rewrite filter_cons_False by by rewrite Hc.
    fold (held (locks w)). rewrite held_quiet by done. simpl. lia.
Qed.

Lemma held_two l l' w :
  quiet w → component_lock l = true → component_lock l' = true →
  held (l :: l' :: locks w) = [l; l'].
Proof.
  intros Hq Hl Hl'. unfold held. rewrite !filter_cons_True by done.
  fold (held (locks w)). by rewrite held_quiet.
Qed.

Lemma submit_all_lock_log (force : bool) (args : list Input) w :
  lock_log (submit_all force args w) = lock_log w.
Proof.
  revert w. induction args as [|a args IH]; intros w; [done|].
  cbn [submit_all]. rewrite IH. unfold submit. by destruct (accepts force a w).
Qed.

Lemma drain_lock_log (args : list Input) w :
  lock_log (drain args w) = lock_log w.
Proof.
  revert w. induction args as [|a args IH]; intros w; [done|].
  cbn [drain]. by rewrite IH.
Qed.

Lemma logged_add (P : list lock_id → Prop) arg (force : bool) w :
  P (_ilock :: locks w) → P (_tlock :: _ilock :: locks w) →
  logged P w (add_effect arg force w).
Proof.
  intros H1 H2. unfold add_effect.
  destruct (accepts force arg w).
  - apply (logged_region P _ilock (λ w1, started (enqueue arg w1))); [done|].
    apply (logged_started P (enqueue arg (acquired _ilock w))). exact H2.
  - apply (logged_region_same P _ilock (λ w, w)); done.
Qed.

Lemma logged_add_many (P : list lock_id → Prop) (args : list Input)
    (force : bool) w :
  P (_ilock :: locks w) → P (_tlock :: locks w) →
  logged P w (add_many_effect args force w).
Proof.
  intros H1 H2. unfold add_many_effect.
  eapply logged_trans; [|by apply logged_started].
  apply (logged_region_same P _ilock (submit_all force args)); [done|].
  intros w1. apply submit_all_lock_log.
Qed.

Lemma logged_retry (P : list lock_id → Prop) arg w :
  P (_elock :: locks w) → P (_ilock :: locks w) →
  P (_tlock :: _ilock :: locks w) →
  logged P w (retry_effect arg w).
Proof.
  intros H1 H2 H3. unfold retry_effect.
  apply (logged_trans P w (retry_clear arg w)); [|by apply logged_add].
  unfold retry_clear. case_bool_decide.
  - by apply (logged_region_same P _elock
                (λ w1, with_job (with_exceptions
                          (delete arg (_exceptions (job w))) (job w1)) w1)).
  - by apply (logged_region_same P _elock (λ w, w)).
Qed.

Lemma logged_retry_many (P : list lock_id → Prop) (args : list Input) w :
  P (_elock :: locks w) → P (_ilock :: locks w) →
  P (_tlock :: _ilock :: locks w) →
  logged P w (retry_many_effect args w).
Proof.
  revert w. induction args as [|a args IH]; intros w H1 H2 H3.
  - by apply logged_same.
  - cbn [retry_many_effect].
    apply (logged_trans P w (retry_effect a w)); [by apply logged_retry|].
    by apply IH.
Qed.

Lemma logged_retry_all (P : list lock_id → Prop) w :
  P (_elock :: locks w) → P (_ilock :: _elock :: locks w) →
  P (_tlock :: _elock :: locks w) →
  logged P w (retry_all_effect w).
Proof.
  intros H1 H2 H3. unfold retry_all_effect.
  apply (logged_region P _elock
           (λ w1, add_many_effect (failed_inputs w) true
                    (drain (failed_inputs w) w1))); [done|].
  apply (logged_trans P _ (drain (failed_inputs w) (acquired _elock w))).
  - apply logged_same, drain_lock_log.
  - apply logged_add_many; by rewrite drain_locks.
Qed.

Lemma logged_leave (P : list lock_id → Prop) (tid : string) w :
  P (_tlock :: locks w) → logged P w (world_of (leave tid w)).
Proof.
  intros HP. unfold leave.
  case_bool_decide; by apply logged_region_same.
Qed.

(** C8 (as amended).  An operation that starts with no component lock
    held holds one component lock at a time, with two exceptions: [add],
    and [retry] and [retry_many] through it, take the thread dict lock
    inside the input set lock; [retry_all] holds the exceptions lock for the
    whole call and takes inside it the input set lock and then the thread
    dict lock.  No operation holds more than two. *)
Theorem one_lock_at_a_time_but (o : operation) w :
  quiet w → logged (may_hold o) w (after o w).
Proof.
  intros Hq.
  assert (Hone : ∀ l w', quiet w' → length (held (l :: locks w')) ≤ 1)
    by (intros l w'; apply held_one).
  assert (Hcount : logged (λ s, length (held s) ≤ 1) w (counted w)).
  { unfold counted.
    apply (logged_trans _ w (region _tlock (λ w, w) w)).
    { apply logged_region_same; [by apply Hone|done]. }
    apply (logged_trans _ _ (region _rlock (λ w, w) (region _tlock (λ w, w) w))).
    { apply logged_region_same; [by apply Hone, region_quiet|done]. }
    apply logged_region_same; [|done].
    by apply Hone, region_quiet, region_quiet. }
  destruct o; cbn [after may_hold].
  - rewrite _start_started by by apply quiet_free.
    by apply logged_started, Hone.
  - rewrite add_run by done.
    apply logged_add; [left; by apply Hone|right; by apply held_two].
  - rewrite add_many_run by done.
    apply logged_add_many; by apply Hone.
  - by apply logged_same.
  - rewrite get_n_finished_run by done.
    apply logged_region_same; [by apply Hone|done].
  - rewrite get_n_running_run by done.
    apply logged_region_same; [by apply Hone|done].
  - rewrite get_n_failed_run by done.
    apply logged_region_same; [by apply Hone|done].
  - rewrite _get_status_string_run by done. exact Hcount.
  - unfold print_status, bind. rewrite _get_status_string_run by done.
    assert (Hqc : quiet (counted w)) by by do 3 apply region_quiet.
    rewrite print_run by by apply quiet_free.
    apply (logged_trans _ w (counted w)); [exact Hcount|].
    apply logged_region_same; [by apply Hone|done].
  - rewrite set_n_threads_run by done.
    apply (logged_trans _ w (on_job (with_n_threads n) w));
      [by apply logged_same|].
    by apply logged_started, Hone.
  - by apply logged_same.
  - unfold kill. rewrite set_n_threads_run by done.
    apply (logged_trans _ w (on_job (with_n_threads 0) w));
      [by apply logged_same|].
    by apply logged_started, Hone.
  - rewrite pause_run. destruct (paused w); [by apply logged_same|].
    exists [_block :: locks w]. split; [done|].
    constructor; [by apply Hone|constructor].
  - rewrite resume_run. destruct (paused w); by apply logged_same.
  - rewrite has_result_run by done.
    apply logged_region_same; [by apply Hone|done].
  - rewrite get_result_run by done.
    destruct (_results (job w) !! arg);
      (apply logged_region_same; [by apply Hone|done]).
  - rewrite get_results_run by done.
    apply logged_region_same; [by apply Hone|done].
  - rewrite has_exception_run by done.
    apply logged_region_same; [by apply Hone|done].
  - rewrite get_exception_run by done.
    destruct (_exceptions (job w) !! arg);
      (apply logged_region_same; [by apply Hone|done]).
  - rewrite get_exceptions_run by done.
    apply logged_region_same; [by apply Hone|done].
  - rewrite retry_run by done.
    apply logged_retry;
      [left; by apply Hone|left; by apply Hone|right; by apply held_two].
  - rewrite retry_many_run by done.
    apply logged_retry_many;
      [left; by apply Hone|left; by apply Hone|right; by apply held_two].
  - rewrite retry_all_run by done.
    apply logged_retry_all;
      [left; by apply Hone|right; left; by apply held_two
      |right; right; by apply held_two].
  - rewrite worker_enter_run by by apply quiet_free.
    apply logged_region_same; [by apply Hone|done].
  - rewrite worker_dequeue_run by done. unfold dequeue_outcome.
    case_bool_decide; [by apply logged_same|]. cbn zeta.
    assert (Hqg : quiet (through_gate w)) by by do 2 apply region_quiet.
    assert (Hgate : logged (λ s, length (held s) ≤ 1) w (through_gate w)).
    { unfold through_gate.
      apply (logged_trans _ w (region _block (λ w, w) w)).
      - apply logged_region_same; [by apply Hone|done].
      - apply logged_region_same; [by apply Hone, region_quiet|done]. }
    destruct (over_target (through_gate w)).
    { eapply logged_trans; [exact Hgate|].
      by apply logged_leave, Hone. }
    eapply logged_trans; [exact Hgate|].
    apply (logged_trans _ _ (region _tlock (λ w, w) (through_gate w))).
    { apply logged_region_same; [by apply Hone|done]. }
    destruct (_queue _) as [|[a n] q].
    + by apply logged_leave, Hone, region_quiet.
    + apply logged_same.
      by cbn [world_of with_history on_job with_job lock_log].
  - rewrite worker_finish_run by done. unfold finish_outcome. cbn zeta.
    set (w1 := with_history _ w).
    assert (Hq1 : quiet w1) by done.
    destruct r as [x|e].
    + apply (logged_trans _ w w1); [by apply logged_same|].
      apply logged_region_same; [by apply Hone|done].
    + destruct (isinstance_Empty e).
      { apply (logged_trans _ w w1); [by apply logged_same|].
        by apply logged_leave, Hone. }
      destruct (isinstance_Exception e); [|by apply logged_same].
      destruct (_ <? _)%Z; [by apply logged_same|].
      apply (logged_trans _ w w1); [by apply logged_same|].
      apply logged_region_same; [by apply Hone|done].
Qed.


(** ** Waiting and interrupts *)

Lemma wait_handler_run (show_status : bool) w :
  wait_handler show_status w = Ok true (interrupted show_status w).
Proof.
  unfold wait_handler, interrupted, bind at 1, locked.
  destruct show_status; [|done].
  destruct (bool_decide_reflect (module_plock ∈ locks w)) as [Hin|Hout];
    [done|].
  cbn [andb negb]. unfold bind at 1.
  by rewrite (region_run module_plock (on_console _hide_status) _ ()).
Qed.

Lemma hide_status_None (c : Console) : _status (_hide_status c) = None.
Proof. done. Qed.

(** C2 (as amended).  [wait] never lets a [KeyboardInterrupt] reach its
    caller.  When one is raised in its body, by the interrupt or by the
    timeout, [wait] returns normally; it has erased the status line if
    [show_status] is set and the print lock was free at that moment, and
    has left the console as it was otherwise. *)
Theorem wait_swallows_interrupt (show_status : bool) (timeout : option Z)
    (clock0 clock1 : Z) (fuel : nat) (script : list join_event) w :
  (∀ w', wait show_status timeout clock0 clock1 fuel script w
         ≠ Raise KeyboardInterrupt w') ∧
  (∀ w1, wait_body show_status timeout clock0 clock1 fuel script w
         = Raise KeyboardInterrupt w1 →
     wait show_status timeout clock0 clock1 fuel script w
     = Ok true (interrupted show_status w1) ∧
     job (interrupted show_status w1) = job w1 ∧
     (show_status = true → module_plock ∉ locks w1 →
      _status (console (interrupted show_status w1)) = None) ∧
     (show_status = false ∨ module_plock ∈ locks w1 →
      interrupted show_status w1 = w1)).
Proof.
  split.
  - intros w'. unfold wait, try_except.
    destruct (wait_body _ _ _ _ _ _ w) as [b w1|e w1|l w1]; [done| |done].
    destruct e; cbn [is_KeyboardInterrupt]; try done.
    by rewrite wait_handler_run.
  - intros w1 Hbody. unfold wait, try_except. rewrite Hbody.
    cbn [is_KeyboardInterrupt]. rewrite wait_handler_run.
    split; [done|]. unfold interrupted.
    split; [by destruct (_ && _)|]. split.
    + intros -> Hfree. by rewrite bool_decide_eq_false_2.
    + intros [->|Hin]; [done|].
      rewrite (bool_decide_eq_true_2 _ Hin). by rewrite andb_false_r.
Qed.

(** * Further properties of the code *)

(** ** The console *)

Lemma blank_length (s : string) : String.length (blank s) = String.length s.
Proof. induction s as [|ch s IH]; [done|]. cbn. by rewrite IH. Qed.

Lemma blank_get (s : string) i ch :
  String.get i s = Some ch → String.get i (blank s) = Some (cover ch).
Proof.
  revert i. induction s as [|c s IH]; intros i Hi; [done|].
  destruct i as [|i]; cbn in *.
  - by injection Hi as ->.
  - by apply IH.
Qed.

(** X1.  [_hide_status] over a displayed status [st] prints a carriage
    return, one covering character for each character of [st] (a tab for a
    tab, a space otherwise) and a carriage return, and forgets the status;
    a second call prints nothing more. *)
Theorem hide_status_erases (c : Console) (st : string) :
  _status c = Some st →
  screen (_hide_status c) = screen c ++ [eraser st] ∧
  _status (_hide_status c) = None ∧
  String.length (blank st) = String.length st ∧
  (∀ i ch, String.get i st = Some ch →
           String.get i (blank st) = Some (cover ch)) ∧
  _hide_status (_hide_status c) = _hide_status c.
Proof.
  intros Hst. unfold _hide_status. rewrite Hst. cbn.
  split; [done|]. split; [done|]. split; [apply blank_length|].
  split; [apply blank_get|done].
Qed.

(** X2.  [_show_status] leaves the new status as the displayed one, printed
    after the old one was erased; hiding it afterwards prints the eraser of
    the new status. *)
Theorem show_status_then_hide (c : Console) (st : string) :
  _status (_show_status st c) = Some st ∧
  screen (_show_status st c) = screen (_hide_status c) ++ [st] ∧
  screen (_hide_status (_show_status st c)) =
    screen (_hide_status c) ++ [st; eraser st].
Proof.
  split; [done|]. split; [done|].
  unfold _show_status, _hide_status at 1. cbn. by rewrite <- app_assoc.
Qed.

(** X3.  [meanwhile.print], when the print lock is free, writes its line
    and keeps the displayed status: a status that was shown is erased
    before the line and shown again after it.  The job and the locks are
    as before. *)
Theorem print_keeps_status (line : string) w :
  module_plock ∉ locks w →
  ∃ w', print line w = Ok () w' ∧
        _status (console w') = _status (console w) ∧
        screen (console w') =
          screen (console w) ++
          match _status (console w) with
          | Some st => [eraser st; line; st]
          | None => [line]
          end ∧
        job w' = job w ∧ locks w' = locks w.
Proof.
  intros Hl. rewrite print_run by done. eexists. split; [done|].
  destruct w as [j ls sp rnd d [[st|] scr] lg hi]; cbn.
  - split; [done|]. split; [|done]. by rewrite <- !app_assoc.
  - done.
Qed.

(** ** Thread ids *)

Lemma hexdigit_in (r : nat) :
  hexdigit r ∈ String.list_ascii_of_string hexdigits.
Proof.
  unfold hexdigit.
  assert (Hlt : r `mod` String.length hexdigits < 16)
    by (apply Nat.mod_upper_bound; discriminate).
  revert Hlt. generalize (r `mod` String.length hexdigits). intros n Hn.
  do 16 (destruct n as [|n];
         [cbn; by repeat constructor|]).
  lia.
Qed.

(** X4.  [_generate_tid] always returns a string of sixteen characters, each
    of them a hexadecimal digit, and takes sixteen draws from the random
    source. *)
Theorem generate_tid_is_16_hex w :
  ∃ tid, _generate_tid w = Ok tid (with_drawn (drawn w + 16) w) ∧
         String.length tid = 16 ∧
         Forall (λ ch, ch ∈ String.list_ascii_of_string hexdigits)
                (String.list_ascii_of_string tid).
Proof.
  exists (tid_at (entropy w) (drawn w)).
  split; [apply _generate_tid_run|]. split; [done|].
  unfold tid_at. rewrite String.list_ascii_of_string_of_list_ascii.
  apply Forall_fmap, Forall_forall. intros i _. apply hexdigit_in.
Qed.

(** ** Reading the job *)

Lemma region_id_forget l w :
  with_lock_log (lock_log w) (region l (λ w, w) w) = w.
Proof. by destruct w. Qed.

Lemma counted_forget w : with_lock_log (lock_log w) (counted w) = w.
Proof. by destruct w. Qed.

(** X5.  The counters, the status string and the six accessors of the
    stores change nothing: whatever they answer, and also when they raise,
    the job, the threads, the console and the locks are as before. *)
Theorem readers_change_nothing (o : operation) w :
  quiet w → reads_only o = true →
  with_lock_log (lock_log w) (after o w) = w.
Proof.
  intros Hq Ho. destruct o; try discriminate Ho; cbn [after].
  - by destruct w.
  - rewrite get_n_finished_run by done. apply region_id_forget.
  - rewrite get_n_running_run by done. apply region_id_forget.
  - rewrite get_n_failed_run by done. apply region_id_forget.
  - rewrite _get_status_string_run by done. apply counted_forget.
  - rewrite has_result_run by done. apply region_id_forget.
  - rewrite get_result_run by done.
    destruct (_results (job w) !! arg); apply region_id_forget.
  - rewrite get_results_run by done. apply region_id_forget.
  - rewrite has_exception_run by done. apply region_id_forget.
  - rewrite get_exception_run by done.
    destruct (_exceptions (job w) !! arg); apply region_id_forget.
  - rewrite get_exceptions_run by done. apply region_id_forget.
Qed.

(** X6.  [get_result] returns the stored result when [has_result] answers
    [True], and raises [KeyError] when it answers [False]. *)
Theorem get_result_needs_result arg w :
  quiet w →
  ∃ (b : bool) w',
    has_result arg w = Ok b w' ∧
    (b = true → ∃ x, _results (job w) !! arg = Some x ∧
                     get_result arg w = Ok x w') ∧
    (b = false → get_result arg w = Raise KeyError w').
Proof.
  intros Hq. rewrite has_result_run, get_result_run by done.
  eexists _, _. split; [done|].
  destruct (_results (job w) !! arg) as [x|] eqn:Hx.
  - split; [by exists x|]. intros Hb. apply bool_decide_eq_false_1 in Hb.
    destruct Hb. apply elem_of_dom. by exists x.
  - split; [|done]. intros Hb. apply bool_decide_eq_true_1 in Hb.
    apply elem_of_dom in Hb as [x Hx']. congruence.
Qed.

(** X7.  [get_exception] returns the recorded exception when
    [has_exception] answers [True], and raises [KeyError] when it answers
    [False]: for an input that was not processed, is still in process, or
    succeeded. *)
Theorem get_exception_needs_exception arg w :
  quiet w →
  ∃ (b : bool) w',
    has_exception arg w = Ok b w' ∧
    (b = true → ∃ e, _exceptions (job w) !! arg = Some e ∧
                     get_exception arg w = Ok e w') ∧
    (b = false → get_exception arg w = Raise KeyError w').
Proof.
  intros Hq. rewrite has_exception_run, get_exception_run by done.
  eexists _, _. split; [done|].
  destruct (_exceptions (job w) !! arg) as [x|] eqn:Hx.
  - split; [by exists x|]. intros Hb. apply bool_decide_eq_false_1 in Hb.
    destruct Hb. apply elem_of_dom. by exists x.
  - split; [|done]. intros Hb. apply bool_decide_eq_true_1 in Hb.
    apply elem_of_dom in Hb as [x Hx']. congruence.
Qed.

(** X8.  The dictionaries returned by [get_results] and [get_exceptions]
    agree with the single accessors and with the counters: an input has the
    value [x] in the copy exactly when [get_result] returns [x], and
    [get_n_finished] is the size of the copy; likewise for the
    exceptions. *)
Theorem snapshots_agree_with_lookups w :
  quiet w →
  (∃ m w', get_results w = Ok m w' ∧
           (∀ arg x, m !! arg = Some x ↔ get_result arg w = Ok x w') ∧
           get_n_finished w = Ok (Z.of_nat (size m)) w') ∧
  (∃ m w', get_exceptions w = Ok m w' ∧
           (∀ arg e, m !! arg = Some e ↔ get_exception arg w = Ok e w') ∧
           get_n_failed w = Ok (Z.of_nat (size m)) w').
Proof.
  intros Hq. split.
  - rewrite get_results_run, get_n_finished_run by done.
    eexists _, _. split; [done|]. split; [|done].
    intros arg x. rewrite get_result_run by done.
    destruct (_results (job w) !! arg) as [y|]; split; intros Hy;
      try done; by injection Hy as ->.
  - rewrite get_exceptions_run, get_n_failed_run by done.
    eexists _, _. split; [done|]. split; [|done].
    intros arg x. rewrite get_exception_run by done.
    destruct (_exceptions (job w) !! arg) as [y|]; split; intros Hy;
      try done; by injection Hy as ->.
Qed.

(** ** The size of the pool *)

(** X9.  [set_n_threads] with a target that is not above the number of
    threads in the dict, and so [kill], stops nothing by itself: it stores
    the target, starts no thread and removes none from the dict; the queue
    is as before. *)
Theorem shrinking_target_stops_no_thread (n : Z) w :
  quiet w →
  (n ≤ Z.of_nat (size (_threads (job w))))%Z →
  ∃ w', set_n_threads n w = Ok () w' ∧
        (n = 0%Z → kill w = Ok () w') ∧
        job w' = with_n_threads n (job w) ∧
        spawned w' = spawned w ∧
        locks w' = locks w.
Proof.
  intros Hq Hn. unfold kill. exists (started (on_job (with_n_threads n) w)).
  split; [by apply set_n_threads_run|].
  split; [intros ->; by apply set_n_threads_run|].
  unfold started.
  assert (Hnew : new_threads (on_job (with_n_threads n) w) = 0).
  { unfold new_threads. cbn. lia. }
  rewrite Hnew. done.
Qed.

(** ** The worker at the gate *)

Lemma through_gate_job w :
  job (through_gate w)
  = with_n_paused (_n_paused (job w) - 1)%Z (job w).
Proof. done. Qed.

Lemma not_paused w : paused w = false → bool_decide (_block ∈ locks w) = false.
Proof. done. Qed.

(** X10.  A worker that passes the gate while the dict holds more threads
    than the target leaves: it removes itself from the dict and returns
    without taking an item from the queue. *)
Theorem over_target_worker_exits (tid : string) w :
  quiet w → paused w = false →
  (Z.of_nat (size (_threads (job w))) > _n_threads (job w))%Z →
  tid ∈ dom (_threads (job w)) →
  ∃ w', worker_dequeue tid w = Ok WExited w' ∧
        _threads (job w') = delete tid (_threads (job w)) ∧
        _queue (job w') = _queue (job w) ∧
        _n_paused (job w') = (_n_paused (job w) - 1)%Z ∧
        history w' = history w ∧ locks w' = locks w.
Proof.
  intros Hq Hp Hover Htid. rewrite worker_dequeue_run by done.
  unfold dequeue_outcome. rewrite (not_paused w Hp). cbn zeta.
  assert (Ho : over_target (through_gate w) = true).
  { unfold over_target. rewrite through_gate_job. cbn. lia. }
  rewrite Ho. unfold leave. rewrite through_gate_job.
  cbn [_threads with_n_paused]. rewrite bool_decide_eq_true_2 by done.
  eexists. split; [done|]. done.
Qed.

(** X11.  A worker that finds the queue empty leaves as well.  When its id
    is no longer a key of the dict, which happens when two threads were
    given the same id, the deletion raises [KeyError]. *)
Theorem idle_worker_exits (tid : string) w :
  quiet w → paused w = false →
  (Z.of_nat (size (_threads (job w))) ≤ _n_threads (job w))%Z →
  _queue (job w) = [] →
  ∃ w', worker_dequeue tid w =
          (if bool_decide (tid ∈ dom (_threads (job w)))
           then Ok WExited w' else Raise KeyError w') ∧
        _threads (job w') = delete tid (_threads (job w)) ∧
        _n_paused (job w') = (_n_paused (job w) - 1)%Z ∧
        history w' = history w ∧ locks w' = locks w.
Proof.
  intros Hq Hp Hfit Hempty. rewrite worker_dequeue_run by done.
  unfold dequeue_outcome. rewrite (not_paused w Hp). cbn zeta.
  assert (Ho : over_target (through_gate w) = false).
  { unfold over_target. rewrite through_gate_job. cbn. lia. }
  rewrite Ho.
  assert (Hq0 : _queue (job (region _tlock (λ w, w) (through_gate w))) = [])
    by done.
  rewrite Hq0. unfold leave.
  assert (Hth : _threads (job (region _tlock (λ w, w) (through_gate w)))
                = _threads (job w)) by done.
  rewrite Hth. case_bool_decide as Hin.
  - eexists. split; [done|]. done.
  - eexists. split; [done|]. split; [|done].
    symmetry. apply delete_id. by apply not_elem_of_dom.
Qed.

(** X12.  Otherwise the worker takes the item at the head of the queue:
    the queue is served first in, first out, and nothing else in the job
    changes but the paused counter. *)
Theorem worker_takes_head (tid : string) arg (attempt : Z)
    (q : list (Input * Z)) w :
  quiet w → paused w = false →
  (Z.of_nat (size (_threads (job w))) ≤ _n_threads (job w))%Z →
  _queue (job w) = (arg, attempt) :: q →
  ∃ w', worker_dequeue tid w = Ok (WProcessing arg attempt) w' ∧
        job w' = with_queue q
                   (with_n_paused (_n_paused (job w) - 1)%Z (job w)) ∧
        history w' = history w ++ [EvGet arg attempt] ∧
        locks w' = locks w.
Proof.
  intros Hq Hp Hfit Hhead. rewrite worker_dequeue_run by done.
  unfold dequeue_outcome. rewrite (not_paused w Hp). cbn zeta.
  assert (Ho : over_target (through_gate w) = false).
  { unfold over_target. rewrite through_gate_job. cbn. lia. }
  rewrite Ho.
  assert (Hq0 : _queue (job (region _tlock (λ w, w) (through_gate w)))
                = (arg, attempt) :: q) by done.
  rewrite Hq0. eexists. split; [done|]. done.
Qed.

(** ** Pausing *)



(** X14.  On a job that is not paused, [pause] followed by [resume] gives
    back the locks and the job as they were; a second [pause] in between
    changes nothing, and a second [resume] raises [RuntimeError]. *)
Theorem pause_resume_round_trip w :
  paused w = false →
  ∃ w1 w2, pause w = Ok () w1 ∧ pause w1 = Ok () w1 ∧
           resume w1 = Ok () w2 ∧
           locks w2 = locks w ∧ job w2 = job w ∧
           resume w2 = Raise RuntimeError w2.
Proof.
  intros Hp. rewrite pause_run, Hp.
  assert (Hfree : _block ∉ locks w).
  { unfold paused in Hp. by apply bool_decide_eq_false_1 in Hp. }
  assert (Hp1 : paused (acquired _block w) = true).
  { unfold paused. apply bool_decide_eq_true_2. cbn. apply elem_of_cons.
    by left. }
  exists (acquired _block w).
  exists (with_locks (filter (λ x, x ≠ _block) (locks (acquired _block w)))
            (acquired _block w)).
  split; [done|]. split; [by rewrite pause_run, Hp1|].
  split; [by rewrite resume_run, Hp1|].
  assert (Hl : filter (λ x, x ≠ _block) (locks (acquired _block w))
               = locks w) by by apply filter_ne_cons.
  split; [exact Hl|]. split; [done|].
  rewrite resume_run. unfold paused at 1. cbn [locks with_locks].
  rewrite Hl. by rewrite bool_decide_eq_false_2.
Qed.

(** ** Submitting again *)

Lemma started_inputs w : _inputs (job (started w)) = _inputs (job w).
Proof. by rewrite started_job. Qed.

Lemma started_queue w : _queue (job (started w)) = _queue (job w).
Proof. by rewrite started_job. Qed.

Lemma started_results w : _results (job (started w)) = _results (job w).
Proof. by rewrite started_job. Qed.

Lemma add_forced_inputs arg w :
  _inputs (job (add_effect arg true w)) = {[arg]} ∪ _inputs (job w).
Proof.
  unfold add_effect, accepts.
  by rewrite orb_true_r, job_with_locks, started_inputs.
Qed.

Lemma retry_clear_job arg w :
  job (retry_clear arg w)
  = with_exceptions (delete arg (_exceptions (job w))) (job w).
Proof.
  unfold retry_clear. rewrite job_with_locks.
  case_bool_decide as Hin; [done|]. rewrite job_acquired.
  rewrite delete_id by by apply not_elem_of_dom. by destruct (job w).
Qed.

Lemma retry_effect_fields arg w :
  _queue (job (retry_effect arg w)) = _queue (job w) ++ [(arg, 1%Z)] ∧
  _inputs (job (retry_effect arg w)) = {[arg]} ∪ _inputs (job w) ∧
  _results (job (retry_effect arg w)) = _results (job w) ∧
  _exceptions (job (retry_effect arg w)) = delete arg (_exceptions (job w)).
Proof.
  unfold retry_effect.
  destruct (add_forced_queue arg (retry_clear arg w)) as [-> ->].
  rewrite add_forced_inputs, retry_clear_job.
  split; [done|]. split; [done|]. split; [done|].
  apply retry_effect_exceptions.
Qed.

(** X15.  [retry] of an input whose exception is recorded removes the
    exception and puts the item [(arg, 1)] at the end of the queue; the
    results are untouched. *)
Theorem retry_clears_and_requeues arg (e : PyExn) w :
  quiet w →
  _exceptions (job w) !! arg = Some e →
  ∃ w', retry arg w = Ok () w' ∧
        _exceptions (job w') !! arg = None ∧
        size (_exceptions (job w')) + 1 = size (_exceptions (job w)) ∧
        _queue (job w') = _queue (job w) ++ [(arg, 1%Z)] ∧
        _results (job w') = _results (job w) ∧
        locks w' = locks w.
Proof.
  intros Hq He. rewrite retry_run by done. eexists. split; [done|].
  destruct (retry_effect_fields arg w) as (-> & _ & -> & ->).
  split; [apply lookup_delete_eq|].
  split; [|split; [done|split; [done|apply retry_effect_locks]]].
  rewrite <- (insert_delete_id (_exceptions (job w)) arg e He) at 2.
  rewrite map_size_insert_None by apply lookup_delete_eq. lia.
Qed.

Lemma list_to_set_cons_union b (args : list Input) (X : gset Input) :
  list_to_set args ∪ ({[b]} ∪ X) = list_to_set (b :: args) ∪ X.
Proof. set_solver. Qed.

Lemma list_to_set_nil_union (X : gset Input) :
  X = list_to_set [] ∪ X.
Proof. set_solver. Qed.

Lemma unless_in_cons {A} a b (args : list Input) (x y : option A) :
  (if bool_decide (a ∈ args) then None
   else if bool_decide (a = b) then None else y) =
  (if bool_decide (a ∈ b :: args) then None
   else y).
Proof.
  destruct (decide (a = b)) as [->|Hne].
  - rewrite (bool_decide_eq_true_2 (b ∈ b :: args)) by set_solver.
    rewrite (bool_decide_eq_true_2 (b = b)) by done. by case_bool_decide.
  - rewrite (bool_decide_eq_false_2 (a = b)) by done.
    by rewrite (bool_decide_ext (a ∈ args) (a ∈ b :: args)) by set_solver.
Qed.

Lemma lookup_delete_if {A} (m : gmap Input A) a b :
  delete b m !! a = if bool_decide (a = b) then None else m !! a.
Proof.
  case_bool_decide as Hab.
  - subst. apply lookup_delete_eq.
  - by apply lookup_delete_ne.
Qed.

Lemma fresh_cons_new a b (args : list Input) (X : gset Input) :
  b ∉ X →
  (if bool_decide (b = a) then 1 else 0) +
  (if bool_decide (a ∈ args ∧ a ∉ {[b]} ∪ X) then 1 else 0) =
  (if bool_decide (a ∈ b :: args ∧ a ∉ X) then 1 else 0).
Proof.
  intros Hb. destruct (decide (b = a)) as [->|Hne].
  - rewrite (bool_decide_eq_true_2 (a = a)) by done.
    rewrite (bool_decide_eq_false_2 (a ∈ args ∧ _)) by set_solver.
    by rewrite (bool_decide_eq_true_2 (a ∈ a :: args ∧ _)) by set_solver.
  - rewrite (bool_decide_eq_false_2 (b = a)) by done.
    by rewrite (bool_decide_ext (a ∈ args ∧ a ∉ {[b]} ∪ X)
                  (a ∈ b :: args ∧ a ∉ X)) by set_solver.
Qed.

Lemma fresh_cons_known a b (args : list Input) (X : gset Input) :
  b ∈ X →
  bool_decide (a ∈ args ∧ a ∉ X) = bool_decide (a ∈ b :: args ∧ a ∉ X).
Proof. intros Hb. apply bool_decide_ext. set_solver. Qed.

Lemma retry_many_effect_fields (args : list Input) w :
  _queue (job (retry_many_effect args w))
    = _queue (job w) ++ first_attempts args ∧
  _inputs (job (retry_many_effect args w))
    = list_to_set args ∪ _inputs (job w) ∧
  _results (job (retry_many_effect args w)) = _results (job w) ∧
  (∀ a, _exceptions (job (retry_many_effect args w)) !! a =
        if bool_decide (a ∈ args) then None else _exceptions (job w) !! a).
Proof.
  revert w. induction args as [|b args IH]; intros w.
  - cbn [retry_many_effect first_attempts fmap list_fmap].
    rewrite app_nil_r. split; [done|].
    split; [apply list_to_set_nil_union|]. split; [done|].
    intros a.
    by rewrite (bool_decide_eq_false_2 (a ∈ [])) by apply not_elem_of_nil.
  - cbn [retry_many_effect].
    destruct (IH (retry_effect b w)) as (Hq & Hi & Hr & Hexc).
    destruct (retry_effect_fields b w) as (Hbq & Hbi & Hbr & Hbe).
    split; [by rewrite Hq, Hbq, <- app_assoc|].
    split; [rewrite Hi, Hbi; apply list_to_set_cons_union|].
    split; [by rewrite Hr, Hbr|].
    intros a. rewrite Hexc, Hbe, lookup_delete_if.
    apply (unless_in_cons a b args None).
Qed.

(** X16.  [retry_many] puts one item [(a, 1)] for each element of its
    argument, in order and as often as the element occurs, and removes the
    exceptions of these inputs and of no other. *)
Theorem retry_many_requeues_each (args : list Input) w :
  quiet w →
  ∃ w', retry_many args w = Ok () w' ∧
        _queue (job w') = _queue (job w) ++ first_attempts args ∧
        _inputs (job w') = list_to_set args ∪ _inputs (job w) ∧
        _results (job w') = _results (job w) ∧
        (∀ a, _exceptions (job w') !! a =
              if bool_decide (a ∈ args) then None
              else _exceptions (job w) !! a) ∧
        locks w' = locks w.
Proof.
  intros Hq. rewrite retry_many_run by done. eexists. split; [done|].
  destruct (retry_many_effect_fields args w) as (H1 & H2 & H3 & H4).
  split; [done|]. split; [done|]. split; [done|]. split; [done|].
  apply retry_many_effect_locks.
Qed.

Lemma submit_all_forced_fields (args : list Input) w :
  _queue (job (submit_all true args w))
    = _queue (job w) ++ first_attempts args ∧
  _inputs (job (submit_all true args w))
    = list_to_set args ∪ _inputs (job w) ∧
  _results (job (submit_all true args w)) = _results (job w) ∧
  _exceptions (job (submit_all true args w)) = _exceptions (job w).
Proof.
  revert w. induction args as [|b args IH]; intros w.
  - cbn [submit_all first_attempts fmap list_fmap]. rewrite app_nil_r.
    split; [done|]. split; [apply list_to_set_nil_union|done].
  - cbn [submit_all].
    destruct (IH (submit true b w)) as (Hq & Hi & Hr & He).
    assert (Hs : submit true b w = enqueue b w).
    { unfold submit, accepts. by rewrite orb_true_r. }
    rewrite Hs in *.
    split; [rewrite Hq; cbn; by rewrite <- app_assoc|].
    split; [rewrite Hi; apply list_to_set_cons_union|].
    split; [by rewrite Hr|by rewrite He].
Qed.

Lemma drain_fields (args : list Input) w :
  _queue (job (drain args w)) = _queue (job w) ∧
  _inputs (job (drain args w)) = _inputs (job w) ∧
  _results (job (drain args w)) = _results (job w) ∧
  (∀ a, _exceptions (job (drain args w)) !! a =
        if bool_decide (a ∈ args) then None else _exceptions (job w) !! a).
Proof.
  revert w. induction args as [|b args IH]; intros w.
  - cbn [drain]. split; [done|]. split; [done|]. split; [done|].
    intros a.
    by rewrite (bool_decide_eq_false_2 (a ∈ [])) by apply not_elem_of_nil.
  - cbn [drain].
    destruct (IH (forget_exception b w)) as (Hq & Hi & Hr & Hexc).
    split; [by rewrite Hq|]. split; [by rewrite Hi|].
    split; [by rewrite Hr|].
    intros a. rewrite Hexc.
    change (_exceptions (job (forget_exception b w)))
      with (delete b (_exceptions (job w))).
    rewrite lookup_delete_if.
    apply (unless_in_cons a b args None).
Qed.

(** X17.  [retry_all] empties the exceptions and puts one item [(a, 1)] at
    the end of the queue for every input that had failed, each once, in
    some order of these inputs; the results are untouched and every lock is
    free again at the end. *)
Theorem retry_all_requeues_failures w :
  quiet w →
  ∃ w' (keys : list Input),
    retry_all w = Ok () w' ∧
    _exceptions (job w') = ∅ ∧
    _queue (job w') = _queue (job w) ++ first_attempts keys ∧
    NoDup keys ∧
    (∀ a, a ∈ keys ↔ a ∈ dom (_exceptions (job w))) ∧
    _inputs (job w') = list_to_set keys ∪ _inputs (job w) ∧
    _results (job w') = _results (job w) ∧
    locks w' = locks w.
Proof.
  intros Hq. rewrite retry_all_run by done.
  exists (retry_all_effect w), (failed_inputs w). split; [done|].
  set (args := failed_inputs w).
  assert (Hjob : job (retry_all_effect w)
                 = job (started (with_locks (locks (drain args (acquired _elock w)))
                          (submit_all true args
                             (acquired _ilock (drain args (acquired _elock w))))))).
  { done. }
  rewrite Hjob, started_job.
  cbn [_exceptions _queue _inputs _results with_threads].
  rewrite job_with_locks.
  destruct (submit_all_forced_fields args
              (acquired _ilock (drain args (acquired _elock w))))
    as (-> & -> & -> & ->).
  rewrite !job_acquired.
  destruct (drain_fields args (acquired _elock w)) as (-> & -> & -> & Hexc).
  rewrite !job_acquired.
  split.
  { apply map_eq. intros a. rewrite Hexc, lookup_empty, job_acquired.
    case_bool_decide as Hin; [done|].
    apply not_elem_of_dom. by rewrite <- elem_of_failed_inputs. }
  split; [done|]. split; [apply failed_inputs_NoDup|].
  split; [intros a; apply elem_of_failed_inputs|]. done.
Qed.

Lemma submit_all_unforced_fields (args : list Input) w :
  (∀ a, queued a (_queue (job (submit_all false args w))) =
        queued a (_queue (job w)) +
        (if bool_decide (a ∈ args ∧ a ∉ _inputs (job w)) then 1 else 0)) ∧
  _inputs (job (submit_all false args w))
    = list_to_set args ∪ _inputs (job w).
Proof.
  revert w. induction args as [|b args IH]; intros w.
  - cbn [submit_all]. split; [|apply list_to_set_nil_union].
    intros a. rewrite bool_decide_eq_false_2; [lia|].
    intros [Hin _]. by apply not_elem_of_nil in Hin.
  - cbn [submit_all].
    destruct (IH (submit false b w)) as (Hq & Hi).
    unfold submit, accepts in Hq, Hi |- *. rewrite orb_false_r in Hq, Hi |- *.
    destruct (bool_decide_reflect (b ∉ _inputs (job w))) as [Hnew|Hold].
    + split; [|rewrite Hi; apply list_to_set_cons_union].
      intros a. rewrite Hq.
      change (_queue (job (enqueue b w)))
        with (_queue (job w) ++ [(b, 1%Z)]).
      change (_inputs (job (enqueue b w)))
        with ({[b]} ∪ _inputs (job w)).
      rewrite queued_app, queued_one.
      rewrite <- (fresh_cons_new a b args (_inputs (job w)) Hnew). lia.
    + apply dec_stable in Hold.
      split.
      * intros a. rewrite Hq.
        by rewrite (fresh_cons_known a b args (_inputs (job w)) Hold).
      * rewrite Hi. rewrite <- list_to_set_cons_union.
        rewrite (subseteq_union_1_L {[b]} (_inputs (job w))); [done|].
        by apply singleton_subseteq_l.
Qed.

(** X18.  [add_many] without [force] puts exactly one item for each input
    of its argument that is not in the input set yet, however often it
    occurs in the argument, and none for the others; with [force] it puts
    one item for each element.  Afterwards all of them are in the input
    set. *)
Theorem add_many_skips_known (args : list Input) w :
  quiet w →
  (∃ w', add_many args false w = Ok () w' ∧
         (∀ a, queued a (_queue (job w')) =
               queued a (_queue (job w)) +
               (if bool_decide (a ∈ args ∧ a ∉ _inputs (job w))
                then 1 else 0)) ∧
         _inputs (job w') = list_to_set args ∪ _inputs (job w)) ∧
  (∃ w', add_many args true w = Ok () w' ∧
         _queue (job w') = _queue (job w) ++ first_attempts args ∧
         _inputs (job w') = list_to_set args ∪ _inputs (job w)).
Proof.
  intros Hq. split.
  - rewrite add_many_run by done. eexists. split; [done|].
    unfold add_many_effect. rewrite started_queue, started_inputs.
    rewrite job_with_locks.
    destruct (submit_all_unforced_fields args (acquired _ilock w))
      as (H1 & H2).
    by rewrite job_acquired in *.
  - rewrite add_many_run by done. eexists. split; [done|].
    unfold add_many_effect. rewrite started_queue, started_inputs.
    rewrite job_with_locks.
    destruct (submit_all_forced_fields args (acquired _ilock w))
      as (H1 & H2 & _).
    by rewrite job_acquired in *.
Qed.

(** ** Invariants of every schedule *)

Lemma attempts_positive_world w :
  attempts_positive (view w) →
  Forall (λ it, (1 ≤ it.2)%Z) (_queue (job w)) ∧
  (∀ h (tid : string) arg (n : Z),
     spawned w !! h = Some (mkThread tid (WProcessing arg n)) → (1 ≤ n)%Z).
Proof.
  intros [Hqu Hpcs]. split; [done|]. intros h tid arg n Hh.
  assert (Hpc : v_pcs (view w) !! h = Some (WProcessing arg n))
    by by apply (view_pc h tid).
  by apply (Forall_lookup_1 _ _ _ _ Hpcs) in Hpc.
Qed.

(** X19.  Along every schedule from a new job, every attempt number in the
    queue and in a worker is at least one. *)
Theorem attempts_stay_positive (rnd : nat → nat) (nt na : Z)
    (ls : list label) w :
  exec ls (World_init rnd nt na) = Some w →
  Forall (λ it, (1 ≤ it.2)%Z) (_queue (job w)) ∧
  (∀ h (tid : string) arg (n : Z),
     spawned w !! h = Some (mkThread tid (WProcessing arg n)) → (1 ≤ n)%Z).
Proof.
  intros Hex. apply exec_run in Hex as [Hrun _].
  apply attempts_positive_world.
  apply (run_invariant (λ _, True) attempts_positive _ _
           (λ k u u' _ Hm, move_attempts_positive k u u' Hm) Hrun).
  apply attempts_positive_init.
Qed.

Lemma registered_pcs_grow (X X' : gset Input) (pcs : list wstate) :
  (∀ a, a ∈ X → a ∈ X') →
  Forall (λ pc, match pc with WProcessing a _ => a ∈ X | _ => True end) pcs →
  Forall (λ pc, match pc with WProcessing a _ => a ∈ X' | _ => True end) pcs.
Proof.
  intros Hsub Hall. eapply Forall_impl; [exact Hall|].
  intros [| | |a n| |]; try done. apply Hsub.
Qed.

Lemma registered_enqueue arg v : registered v → registered (v_enqueue arg v).
Proof.
  intros (Hqu & Hpcs & Hres & Hexc).
  assert (Hsub : ∀ a, a ∈ v_inputs v → a ∈ {[arg]} ∪ v_inputs v)
    by (intros a Ha; apply elem_of_union; by right).
  split; [|split; [|split]]; cbn [v_enqueue v_queue v_inputs v_pcs v_results
                                  v_exceptions].
  - apply Forall_app. split.
    + eapply Forall_impl; [exact Hqu|]. intros it. apply Hsub.
    + constructor; [|constructor]. apply elem_of_union. left.
      by apply elem_of_singleton.
  - by apply (registered_pcs_grow (v_inputs v)).
  - intros a Ha. by apply Hsub, Hres.
  - intros a Ha. by apply Hsub, Hexc.
Qed.

Lemma registered_idle h pc' v :
  idle pc' = true → registered v →
  registered (v_pcs_to (<[h := pc']> (v_pcs v)) v).
Proof.
  intros Hidle (Hqu & Hpcs & Hres & Hexc).
  split; [done|]. split; [|done]. cbn [v_pcs_to v_pcs v_inputs].
  apply Forall_insert; [done|]. by destruct pc'.
Qed.

Lemma move_registered k v v' : move k v v' → registered v → registered v'.
Proof.
  intros Hm Hreg.
  destruct Hm as [a v Hnew|a v|a v Hfailed|n v|v|h pc pc' v Hh Hpc Hpc'
                  |h a n q pc v Hh Hpc Hq'|h a n r pc' v Hh Hpc'].
  - by apply registered_enqueue.
  - by apply registered_enqueue.
  - apply registered_enqueue. destruct Hreg as (Hqu & Hpcs & Hres & Hexc).
    split; [done|]. split; [done|]. split; [done|].
    cbn [v_clear v_exceptions v_inputs]. intros b Hb. apply Hexc.
    apply elem_of_dom in Hb as [e He]. apply lookup_delete_Some in He as [_ He].
    apply elem_of_dom. by exists e.
  - done.
  - destruct Hreg as (Hqu & Hpcs & Hres & Hexc).
    split; [done|]. split; [|done]. cbn [v_pcs_to v_pcs v_inputs].
    apply Forall_app. split; [done|]. by constructor.
  - by apply registered_idle.
  - destruct Hreg as (Hqu & Hpcs & Hres & Hexc).
    rewrite Hq' in Hqu. apply Forall_cons in Hqu as [Ha Hqu].
    split; [done|]. split; [|done].
    cbn [v_pcs_to v_pcs v_take v_inputs]. by apply Forall_insert.
  - assert (Ha : a ∈ v_inputs v).
    { destruct Hreg as (_ & Hpcs & _).
      by apply (Forall_lookup_1 _ _ _ _ Hpcs) in Hh. }
    assert (Hfin : registered (v_finish a n r v)).
    { destruct Hreg as (Hqu & Hpcs & Hres & Hexc).
      unfold v_finish. destruct r as [x|e].
      - split; [done|]. split; [done|]. split; [|done].
        cbn [v_results v_inputs]. intros b Hb.
        apply elem_of_dom in Hb as [y Hy].
        apply lookup_insert_Some in Hy as [[<- _]|[_ Hy]]; [done|].
        apply Hres, elem_of_dom. by exists y.
      - destruct (isinstance_Empty e || negb (isinstance_Exception e));
          [done|].
        destruct (n <? v_n_attempts v)%Z.
        + split; [|done]. cbn [v_queue v_inputs].
          apply Forall_app. split; [done|]. by repeat constructor.
        + split; [done|]. split; [done|]. split; [done|].
          cbn [v_exceptions v_inputs]. intros b Hb.
          apply elem_of_dom in Hb as [y Hy].
          apply lookup_insert_Some in Hy as [[<- _]|[_ Hy]]; [done|].
          apply Hexc, elem_of_dom. by exists y. }
    assert (Hin : v_inputs (v_finish a n r v) = v_inputs v).
    { unfold v_finish. destruct r as [x|e]; [done|].
      destruct (_ || _); [done|]. by destruct (_ <? _)%Z. }
    assert (Hpcs' : v_pcs (v_finish a n r v) = v_pcs v).
    { unfold v_finish. destruct r as [x|e]; [done|].
      destruct (_ || _); [done|]. by destruct (_ <? _)%Z. }
    rewrite <- Hpcs'. by apply registered_idle.
Qed.

(** X20.  Along every schedule from a new job, every input that is in the
    queue, in a worker, in the results or in the exceptions is in the input
    set: nothing is processed or stored that was not submitted. *)
Theorem stored_inputs_are_registered (rnd : nat → nat) (nt na : Z)
    (ls : list label) w :
  exec ls (World_init rnd nt na) = Some w →
  (∀ it, it ∈ _queue (job w) → it.1 ∈ _inputs (job w)) ∧
  (∀ h (tid : string) arg (n : Z),
     spawned w !! h = Some (mkThread tid (WProcessing arg n)) →
     arg ∈ _inputs (job w)) ∧
  (∀ arg, arg ∈ dom (_results (job w)) → arg ∈ _inputs (job w)) ∧
  (∀ arg, arg ∈ dom (_exceptions (job w)) → arg ∈ _inputs (job w)).
Proof.
  intros Hex. apply exec_run in Hex as [Hrun _].
  assert (Hreg : registered (view w)).
  { apply (run_invariant (λ _, True) registered _ _
             (λ k u u' _ Hm, move_registered k u u' Hm) Hrun).
    split; [constructor|]. split; [constructor|].
    split; intros a Ha; cbn in Ha; by apply elem_of_dom in Ha as [? ?]. }
  destruct Hreg as (Hqu & Hpcs & Hres & Hexc).
  split; [|split; [|done]].
  - intros it Hit. by apply (proj1 (Forall_forall _ _) Hqu).
  - intros h tid arg n Hh.
    assert (Hpc : v_pcs (view w) !! h = Some (WProcessing arg n))
      by by apply (view_pc h tid).
    by apply (Forall_lookup_1 _ _ _ _ Hpcs) in Hpc.
Qed.

(** ** The paused counter *)

Lemma started_n_paused w : _n_paused (job (started w)) = _n_paused (job w).
Proof. by rewrite started_job. Qed.

Lemma submit_all_n_paused (force : bool) (args : list Input) w :
  _n_paused (job (submit_all force args w)) = _n_paused (job w).
Proof.
  revert w. induction args as [|a args IH]; intros w; [done|].
  cbn [submit_all]. rewrite IH. unfold submit. by destruct (accepts force a w).
Qed.

Lemma drain_n_paused (args : list Input) w :
  _n_paused (job (drain args w)) = _n_paused (job w).
Proof.
  revert w. induction args as [|a args IH]; intros w; [done|].
  cbn [drain]. by rewrite IH.
Qed.

Lemma add_effect_n_paused arg (force : bool) w :
  _n_paused (job (add_effect arg force w)) = _n_paused (job w).
Proof.
  unfold add_effect. rewrite job_with_locks.
  destruct (accepts force arg w); [|done]. by rewrite started_n_paused.
Qed.

Lemma add_many_effect_n_paused (args : list Input) (force : bool) w :
  _n_paused (job (add_many_effect args force w)) = _n_paused (job w).
Proof.
  unfold add_many_effect.
  by rewrite started_n_paused, job_with_locks, submit_all_n_paused.
Qed.

Lemma retry_effect_n_paused arg w :
  _n_paused (job (retry_effect arg w)) = _n_paused (job w).
Proof.
  unfold retry_effect. by rewrite add_effect_n_paused, retry_clear_job.
Qed.

Lemma retry_many_effect_n_paused (args : list Input) w :
  _n_paused (job (retry_many_effect args w)) = _n_paused (job w).
Proof.
  revert w. induction args as [|a args IH]; intros w; [done|].
  cbn [retry_many_effect]. by rewrite IH, retry_effect_n_paused.
Qed.

Lemma retry_all_effect_n_paused w :
  _n_paused (job (retry_all_effect w)) = _n_paused (job w).
Proof.
  unfold retry_all_effect, region. rewrite job_with_locks.
  by rewrite add_many_effect_n_paused, drain_n_paused.
Qed.

Lemma client_effect_n_paused (c : call) w :
  _n_paused (job (client_effect c w)) = _n_paused (job w).
Proof.
  destruct c; cbn [client_effect].
  - apply add_effect_n_paused.
  - apply add_many_effect_n_paused.
  - apply retry_effect_n_paused.
  - apply retry_many_effect_n_paused.
  - apply retry_all_effect_n_paused.
  - by rewrite started_n_paused.
  - done.
  - by rewrite started_n_paused.
  - by destruct (paused w).
  - by destruct (paused w).
Qed.

Lemma call_kinds (c : call) v k : label_kinds (Call c) v k → client_kind k.
Proof.
  destruct c as [a f|args f|a|args| |n|n| | |]; cbn [label_kinds].
  - intros [->|Hk]; [done|]. destruct f; by subst.
  - intros [->|(a & _ & Hk)]; [done|]. destruct f; by subst.
  - intros [->|Hk]; [done|]. case_bool_decide; by subst.
  - intros [->|(a & _ & [->|[_ ->]])]; done.
  - intros [->|(a & _ & ->)]; done.
  - by intros ->.
  - by intros ->.
  - by intros ->.
  - done.
  - done.
Qed.

Lemma move_gate_count k v v' :
  client_kind k → move k v v' →
  count at_gate (v_pcs v') = count at_gate (v_pcs v).
Proof.
  intros Hk Hm.
  destruct Hm as [a v Hnew|a v|a v Hfailed|n v|v|h pc pc' v Hh Hpc Hpc'
                  |h a n q pc v Hh Hpc Hq'|h a n r pc' v Hh Hpc'];
    try done.
  cbn [v_pcs_to v_pcs]. rewrite count_snoc. cbn. lia.
Qed.

Lemma settle_gate_counted h (tid : string) pc0 (o : outcome wstate)
    (d : Z) w w' :
  spawned w !! h = Some (mkThread tid pc0) →
  settle h o = Some w' →
  match o with
  | Ok pc w1 =>
      spawned w1 = spawned w ∧
      _n_paused (job w1) = (_n_paused (job w) + d)%Z ∧
      d = ((if at_gate pc then 1 else 0) - (if at_gate pc0 then 1 else 0))%Z
  | Raise _ w1 =>
      spawned w1 = spawned w ∧
      _n_paused (job w1) = (_n_paused (job w) + d)%Z ∧
      d = (0 - (if at_gate pc0 then 1 else 0))%Z
  | Blocked _ _ => True
  end →
  gate_counted w → gate_counted w'.
Proof.
  intros Hh Hs Ho Hg. unfold gate_counted in *.
  assert (Hpc : (t_pc <$> spawned w) !! h = Some pc0)
    by by rewrite list_lookup_fmap, Hh.
  destruct o as [pc w1|e w1|l w1]; cbn in Hs; [| |done];
    injection Hs as <-; destruct Ho as (Hsp & Hn & Hd);
    unfold set_pc; cbn [job with_spawned spawned];
    rewrite fmap_alter_pc, Hsp, Hn, Hg.
  - pose proof (count_insert at_gate _ h pc0 pc Hpc) as Hc.
    destruct (at_gate pc), (at_gate pc0); lia.
  - pose proof (count_insert at_gate _ h pc0 (WDied e) Hpc) as Hc.
    cbn [at_gate] in Hc. destruct (at_gate pc0); lia.
Qed.

Lemma leave_gate (tid : string) w :
  match leave tid w with
  | Ok pc w1 =>
      spawned w1 = spawned w ∧ _n_paused (job w1) = _n_paused (job w) ∧
      at_gate pc = false
  | Raise _ w1 =>
      spawned w1 = spawned w ∧ _n_paused (job w1) = _n_paused (job w)
  | Blocked _ _ => True
  end.
Proof. unfold leave. by case_bool_decide. Qed.

Lemma step_gate_counted lb w w' :
  quiet w → step lb w = Some w' → gate_counted w → gate_counted w'.
Proof.
  intros Hq Hstep Hg. destruct lb as [c|h|h|h r].
  - pose proof (step_refines _ _ _ Hq Hstep) as Hrun.
    rewrite step_call in Hstep by done. injection Hstep as <-.
    unfold gate_counted. rewrite client_effect_n_paused, Hg. f_equal.
    symmetry.
    apply (run_invariant (label_kinds (Call c) (view w))
             (λ u, count at_gate (v_pcs u) = count at_gate (v_pcs (view w)))
             (view w) (view (client_effect c w))); [|done|done].
    intros k u u' Hk Hm Hu. rewrite <- Hu.
    apply (move_gate_count k); [|done]. by apply (call_kinds c (view w)).
  - rewrite step_run in Hstep by done.
    destruct (spawned w !! h) as [[tid pc0]|] eqn:Hh; [|done].
    destruct pc0; try done.
    apply (settle_gate_counted h tid WStart (enter_outcome w) 1 w w');
      try done.
  - rewrite step_run in Hstep by done.
    destruct (spawned w !! h) as [[tid pc0]|] eqn:Hh; [|done].
    destruct pc0; try done.
    apply (settle_gate_counted h tid WGate (dequeue_outcome tid w) (-1) w w');
      try done.
    unfold dequeue_outcome. case_bool_decide; [done|]. cbn zeta.
    destruct (over_target _).
    { pose proof (leave_gate tid (through_gate w)) as Hl.
      destruct (leave tid (through_gate w)) as [pc w1|e w1|l w1]; [| |done].
      - destruct Hl as (-> & -> & ->). done.
      - destruct Hl as (-> & ->). done. }
    destruct (_queue _) as [|[a n] q]; [|done].
    pose proof (leave_gate tid (region _tlock (λ w, w) (through_gate w)))
      as Hl.
    destruct (leave tid _) as [pc w1|e w1|l w1]; [| |done].
    + destruct Hl as (-> & -> & ->). done.
    + destruct Hl as (-> & ->). done.
  - rewrite step_run in Hstep by done.
    destruct (spawned w !! h) as [[tid pc0]|] eqn:Hh; [|done].
    destruct pc0 as [| | |a n| |]; try done.
    apply (settle_gate_counted h tid (WProcessing a n)
             (finish_outcome tid a n r w) 0 w w'); try done.
    unfold finish_outcome. cbn zeta.
    destruct r as [x|e]; [cbn; split; [done|split; lia]|].
    destruct (isinstance_Empty e).
    { pose proof (leave_gate tid
                    (with_history (history w ++ [EvDone a n (Raised e)]) w))
        as Hl.
      destruct (leave tid _) as [pc w1|e' w1|l w1]; [| |done].
      - destruct Hl as (-> & -> & ->). cbn. split; [done|]. split; lia.
      - destruct Hl as (-> & ->). cbn. split; [done|]. split; lia. }
    destruct (isinstance_Exception e); [|cbn; split; [done|split; lia]].
    destruct (_ <? _)%Z; cbn; (split; [done|split; lia]).
Qed.

Lemma exec_gate_counted (ls : list label) w0 w :
  quiet w0 → gate_counted w0 → exec ls w0 = Some w →
  gate_counted w ∧ quiet w.
Proof.
  revert w0. induction ls as [|lb ls IH]; intros w0 Hq Hg Hex.
  - by injection Hex as <-.
  - cbn [exec] in Hex. destruct (step lb w0) as [w1|] eqn:Hstep; [|done].
    apply (IH w1); [by apply (step_quiet lb w0)| |done].
    by apply (step_gate_counted lb w0).
Qed.

(** X21.  Along every schedule from a new job the paused counter is the
    number of worker threads between the two updates of the counter, at the
    gate; hence [get_n_running] answers the size of the thread dict minus
    the number of threads at the gate, whether the job is paused or not. *)
Theorem paused_counter_counts_gate (rnd : nat → nat) (nt na : Z)
    (ls : list label) w :
  exec ls (World_init rnd nt na) = Some w →
  _n_paused (job w) = Z.of_nat (count at_gate (t_pc <$> spawned w)) ∧
  ∃ w', get_n_running w =
          Ok (Z.of_nat (size (_threads (job w))) -
              Z.of_nat (count at_gate (t_pc <$> spawned w)))%Z w' ∧
        job w' = job w.
Proof.
  intros Hex.
  destruct (exec_gate_counted ls (World_init rnd nt na) w) as [Hg Hq];
    [apply quiet_init|reflexivity|exact Hex|].
  unfold gate_counted in Hg.
  split; [done|]. rewrite get_n_running_run by done.
  exists (region _tlock (λ w, w) w). split; [|done]. by rewrite Hg.
Qed.

(** ** Locks *)

Lemma add_effect_locks arg (force : bool) w :
  locks (add_effect arg force w) = locks w.
Proof. done. Qed.

Lemma outcome_locks_world {A} (o : @outcome Input _ _ Value A) w :
  match o with
  | Ok _ w1 | Raise _ w1 | Blocked _ w1 => locks w1 = locks w
  end →
  locks (world_of o) = locks w.
Proof. by destruct o. Qed.

(** X22.  Every operation but [pause] and [resume], started with no lock
    held, ends with no lock held: the locks it takes are released, also
    when it raises.  ([pause] and [resume] lock and unlock the gate across
    calls.) *)
Theorem locks_are_released (o : operation) w :
  quiet w → moves_gate o = false → locks (after o w) = locks w.
Proof.
  intros Hq Ho. destruct o; try discriminate Ho; cbn [after].
  - by rewrite _start_started by by apply quiet_free.
  - by rewrite add_run by done.
  - by rewrite add_many_run by done.
  - done.
  - by rewrite get_n_finished_run by done.
  - by rewrite get_n_running_run by done.
  - by rewrite get_n_failed_run by done.
  - by rewrite _get_status_string_run by done.
  - unfold print_status, bind. rewrite _get_status_string_run by done.
    assert (Hqc : quiet (counted w)) by by do 3 apply region_quiet.
    by rewrite print_run by by apply quiet_free.
  - by rewrite set_n_threads_run by done.
  - done.
  - unfold kill. by rewrite set_n_threads_run by done.
  - by rewrite has_result_run by done.
  - rewrite get_result_run by done. by destruct (_results (job w) !! arg).
  - by rewrite get_results_run by done.
  - by rewrite has_exception_run by done.
  - rewrite get_exception_run by done.
    by destruct (_exceptions (job w) !! arg).
  - by rewrite get_exceptions_run by done.
  - by rewrite retry_run by done.
  - rewrite retry_many_run by done. apply retry_many_effect_locks.
  - by rewrite retry_all_run by done.
  - by rewrite worker_enter_run by by apply quiet_free.
  - rewrite worker_dequeue_run by done.
    apply outcome_locks_world, dequeue_locks.
  - rewrite worker_finish_run by done.
    apply outcome_locks_world, finish_locks.
Qed.

(** ** The status line and [wait] *)

Lemma status_string_free w :
  _tlock ∉ locks w → _rlock ∉ locks w → _elock ∉ locks w →
  _get_status_string w = Ok (status_string w) (counted w).
Proof.
  intros Ht Hr He. unfold _get_status_string, counted.
  unfold bind at 1. unfold get_n_pending at 1, bind at 1, get_job at 1.
  unfold ret at 1. unfold bind at 1. unfold get_n_running.
  rewrite (reader_run _tlock
             (λ j, (Z.of_nat (size (_threads j)) - _n_paused j)%Z)) by done.
  unfold bind at 1. unfold get_n_finished.
  rewrite (reader_run _rlock (λ j, Z.of_nat (size (_results j)))) by done.
  unfold bind at 1. unfold get_n_failed.
  rewrite (reader_run _elock (λ j, Z.of_nat (size (_exceptions j)))) by done.
  done.
Qed.

Lemma redraw_status_run w : quiet w → redraw_status w = Ok () (redrawn w).
Proof.
  intros Hq. unfold redraw_status, redrawn.
  apply (region_run module_plock
           (λ w1, on_console (_show_status (status_string w1)) (counted w1)));
    [by apply quiet_free| |done].
  unfold bind at 1.
  rewrite status_string_free by by apply quiet_free2.
  done.
Qed.

(** X23.  [print_status] writes the status string of the job, made of the
    four counters, as one line and keeps the displayed status line; the job
    is unchanged. *)
Theorem print_status_prints_counts w :
  quiet w →
  ∃ w', print_status w = Ok () w' ∧
        job w' = job w ∧ locks w' = locks w ∧
        _status (console w') = _status (console w) ∧
        screen (console w') =
          screen (console w) ++
          match _status (console w) with
          | Some st => [eraser st; status_string w; st]
          | None => [status_string w]
          end.
Proof.
  intros Hq. unfold print_status, bind.
  rewrite _get_status_string_run by done.
  assert (Hqc : quiet (counted w)) by by do 3 apply region_quiet.
  rewrite print_run by by apply quiet_free.
  eexists. split; [done|].
  destruct w as [j ls sp rnd d [[st|] scr] lg hi]; cbn.
  - split; [done|]. split; [done|]. split; [done|].
    by rewrite <- !app_assoc.
  - done.
Qed.

Lemma wait_join_dead h (show_status : bool) (et : option Z)
    (script : list join_event) (pt : Z) w :
  isAlive h w = false →
  wait_join h show_status et script pt w = Ok (Some (pt, script)) w.
Proof. intros Hd. destruct script as [|ev script]; cbn; by rewrite Hd. Qed.

Lemma wait_threads_dead (hs : list nat) (show_status : bool) (et : option Z)
    (script : list join_event) (pt : Z) w :
  Forall (λ h, isAlive h w = false) hs →
  wait_threads hs show_status et script pt w = Ok (Some (pt, script)) w.
Proof.
  induction 1 as [|h hs Hh Hhs IH]; [done|].
  cbn [wait_threads]. unfold bind at 1. by rewrite wait_join_dead.
Qed.

Lemma no_live_thread_dead w :
  live_threads w = [] →
  Forall (λ h, isAlive h w = false) (map_to_list (_threads (job w))).*2.
Proof.
  unfold live_threads. induction ((map_to_list (_threads (job w))).*2)
    as [|h hs IH]; [constructor|].
  destruct (isAlive h w) eqn:Hh.
  - by rewrite filter_cons_True.
  - rewrite filter_cons_False by by rewrite Hh.
    intros Hf. constructor; [done|by apply IH].
Qed.

Lemma isAlive_same h w w' :
  spawned w' = spawned w → isAlive h w' = isAlive h w.
Proof. unfold isAlive. by intros ->. Qed.

Lemma live_threads_same w w' :
  job w' = job w → spawned w' = spawned w → live_threads w' = live_threads w.
Proof.
  unfold live_threads. intros -> Hsp. apply list_filter_iff.
  intros h. by rewrite (isAlive_same h w w').
Qed.

Lemma wait_loop_idle (fuel : nat) (show_status : bool) (et : option Z)
    (script : list join_event) (pt : Z) w :
  quiet w → (work_left w ≤ 0)%Z →
  wait_loop (S fuel) show_status et script pt w
  = Ok true (region _tlock (λ w, w) w).
Proof.
  intros Hq Hw. cbn [wait_loop]. unfold bind at 1.
  rewrite get_n_running_run by done. unfold bind at 1.
  unfold get_n_pending, bind at 1, get_job at 1. unfold ret at 1.
  cbn [region job with_locks acquired with_lock_log].
  unfold work_left in Hw.
  destruct (_ >? 0)%Z eqn:Hgt; [lia|done].
Qed.

Lemma wait_loop_spins (fuel : nat) (show_status : bool) (et : option Z)
    (script : list join_event) (pt : Z) w :
  quiet w → (0 < work_left w)%Z → live_threads w = [] →
  ∃ w', wait_loop fuel show_status et script pt w = Ok false w' ∧
        job w' = job w.
Proof.
  revert w. induction fuel as [|fuel IH]; intros w Hq Hw Hlive.
  - by exists w.
  - set (w1 := region _tlock (λ w, w) w).
    set (w2 := region _tlock (λ w, w) w1).
    destruct (IH w2) as (w' & Hloop & Hjob).
    { by do 2 apply region_quiet. }
    { done. }
    { by rewrite (live_threads_same w w2). }
    exists w'. split; [|done].
    cbn [wait_loop]. unfold bind at 1.
    rewrite get_n_running_run by done. unfold bind at 1.
    unfold get_n_pending, bind at 1, get_job at 1. unfold ret at 1.
    fold w1. change (job w1) with (job w).
    unfold work_left in Hw.
    destruct (_ >? 0)%Z eqn:Hgt; [|lia].
    unfold bind at 1.
    rewrite (reader_run _tlock (λ j, (map_to_list (_threads j)).*2))
      by (apply quiet_free; [by apply region_quiet|done]).
    fold w2. change (job w1) with (job w). unfold bind at 1.
    rewrite wait_threads_dead.
    + exact Hloop.
    + apply no_live_thread_dead in Hlive.
      eapply Forall_impl; [exact Hlive|]. intros h Hh.
      by rewrite (isAlive_same h w w2).
Qed.

(** X24.  [wait] on a job with nothing running and nothing pending returns
    at once.  With [show_status] it shows the status line once and erases
    it again before it returns; without, the console is untouched.  The job
    is unchanged. *)
Theorem wait_idle_returns (show_status : bool) (timeout : option Z)
    (clock0 clock1 : Z) (fuel : nat) (script : list join_event) w :
  quiet w → (work_left w ≤ 0)%Z →
  ∃ w', wait show_status timeout clock0 clock1 (S fuel) script w
        = Ok true w' ∧
        job w' = job w ∧ locks w' = locks w ∧
        console w' =
          (if show_status
           then _hide_status (_show_status (status_string w) (console w))
           else console w).
Proof.
  intros Hq Hw. unfold wait, try_except, wait_body. cbn zeta.
  destruct show_status.
  - unfold bind at 1. rewrite redraw_status_run by done.
    assert (Hq1 : quiet (redrawn w)) by by apply region_quiet.
    unfold bind at 1. rewrite wait_loop_idle by done.
    unfold bind at 1.
    rewrite (region_run module_plock (on_console _hide_status) _ ());
      [|apply quiet_free; [by apply region_quiet|done]|done|done].
    eexists. split; [done|]. by destruct w.
  - unfold bind at 1, ret at 1. unfold bind at 1.
    rewrite wait_loop_idle by done.
    eexists. split; [done|]. done.
Qed.

(** X25.  When inputs are pending or counted as running but no thread of
    the dict is alive (after [kill], with a target of zero threads, or when
    a worker was ended by an exception it does not catch), [wait] does not
    leave its loop by itself, whatever the timeout: the end of the work is
    never seen, and the timeout is only tested while a live thread is
    joined. *)
Theorem wait_spins_without_live_thread (show_status : bool)
    (timeout : option Z) (clock0 clock1 : Z) (fuel : nat)
    (script : list join_event) w :
  quiet w → (0 < work_left w)%Z → live_threads w = [] →
  ∃ w', wait show_status timeout clock0 clock1 fuel script w = Ok false w' ∧
        job w' = job w.
Proof.
  intros Hq Hw Hlive. unfold wait, try_except, wait_body. cbn zeta.
  destruct show_status.
  - unfold bind at 1. rewrite redraw_status_run by done.
    destruct (wait_loop_spins fuel true ((λ t, (clock0 + t)%Z) <$> timeout)
                script clock1 (redrawn w)) as (w' & Hloop & Hjob).
    { by apply region_quiet. }
    { done. }
    { by rewrite (live_threads_same w (redrawn w)). }
    unfold bind at 1. rewrite Hloop. by exists w'.
  - unfold bind at 1, ret at 1.
    destruct (wait_loop_spins fuel false ((λ t, (clock0 + t)%Z) <$> timeout)
                script clock1 w) as (w' & Hloop & Hjob); [done..|].
    unfold bind at 1. rewrite Hloop. by exists w'.
Qed.



(** ** The number of attempts *)

(** X27.  [set_n_attempts] only stores the new limit, and the limit is read
    when an attempt fails: an item that is being processed when the limit
    is changed is put back, after an ordinary exception, exactly when its
    attempt number is below the new limit, and recorded as failed
    otherwise. *)
Theorem attempts_limit_read_at_failure (h : nat) (tid : string) arg
    (n m : Z) (e : PyExn) w :
  quiet w →
  spawned w !! h = Some (mkThread tid (WProcessing arg n)) →
  isinstance_Exception e = true → isinstance_Empty e = false →
  ∃ w1 w2,
    set_n_attempts m w = Ok () w1 ∧
    job w1 = with_n_attempts m (job w) ∧ spawned w1 = spawned w ∧
    step (Finish h (Raised e)) w1 = Some w2 ∧
    if (n <? m)%Z
    then _queue (job w2) = _queue (job w) ++ [(arg, (n + 1)%Z)] ∧
         _exceptions (job w2) = _exceptions (job w)
    else _queue (job w2) = _queue (job w) ∧
         _exceptions (job w2) = <[arg := e]> (_exceptions (job w)).
Proof.
  intros Hq Hh Hexn Hempty.
  exists (on_job (with_n_attempts m) w).
  assert (Hq1 : quiet (on_job (with_n_attempts m) w)) by done.
  rewrite step_run by done.
  change (spawned (on_job (with_n_attempts m) w)) with (spawned w).
  rewrite Hh. unfold finish_outcome. cbn zeta. rewrite Hempty, Hexn.
  change (_n_attempts (job (with_history
            (history (on_job (with_n_attempts m) w)
             ++ [EvDone arg n (Raised e)])
            (on_job (with_n_attempts m) w)))) with m.
  destruct (n <? m)%Z; cbn [settle]; eexists; (split; [done|]);
    (split; [done|]); (split; [done|]); (split; [done|]); done.
Qed.

(** * Submitting a second time *)

Lemma submits_unforced arg lb w : submits arg lb = true → unforced w lb = true.
Proof.
  destruct lb as [[a f|args f| | | | | | | |]|h|h|h r]; cbn; try done;
    by destruct f.
Qed.

Lemma submits_registers arg lb w w' :
  quiet w → submits arg lb = true → step lb w = Some w' →
  arg ∈ _inputs (job w').
Proof.
  intros Hq Hs Hstep.
  destruct lb as [[a f|args f| | | | | | | |]|h|h|h r]; try done;
    cbn [submits] in Hs; destruct f; try done; cbn [negb andb] in Hs;
    apply bool_decide_eq_true_1 in Hs;
    rewrite step_call in Hstep by done; injection Hstep as <-;
    cbn [client_effect].
  - subst a. unfold add_effect, accepts. rewrite job_with_locks, orb_false_r.
    case_bool_decide as Hnew.
    + rewrite started_inputs. apply elem_of_union. left.
      by apply elem_of_singleton.
    + rewrite job_acquired. first [done|by apply dec_stable].
  - unfold add_many_effect. rewrite started_inputs, job_with_locks.
    destruct (submit_all_unforced_fields args (acquired _ilock w)) as [_ ->].
    apply elem_of_union. left. by apply elem_of_list_to_set.
Qed.

Lemma submit_all_pool (force : bool) (args : list Input) w :
  spawned (submit_all force args w) = spawned w ∧
  entropy (submit_all force args w) = entropy w ∧
  drawn (submit_all force args w) = drawn w ∧
  _threads (job (submit_all force args w)) = _threads (job w) ∧
  _n_threads (job (submit_all force args w)) = _n_threads (job w).
Proof.
  revert w. induction args as [|a args IH]; intros w; [done|].
  cbn [submit_all]. destruct (IH (submit force a w)) as (-> & -> & -> & -> & ->).
  unfold submit. by destruct (accepts force a w).
Qed.

Lemma submit_all_first_puts arg (args : list Input) w :
  arg ∈ _inputs (job w) →
  first_puts arg (history (submit_all false args w)) = first_puts arg (history w)
  ∧ arg ∈ _inputs (job (submit_all false args w)).
Proof.
  revert w. induction args as [|b args IH]; intros w Hin; [done|].
  cbn [submit_all]. unfold submit, accepts. rewrite orb_false_r.
  destruct (bool_decide_reflect (b ∉ _inputs (job w))) as [Hnew|Hold].
  - destruct (IH (enqueue b w)) as [-> Hin'].
    { cbn. apply elem_of_union. by right. }
    split; [|done].
    unfold first_puts. cbn [enqueue history]. rewrite count_snoc.
    rewrite (bool_decide_eq_false_2 (b = arg)); [cbn; lia|].
    intros ->. by apply Hnew.
  - by apply IH.
Qed.

(** C5 (as amended).  Once an input has been submitted without [force], by
    [add] or in the list of an [add_many], then along any schedule of
    unforced calls and worker steps it is in the input set and its first
    item [(arg, 1)] has been put in the queue exactly once, whatever
    unforced submissions of it follow.  At any later time a second [add] of
    it leaves the job, the threads and the history as they are.  A second
    [add_many] puts no item for it either, and leaves the queue and the
    input set as they are when all inputs of its list are registered; but
    it starts the threads that [_start] finds missing. *)
Theorem second_submission_enqueues_nothing (rnd : nat → nat) (nt na : Z)
    (ls1 ls2 : list label) lb w1 w2 w arg :
  exec_if unforced ls1 (World_init rnd nt na) = Some w1 →
  submits arg lb = true →
  step lb w1 = Some w2 →
  exec_if unforced ls2 w2 = Some w →
  arg ∈ _inputs (job w) ∧
  first_puts arg (history w) = 1 ∧
  (∃ w', add arg false w = Ok () w' ∧
         job w' = job w ∧ history w' = history w ∧
         spawned w' = spawned w ∧ locks w' = locks w) ∧
  (∀ args : list Input,
     ∃ w', add_many args false w = Ok () w' ∧
           queued arg (_queue (job w')) = queued arg (_queue (job w)) ∧
           first_puts arg (history w') = 1 ∧
           spawned w' =
             spawned w ++ ((λ tid, mkThread tid WStart) <$> new_tids w) ∧
           (Forall (λ a, a ∈ _inputs (job w)) args →
            _queue (job w') = _queue (job w) ∧
            _inputs (job w') = _inputs (job w) ∧
            history w' = history w)).
Proof.
  intros Hex1 Hs Hstep Hex2.
  assert (Hex : exec_if unforced (ls1 ++ lb :: ls2)
                  (World_init rnd nt na) = Some w).
  { rewrite (exec_if_app _ ls1 _ _ w1 Hex1).
    cbn [exec_if]. by rewrite (submits_unforced arg lb w1 Hs), Hstep. }
  destruct (unforced_run ls1 _ w1 (quiet_init rnd nt na)
              (attempts_positive_init rnd nt na) (put_once_init rnd nt na)
              Hex1) as (Hq1 & _ & _ & _).
  destruct (unforced_run _ _ w (quiet_init rnd nt na)
              (attempts_positive_init rnd nt na) (put_once_init rnd nt na)
              Hex) as (Hq & Hpos & Honce & _).
  assert (Hq2 : quiet w2) by exact (step_quiet _ _ _ Hq1 Hstep).
  assert (Hin2 : arg ∈ _inputs (job w2))
    by exact (submits_registers arg lb w1 w2 Hq1 Hs Hstep).
  assert (Hin : arg ∈ _inputs (job w)).
  { destruct (exec_if_run unforced unforced_kind ls2 w2 w) as [Hrun _];
      try done.
    { intros w3 lb' k _. apply unforced_kinds. }
    apply (run_invariant unforced_kind (λ v, arg ∈ v_inputs v) _ _) in Hrun;
      [done| |done].
    intros k u u' _ Hm. exact (move_inputs k u u' arg Hm). }
  assert (Hone : first_puts arg (history w) = 1).
  { change (history w) with (v_history (view w)).
    rewrite (Honce arg). cbn [view v_inputs].
    by rewrite bool_decide_eq_true_2. }
  split; [done|]. split; [done|]. split.
  - exists (add_effect arg false w). split; [by apply add_run|].
    unfold add_effect, accepts.
    rewrite orb_false_r, bool_decide_eq_false_2 by by intros Hno. done.
  - intros args. exists (add_many_effect args false w).
    split; [by apply add_many_run|].
    unfold add_many_effect.
    set (w0 := with_locks (locks w) (submit_all false args (acquired _ilock w))).
    destruct (submit_all_unforced_fields args (acquired _ilock w))
      as [Hqueued Hinputs].
    destruct (submit_all_first_puts arg args (acquired _ilock w) Hin)
      as [Hputs _].
    destruct (submit_all_pool false args (acquired _ilock w))
      as (Hsp & Hen & Hdr & Hth & Hnt).
    split.
    { rewrite started_queue. unfold w0. rewrite job_with_locks, Hqueued.
      rewrite job_acquired.
      rewrite bool_decide_eq_false_2; [lia|]. by intros [_ Hno]. }
    split.
    { unfold started.
      change (history (with_locks ?ls ?x)) with (history x).
      rewrite spawn_n_history.
      change (history (acquired _tlock w0))
        with (history (submit_all false args (acquired _ilock w))).
      by rewrite Hputs. }
    split.
    { unfold started.
      change (spawned (with_locks ?ls ?x)) with (spawned x).
      rewrite spawn_n_spawned.
      unfold new_tids, new_threads.
      change (spawned (acquired _tlock w0))
        with (spawned (submit_all false args (acquired _ilock w))).
      change (entropy (acquired _tlock w0))
        with (entropy (submit_all false args (acquired _ilock w))).
      change (drawn (acquired _tlock w0))
        with (drawn (submit_all false args (acquired _ilock w))).
      change (job w0)
        with (job (submit_all false args (acquired _ilock w))).
      by rewrite Hsp, Hen, Hdr, Hth, Hnt. }
    intros Hall. unfold w0.
    rewrite (submit_all_registered args (acquired _ilock w)) by done.
    rewrite started_job. unfold started.
    cbn [with_threads _queue _inputs with_locks history job].
    by rewrite spawn_n_history.
Qed.

(** * The results under the finer interleaving *)


Lemma worker_store_run (tid : string) arg (attempt : Z) r w :
  quiet w →
  worker_store tid arg attempt r w = store_outcome tid arg attempt r w.
Proof.
  intros Hq. unfold worker_store, store_outcome.
  destruct r as [x|e].
  - unfold bind at 1.
    rewrite (region_run _rlock
      (on_job (λ j, with_results (<[arg := x]> (_results j)) j)) _ ());
      [done|by apply quiet_free|done..].
  - destruct (isinstance_Empty e).
    { apply leave_run. by apply quiet_free. }
    destruct (isinstance_Exception e); [|done].
    unfold bind at 1, get_job.
    destruct (attempt <? _n_attempts (job w))%Z.
    + done.
    + unfold bind at 1.
      rewrite (region_run _elock
        (on_job (λ j, with_exceptions (<[arg := e]> (_exceptions j)) j)) _ ());
        [done|by apply quiet_free|done..].
Qed.

Lemma store_locks (tid : string) arg (attempt : Z) r w :
  match store_outcome tid arg attempt r w with
  | Ok _ w1 | Raise _ w1 | Blocked _ w1 => locks w1 = locks w
  end.
Proof.
  unfold store_outcome. destruct r as [x|e]; [done|].
  destruct (isinstance_Empty e); [apply (leave_locks tid w)|].
  destruct (isinstance_Exception e); [|done].
  by destruct (_ <? _)%Z.
Qed.

Lemma store_effect h (tid : string) a (n : Z) r w w' :
  settle h (store_outcome tid a n r w) = Some w' →
  _results (job w') =
    match r with
    | Returned x => <[a := x]> (_results (job w))
    | Raised _ => _results (job w)
    end ∧
  (∀ arg, latest_success arg (history w') = latest_success arg (history w)) ∧
  (∀ h', h' ≠ h → spawned w' !! h' = spawned w !! h').
Proof.
  intros Hs.
  assert (Hother : ∀ pc w1, spawned w1 = spawned w →
            ∀ h', h' ≠ h → spawned (set_pc h pc w1) !! h' = spawned w !! h').
  { intros pc w1 Hsp h' Hne. unfold set_pc. cbn [spawned with_spawned].
    rewrite Hsp. by apply list_lookup_alter_ne. }
  unfold store_outcome in Hs. destruct r as [x|e].
  - injection Hs as <-. split; [done|]. split; [done|]. by apply Hother.
  - destruct (isinstance_Empty e).
    { unfold leave in Hs.
      case_bool_decide; injection Hs as <-;
        (split; [done|]); (split; [done|]); by apply Hother. }
    destruct (isinstance_Exception e).
    + destruct (n <? _n_attempts (job w))%Z; injection Hs as <-;
        (split; [done|]); (split; [|by apply Hother]).
      * intros arg. unfold set_pc, with_spawned.
        cbn [history with_history]. by rewrite latest_success_snoc.
      * done.
    + injection Hs as <-. split; [done|]. split; [done|]. by apply Hother.
Qed.

Lemma fstep_coarse lb fw (fw' : Fine) :
  fstep (Coarse lb) fw = Some fw' →
  ∃ w', step lb (base fw) = Some w' ∧ fw' = mkFine w' (in_hand fw) ∧
        (∀ h r, lb = Finish h r → in_hand fw !! h = None).
Proof.
  intros Hs.
  assert (Hgen : (λ w', mkFine w' (in_hand fw)) <$> step lb (base fw)
                 = Some fw' →
                 ∃ w', step lb (base fw) = Some w' ∧
                       fw' = mkFine w' (in_hand fw)).
  { destruct (step lb (base fw)) as [w'|]; [|done].
    intros [= <-]. by exists w'. }
  destruct lb as [c|h|h|h r]; cbn [fstep] in Hs.
  - destruct (Hgen Hs) as (w' & ? & ?). exists w'. by repeat split.
  - destruct (Hgen Hs) as (w' & ? & ?). exists w'. by repeat split.
  - destruct (Hgen Hs) as (w' & ? & ?). exists w'. by repeat split.
  - destruct (in_hand fw !! h) eqn:Hih; [done|].
    destruct (Hgen Hs) as (w' & ? & ?). exists w'.
    split; [done|]. split; [done|]. by intros h' r' [= <- <-].
Qed.

Lemma fstep_return h r fw (fw' : Fine) :
  fstep (Return h r) fw = Some fw' →
  ∃ (tid : string) a (n : Z),
    spawned (base fw) !! h = Some (mkThread tid (WProcessing a n)) ∧
    in_hand fw !! h = None ∧
    fw' = mkFine (with_history (history (base fw) ++ [EvDone a n r]) (base fw))
                 (<[h := r]> (in_hand fw)).
Proof.
  cbn [fstep]. destruct (spawned (base fw) !! h) as [[tid pc]|]; [|done].
  destruct pc as [| | |a n| |]; try done.
  destruct (in_hand fw !! h); [done|]. intros [= <-]. by exists tid, a, n.
Qed.

Lemma fstep_store h fw (fw' : Fine) :
  quiet (base fw) →
  fstep (Store h) fw = Some fw' →
  ∃ (tid : string) a (n : Z) r w',
    spawned (base fw) !! h = Some (mkThread tid (WProcessing a n)) ∧
    in_hand fw !! h = Some r ∧
    settle h (store_outcome tid a n r (base fw)) = Some w' ∧
    fw' = mkFine w' (delete h (in_hand fw)).
Proof.
  intros Hq. cbn [fstep].
  destruct (spawned (base fw) !! h) as [[tid pc]|]; [|done].
  destruct pc as [| | |a n| |]; try done.
  destruct (in_hand fw !! h) as [r|]; [|done].
  unfold run_segment. rewrite worker_store_run by done.
  fold (settle h (store_outcome tid a n r (base fw))).
  destruct (settle h _) as [w'|] eqn:Hs; [|done].
  intros [= <-]. by exists tid, a, n, r, w'.
Qed.

Lemma fstep_finish h r fw (fw' : Fine) :
  fstep (Coarse (Finish h r)) fw = Some fw' →
  ∃ fw1, fstep (Return h r) fw = Some fw1 ∧ fstep (Store h) fw1 = Some fw'.
Proof.
  cbn [fstep step]. destruct (in_hand fw !! h) eqn:Hih; [done|].
  destruct (spawned (base fw) !! h) as [[tid pc]|] eqn:Hh; [|done].
  destruct pc as [| | |a n| |]; try done.
  intros Hs. eexists. split; [reflexivity|].
  cbn [base in_hand run_client log_event fmap option_fmap option_map].
  change (spawned (with_history ?hi ?x)) with (spawned x).
  rewrite Hh, lookup_insert_eq, delete_insert_id by done.
  exact Hs.
Qed.

Lemma fstep_quiet (lb : flabel) fw (fw' : Fine) :
  quiet (base fw) → fstep lb fw = Some fw' → quiet (base fw').
Proof.
  intros Hq Hs. destruct lb as [lb|h r|h].
  - apply fstep_coarse in Hs as (w' & Hstep & -> & _).
    by apply (step_quiet lb (base fw)).
  - apply fstep_return in Hs as (tid & a & n & _ & _ & ->). done.
  - apply fstep_store in Hs as (tid & a & n & r & w' & _ & _ & Hs & ->);
      [|done].
    eapply quiet_same; [|exact Hq].
    eapply settle_locks; [exact Hs|]. apply store_locks.
Qed.

Lemma move_calm k v v' :
  calm_kind k → move k v v' →
  v_results v' = v_results v ∧
  (∀ arg, latest_success arg (v_history v')
          = latest_success arg (v_history v)) ∧
  (∀ h a (n : Z), v_pcs v !! h = Some (WProcessing a n) →
                  v_pcs v' !! h = Some (WProcessing a n)).
Proof.
  intros Hk Hm.
  destruct Hm as [a v Hnew|a v|a v Hfailed|n v|v|h pc pc' v Hh Hpc Hpc'
                  |h a n q pc v Hh Hpc Hq'|h a n r pc' v Hh Hpc'].
  - split; [done|]. split; [|done]. intros arg. vsimpl.
    by rewrite latest_success_snoc.
  - split; [done|]. split; [|done]. intros arg. vsimpl.
    by rewrite latest_success_snoc.
  - split; [done|]. split; [|done]. intros arg. vsimpl.
    by rewrite latest_success_snoc.
  - done.
  - split; [done|]. split; [done|]. intros h a m Hh. vsimpl.
    by apply lookup_app_l_Some.
  - split; [done|]. split; [done|]. intros h0 a m Hh0. vsimpl.
    rewrite list_lookup_insert_ne; [done|]. intros ->.
    rewrite Hh in Hh0. injection Hh0 as ->. done.
  - split; [done|]. split.
    + intros arg. vsimpl. by rewrite latest_success_snoc.
    + intros h0 a0 m Hh0. vsimpl.
      rewrite list_lookup_insert_ne; [done|]. intros ->.
      rewrite Hh in Hh0. injection Hh0 as ->. done.
  - done.
Qed.

Lemma calm_labels lb v k :
  (∀ h r, lb ≠ Finish h r) → label_kinds lb v k → calm_kind k.
Proof.
  intros Hlb Hk. destruct lb as [c|h|h|h r].
  - apply call_kinds in Hk. by destruct k.
  - cbn in Hk. by subst.
  - cbn in Hk. destruct Hk as [->|(a & n & ->)]; done.
  - by destruct (Hlb h r).
Qed.

Lemma step_calm lb w w' :
  quiet w → (∀ h r, lb ≠ Finish h r) → step lb w = Some w' →
  _results (job w') = _results (job w) ∧
  (∀ arg, latest_success arg (history w') = latest_success arg (history w)) ∧
  (∀ h a (n : Z), t_pc <$> spawned w !! h = Some (WProcessing a n) →
                  t_pc <$> spawned w' !! h = Some (WProcessing a n)).
Proof.
  intros Hq Hlb Hstep.
  pose proof (step_refines lb w w' Hq Hstep) as Hrun.
  assert (HI : v_results (view w') = v_results (view w) ∧
               (∀ arg, latest_success arg (v_history (view w'))
                       = latest_success arg (v_history (view w))) ∧
               (∀ h a (n : Z), v_pcs (view w) !! h = Some (WProcessing a n) →
                  v_pcs (view w') !! h = Some (WProcessing a n))).
  { apply (run_invariant (label_kinds lb (view w))
             (λ u, v_results u = v_results (view w) ∧
                   (∀ arg, latest_success arg (v_history u)
                           = latest_success arg (v_history (view w))) ∧
                   (∀ h a (n : Z),
                      v_pcs (view w) !! h = Some (WProcessing a n) →
                      v_pcs u !! h = Some (WProcessing a n)))
             (view w) (view w')); [|done|done].
    intros k u u' Hk Hm (Hr & Hl & Hp).
    destruct (move_calm k u u' (calm_labels lb (view w) k Hlb Hk) Hm)
      as (Hr' & Hl' & Hp').
    split; [by rewrite Hr'|]. split; [intros arg; by rewrite Hl'|].
    intros h a n Hh. by apply Hp', Hp. }
  destruct HI as (Hr & Hl & Hp). split; [done|]. split; [done|].
  intros h a n Hh. rewrite <- list_lookup_fmap. apply Hp.
  cbn [view v_pcs]. by rewrite list_lookup_fmap.
Qed.

Lemma processes_true arg w h :
  processes arg w h = true ↔
  ∃ n : Z, t_pc <$> spawned w !! h = Some (WProcessing arg n).
Proof.
  unfold processes. destruct (t_pc <$> spawned w !! h) as [pc|]; [|naive_solver].
  destruct pc as [| | |a n| |]; try naive_solver.
  split.
  - intros Ha. apply bool_decide_eq_true_1 in Ha as ->. by exists n.
  - intros (m & [= -> ->]). by apply bool_decide_eq_true_2.
Qed.

Lemma processes_same arg w w' h a (n : Z) :
  t_pc <$> spawned w !! h = Some (WProcessing a n) →
  t_pc <$> spawned w' !! h = Some (WProcessing a n) →
  processes arg w' h = processes arg w h.
Proof. unfold processes. by intros -> ->. Qed.

Lemma settled_same arg fw w' :
  _results (job w') !! arg = _results (job (base fw)) !! arg →
  latest_success arg (history w') = latest_success arg (history (base fw)) →
  (∀ h a (n : Z),
     in_hand fw !! h = Some a →
     ∀ b m, t_pc <$> spawned (base fw) !! h = Some (WProcessing b m) →
            t_pc <$> spawned w' !! h = Some (WProcessing b m)) →
  settled arg fw → settled arg (mkFine w' (in_hand fw)).
Proof.
  intros Hr Hl Hp (HA & HC1 & HC2).
  assert (Hproc : ∀ h r, in_hand fw !! h = Some r →
            processes arg w' h = processes arg (base fw) h).
  { intros h r Hh. destruct (HA h r Hh) as (a & n & Hpc).
    apply (processes_same arg (base fw) w' h a n); [done|].
    by apply (Hp h r 0%Z Hh). }
  split; [|split]; cbn [base in_hand].
  - intros h r Hh. destruct (HA h r Hh) as (a & n & Hpc).
    exists a, n. by apply (Hp h r 0%Z Hh).
  - intros Hun. rewrite Hr, Hl. apply HC1.
    intros h r Hh. rewrite <- (Hproc h r Hh). by apply (Hun h r).
  - intros h r Hh Hpr. rewrite (Hproc h r Hh) in Hpr.
    destruct (HC2 h r Hh Hpr) as [Huniq Hval]. split.
    + intros h' r' Hh' Hpr'. rewrite (Hproc h' r' Hh') in Hpr'.
      by apply (Huniq h' r').
    + rewrite Hr, Hl. exact Hval.
Qed.

Lemma latest_other arg a (n : Z) r (hist : list event) :
  a ≠ arg →
  latest_success arg (hist ++ [EvDone a n r]) = latest_success arg hist.
Proof.
  intros Hne. rewrite latest_success_snoc. destruct r as [x|e]; [|done].
  by rewrite bool_decide_eq_false_2.
Qed.

Lemma processes_at arg w h (tid : string) a (n : Z) :
  spawned w !! h = Some (mkThread tid (WProcessing a n)) →
  processes arg w h = bool_decide (a = arg).
Proof. unfold processes. by intros ->. Qed.

Lemma return_settled arg h r fw (fw' : Fine) :
  in_order fw (Return h r) = true →
  fstep (Return h r) fw = Some fw' →
  settled arg fw → settled arg fw'.
Proof.
  intros Hord Hs (HA & HC1 & HC2).
  apply fstep_return in Hs as (tid & a & n & Hh & Hih & ->).
  assert (Hun_a : unheld a fw).
  { cbn [in_order] in Hord. rewrite Hh in Hord. cbn in Hord.
    by apply bool_decide_eq_true_1 in Hord. }
  assert (Hprh : processes arg (base fw) h = bool_decide (a = arg))
    by by apply (processes_at arg (base fw) h tid a n).
  set (w' := with_history (history (base fw) ++ [EvDone a n r]) (base fw)).
  assert (Hproc : ∀ h', processes arg w' h' = processes arg (base fw) h')
    by done.
  split; [|split]; cbn [base in_hand].
  - intros h' r' Hh'.
    apply lookup_insert_Some in Hh' as [[<- <-]|[Hne Hh']].
    + exists a, n. change (spawned w') with (spawned (base fw)).
      by rewrite Hh.
    + apply (HA h' r' Hh').
  - intros Hun.
    assert (Hne : a ≠ arg).
    { intros ->. specialize (Hun h r (lookup_insert_eq _ _ _)).
      cbn beta in Hun. rewrite Hproc, Hprh in Hun.
      by rewrite bool_decide_eq_true_2 in Hun. }
    change (history w') with (history (base fw) ++ [EvDone a n r]).
    rewrite latest_other by done. apply HC1.
    intros h' r' Hh'. destruct (decide (h' = h)) as [->|Hne'].
    + congruence.
    + apply (Hun h' r'). cbn [in_hand]. by rewrite lookup_insert_ne.
  - intros h' r' Hh' Hpr'. rewrite Hproc in Hpr'.
    change (history w') with (history (base fw) ++ [EvDone a n r]).
    change (_results (job w')) with (_results (job (base fw))).
    apply lookup_insert_Some in Hh' as [[<- <-]|[Hne Hh']].
    + rewrite Hprh in Hpr'. apply bool_decide_eq_true_1 in Hpr' as ->.
      split.
      * intros h'' r'' Hh'' Hpr''. destruct (decide (h'' = h)); [done|].
        rewrite lookup_insert_ne in Hh'' by done.
        rewrite Hproc in Hpr''. specialize (Hun_a h'' r'' Hh'').
        cbn beta in Hun_a. congruence.
      * rewrite latest_success_snoc. destruct r as [x|e].
        -- by rewrite bool_decide_eq_true_2.
        -- by apply HC1.
    + assert (Hne_a : a ≠ arg).
      { intros ->. specialize (Hun_a h' r' Hh'). cbn beta in Hun_a.
        congruence. }
      destruct (HC2 h' r' Hh' Hpr') as [Huniq Hval]. split.
      * intros h'' r'' Hh'' Hpr''. rewrite Hproc in Hpr''.
        apply lookup_insert_Some in Hh'' as [[<- <-]|[_ Hh'']].
        -- rewrite Hprh in Hpr''. by apply bool_decide_eq_true_1 in Hpr''.
        -- by apply (Huniq h'' r'').
      * rewrite latest_other by done. exact Hval.
Qed.

Lemma store_settled arg h fw (fw' : Fine) :
  quiet (base fw) →
  fstep (Store h) fw = Some fw' →
  settled arg fw → settled arg fw'.
Proof.
  intros Hq Hs (HA & HC1 & HC2).
  apply fstep_store in Hs as (tid & a & n & r & w' & Hh & Hih & Hs & ->);
    [|done].
  destruct (store_effect h tid a n r (base fw) w' Hs) as (Hres & Hlat & Hoth).
  assert (Hprh : processes arg (base fw) h = bool_decide (a = arg))
    by by apply (processes_at arg (base fw) h tid a n).
  assert (Hproc : ∀ h', h' ≠ h →
            processes arg w' h' = processes arg (base fw) h').
  { intros h' Hne. unfold processes. by rewrite (Hoth h' Hne). }
  assert (Hres' : a ≠ arg →
            _results (job w') !! arg = _results (job (base fw)) !! arg).
  { intros Hne. rewrite Hres. destruct r as [x|e]; [|done].
    by apply lookup_insert_ne. }
  split; [|split]; cbn [base in_hand].
  - intros h' r' Hh'. apply lookup_delete_Some in Hh' as [Hne Hh'].
    destruct (HA h' r' Hh') as (b & m & Hpc). exists b, m.
    by rewrite Hoth.
  - intros Hun. rewrite Hlat. destruct (decide (a = arg)) as [->|Hne].
    + assert (Hpr : processes arg (base fw) h = true)
        by by rewrite Hprh, bool_decide_eq_true_2.
      destruct (HC2 h r Hih Hpr) as [_ Hval]. rewrite Hres.
      destruct r as [x|e]; [|done]. by rewrite lookup_insert_eq.
    + rewrite Hres' by done. apply HC1.
      intros h' r' Hh'. destruct (decide (h' = h)) as [->|Hne'].
      * cbn beta. by rewrite Hprh, bool_decide_eq_false_2.
      * cbn beta. rewrite <- Hproc by done.
        apply (Hun h' r'). cbn [in_hand]. by rewrite lookup_delete_ne.
  - intros h' r' Hh' Hpr'. apply lookup_delete_Some in Hh' as [Hne Hh'].
    rewrite Hproc in Hpr' by done.
    destruct (HC2 h' r' Hh' Hpr') as [Huniq Hval].
    assert (Hne_a : a ≠ arg).
    { intros ->. destruct Hne. apply (Huniq h r Hih).
      by rewrite Hprh, bool_decide_eq_true_2. }
    split.
    + intros h'' r'' Hh'' Hpr''.
      apply lookup_delete_Some in Hh'' as [Hne'' Hh''].
      rewrite Hproc in Hpr'' by done. by apply (Huniq h'' r'').
    + rewrite Hlat, Hres' by done. exact Hval.
Qed.

Lemma fstep_settled arg (lb : flabel) fw (fw' : Fine) :
  quiet (base fw) → in_order fw lb = true →
  fstep lb fw = Some fw' →
  settled arg fw → settled arg fw'.
Proof.
  intros Hq Hord Hs Hset.
  assert (Hcalm : ∀ lb0 : label, (∀ h r, lb0 ≠ Finish h r) →
            fstep (Coarse lb0) fw = Some fw' → settled arg fw').
  { intros lb0 Hlb Hs0.
    apply fstep_coarse in Hs0 as (w' & Hstep & -> & _).
    destruct (step_calm lb0 (base fw) w' Hq Hlb Hstep) as (Hr & Hl & Hp).
    apply settled_same; [by rewrite Hr|done| |done].
    intros h r _ _ b m. apply Hp. }
  destruct lb as [[c|h|h|h r]|h r|h].
  - by apply (Hcalm (Call c)).
  - by apply (Hcalm (Enter h)).
  - by apply (Hcalm (Dequeue h)).
  - destruct (fstep_finish h r fw fw' Hs) as (fw1 & Hret & Hsto).
    apply (store_settled arg h fw1 fw'); [|done|].
    + by apply (fstep_quiet (Return h r) fw).
    + by apply (return_settled arg h r fw).
  - by apply (return_settled arg h r fw).
  - by apply (store_settled arg h fw).
Qed.

Lemma settled_init arg (rnd : nat → nat) (nt na : Z) :
  settled arg (Fine_init rnd nt na : Fine).
Proof.
  split; [|split].
  - intros h r Hh. cbn [Fine_init in_hand] in Hh.
    by rewrite lookup_empty in Hh.
  - intros _. apply lookup_empty.
  - intros h r Hh. cbn [Fine_init in_hand] in Hh.
    by rewrite lookup_empty in Hh.
Qed.

Lemma fexec_if_settled arg (ls : list flabel) fw (fw' : Fine) :
  quiet (base fw) → settled arg fw →
  fexec_if in_order ls fw = Some fw' → settled arg fw'.
Proof.
  revert fw. induction ls as [|lb ls IH]; intros fw Hq Hset Hex.
  - by injection Hex as <-.
  - cbn [fexec_if] in Hex. destruct (in_order fw lb) eqn:Hord; [|done].
    destruct (fstep lb fw) as [fw1|] eqn:Hs; [|done].
    apply (IH fw1); [by apply (fstep_quiet lb fw)| |done].
    by apply (fstep_settled arg lb fw).
Qed.

Lemma fexec_quiet (ls : list flabel) fw (fw' : Fine) :
  quiet (base fw) → fexec ls fw = Some fw' → quiet (base fw').
Proof.
  revert fw. induction ls as [|lb ls IH]; intros fw Hq Hex.
  - by injection Hex as <-.
  - cbn [fexec] in Hex. destruct (fstep lb fw) as [fw1|] eqn:Hs; [|done].
    apply (IH fw1); [by apply (fstep_quiet lb fw)|done].
Qed.

Lemma fstep_written (lb : flabel) fw (fw' : Fine) :
  quiet (base fw) → fstep lb fw = Some fw' →
  _results (job (base fw')) = written lb fw (_results (job (base fw))).
Proof.
  intros Hq Hs.
  assert (Hcalm : ∀ lb0 : label, (∀ h r, lb0 ≠ Finish h r) →
            fstep (Coarse lb0) fw = Some fw' →
            _results (job (base fw')) = _results (job (base fw))).
  { intros lb0 Hlb Hs0.
    apply fstep_coarse in Hs0 as (w' & Hstep & -> & _).
    by destruct (step_calm lb0 (base fw) w' Hq Hlb Hstep) as (Hr & _). }
  assert (Hstore : ∀ h fw0 (fw1 : Fine), quiet (base fw0) →
            fstep (Store h) fw0 = Some fw1 →
            _results (job (base fw1))
            = written (Store h) fw0 (_results (job (base fw0)))).
  { intros h fw0 fw1 Hq0 Hs0.
    apply fstep_store in Hs0
      as (tid & a & n & r & w' & Hh & Hih & Hs0 & ->); [|done].
    destruct (store_effect h tid a n r (base fw0) w' Hs0) as (Hres & _).
    cbn [written base]. rewrite Hh, Hih. cbn. rewrite Hres.
    by destruct r. }
  destruct lb as [[c|h|h|h r]|h r|h].
  - by apply (Hcalm (Call c)).
  - by apply (Hcalm (Enter h)).
  - by apply (Hcalm (Dequeue h)).
  - destruct (fstep_finish h r fw fw' Hs) as (fw1 & Hret & Hsto).
    rewrite (Hstore h fw1 fw' (fstep_quiet (Return h r) fw fw1 Hq Hret) Hsto).
    apply fstep_return in Hret as (tid & a & n & Hh & Hih & ->).
    cbn [written base in_hand].
    change (spawned (with_history ?hi ?x)) with (spawned x).
    rewrite Hh, lookup_insert_eq. cbn. by destruct r.
  - by apply fstep_return in Hs as (tid & a & n & Hh & Hih & ->).
  - by apply Hstore.
Qed.

Lemma dequeue_head h (tid : string) arg (n : Z) (q : list (Input * Z)) w :
  quiet w → paused w = false →
  spawned w !! h = Some (mkThread tid WGate) →
  (Z.of_nat (size (_threads (job w))) ≤ _n_threads (job w))%Z →
  _queue (job w) = (arg, n) :: q →
  ∃ w', step (Dequeue h) w = Some w' ∧
        spawned w' !! h = Some (mkThread tid (WProcessing arg n)) ∧
        _queue (job w') = q ∧
        _results (job w') = _results (job w) ∧
        _exceptions (job w') = _exceptions (job w).
Proof.
  intros Hq Hp Hh Hfit Hhead. rewrite step_run, Hh by done.
  unfold dequeue_outcome. rewrite (not_paused w Hp). cbn zeta.
  assert (Ho : over_target (through_gate w) = false).
  { unfold over_target. rewrite through_gate_job. cbn. lia. }
  rewrite Ho.
  assert (Hq0 : _queue (job (region _tlock (λ w, w) (through_gate w)))
                = (arg, n) :: q) by done.
  rewrite Hq0. cbn [settle]. eexists. split; [done|].
  split; [|done]. unfold set_pc. cbn [spawned with_spawned].
  rewrite list_lookup_alter_eq.
  match goal with
  | |- context [spawned ?W !! h] => change (spawned W) with (spawned w)
  end.
  by rewrite Hh.
Qed.

(** C10 (as amended).  A forced [add] of an input puts it in the queue
    again whatever the stores hold, and a worker that comes to the head of
    the queue takes the item and processes it, whether the input has a
    result or not.  The results are written by the store that ends a
    successful attempt and by nothing else, and that store writes the value
    over the entry of the input: the results hold for each input the value
    stored last, and the earlier one is lost.  When calls for an input end
    one at a time (none ends while the outcome of another one for this
    input is in hand), this is the value of the most recent successful
    attempt, whenever no outcome for the input is in hand. *)
Theorem results_hold_last_store (rnd : nat → nat) (nt na : Z)
    (ls : list flabel) fw :
  fexec ls (Fine_init rnd nt na) = Some fw →
  (∀ arg, ∃ w', step (Call (CAdd arg true)) (base fw) = Some w' ∧
                _queue (job w') = _queue (job (base fw)) ++ [(arg, 1%Z)] ∧
                _results (job w') = _results (job (base fw))) ∧
  (∀ h (tid : string) arg (n : Z) (q : list (Input * Z)),
     paused (base fw) = false →
     spawned (base fw) !! h = Some (mkThread tid WGate) →
     (Z.of_nat (size (_threads (job (base fw))))
      ≤ _n_threads (job (base fw)))%Z →
     _queue (job (base fw)) = (arg, n) :: q →
     ∃ w', step (Dequeue h) (base fw) = Some w' ∧
           spawned w' !! h = Some (mkThread tid (WProcessing arg n)) ∧
           _results (job w') = _results (job (base fw))) ∧
  (∀ (lb : flabel) (fw' : Fine),
     fstep lb fw = Some fw' →
     _results (job (base fw'))
     = written lb fw (_results (job (base fw)))) ∧
  (fexec_if in_order ls (Fine_init rnd nt na) = Some fw →
   ∀ arg, unheld arg fw →
          _results (job (base fw)) !! arg
          = latest_success arg (history (base fw))).
Proof.
  intros Hex.
  assert (Hq : quiet (base fw)).
  { apply (fexec_quiet ls (Fine_init rnd nt na)); [|done].
    apply quiet_init. }
  split; [|split; [|split]].
  - intros arg. exists (add_effect arg true (base fw)).
    split; [by rewrite step_call|]. apply add_forced_queue.
  - intros h tid arg n q Hp Hh Hfit Hhead.
    destruct (dequeue_head h tid arg n q (base fw) Hq Hp Hh Hfit Hhead)
      as (w' & Hstep & Hpc & _ & Hres & _).
    by exists w'.
  - intros lb fw' Hs. by apply fstep_written.
  - intros Hord arg Hun.
    destruct (fexec_if_settled arg ls (Fine_init rnd nt na) fw)
      as (_ & HC1 & _); [apply quiet_init|apply settled_init|done|].
    by apply HC1.
Qed.
End Properties.

(** * Examples, on a job of integers *)

Lemma stores_exclusive_witness :
  let w := outcome_of gentle retry_after_failure (new_job 2 1) in
  ((5%Z ∉ dom (_results (job w))) ∧ (5%Z ∉ dom (_exceptions (job w)))) ∨
  (5%Z ∈ dom (_results (job w)) ∧ (5%Z ∉ dom (_exceptions (job w)))) ∨
  ((5%Z ∉ dom (_results (job w))) ∧ 5%Z ∈ dom (_exceptions (job w))).
Proof.
  intros w.
  apply (stores_exclusive digit_per_thread 2 1 retry_after_failure).
  vm_compute. reflexivity.
Defined.

(** After a failure of input 5 and a forced [add], a success leaves 5 in
    both stores. *)
Lemma forced_add_fills_both_stores :
  ∃ w, exec force_after_failure (new_job 2 1) = Some w ∧
       _results (job w) !! 5%Z = Some 7%Z ∧
       _exceptions (job w) !! 5%Z = Some (TargetError 1).
Proof.
  exists (outcome_of (λ _ _, true) force_after_failure (new_job 2 1)).
  split; [|split]; vm_compute; reflexivity.
Qed.

Lemma attempts_never_overlap_witness :
  let w := outcome_of gentle retry_after_failure (new_job 2 1) in
  in_flight 5%Z (t_pc <$> spawned w) + queued 5%Z (_queue (job w)) ≤ 1.
Proof.
  intros w.
  apply (attempts_never_overlap digit_per_thread 2 1 retry_after_failure).
  vm_compute. reflexivity.
Defined.

(** After a forced [add] of an input that is being processed, two workers
    process it at the same time. *)
Lemma forced_add_overlaps_attempts :
  ∃ w, exec force_while_running (new_job 2 1) = Some w ∧
       in_flight 5%Z (t_pc <$> spawned w) = 2.
Proof.
  exists (outcome_of (λ _ _, true) force_while_running (new_job 2 1)).
  split; vm_compute; reflexivity.
Qed.

Lemma resume_not_paused_raises_witness :
  resume (new_job 2 1) = Raise RuntimeError (new_job 2 1).
Proof. apply resume_not_paused_raises. reflexivity. Defined.

Lemma retry_without_exception_witness :
  ∃ w', retry 5%Z (new_job 2 1) = Ok () w' ∧
        _exceptions (job w') = _exceptions (job (new_job 2 1)) ∧
        _results (job w') = _results (job (new_job 2 1)) ∧
        _queue (job w') = _queue (job (new_job 2 1)) ++ [(5%Z, 1%Z)] ∧
        _inputs (job w') = {[5%Z]} ∪ _inputs (job (new_job 2 1)).
Proof. apply retry_without_exception; reflexivity. Defined.

Lemma failing_input_is_recorded_witness :
  let w := outcome_of (doomed 5%Z) two_failures (new_job 2 2) in
  5%Z ∈ dom (_exceptions (job w)) ↔
  Z.of_nat (failures 5%Z (history w)) = 2%Z.
Proof.
  intros w.
  apply (failing_input_is_recorded digit_per_thread 2 2 two_failures w 5%Z).
  - lia.
  - vm_compute. reflexivity.
Defined.

(** When the target function raises [queue.Empty], or [SystemExit], for the
    first attempt of two, the item is neither put back nor recorded: the
    worker thread ends and the input is lost. *)
Lemma uncaught_failure_drops_item :
  (∃ w, exec (first_call_raises Empty) (new_job 2 2) = Some w ∧
        _queue (job w) = [] ∧ _exceptions (job w) !! 5%Z = None ∧
        t_pc <$> spawned w !! 0 = Some WExited) ∧
  (∃ w, exec (first_call_raises SystemExit) (new_job 2 2) = Some w ∧
        _queue (job w) = [] ∧ _exceptions (job w) !! 5%Z = None ∧
        t_pc <$> spawned w !! 0 = Some (WDied SystemExit)).
Proof.
  split.
  - exists (outcome_of (λ _ _, true) (first_call_raises Empty) (new_job 2 2)).
    split; [|split; [|split]]; vm_compute; reflexivity.
  - exists (outcome_of (λ _ _, true) (first_call_raises SystemExit)
              (new_job 2 2)).
    split; [|split; [|split]]; vm_compute; reflexivity.
Qed.

Lemma one_lock_at_a_time_but_witness :
  logged (may_hold (@ORetryAll Z Z)) after_one_failure
         (after ORetryAll after_one_failure).
Proof. apply one_lock_at_a_time_but. vm_compute. reflexivity. Defined.

(** [retry_all] keeps the exceptions lock while it takes the input set lock
    and then the thread dict lock: two component locks are held twice. *)
Lemma retry_all_holds_two_locks :
  ∃ w', retry_all after_one_failure = Ok () w' ∧
        lock_log w' =
          lock_log after_one_failure ++
          [[_elock]; [_ilock; _elock]; [_tlock; _elock]] ∧
        held [_ilock; _elock] = [_ilock; _elock] ∧
        held [_tlock; _elock] = [_tlock; _elock].
Proof.
  exists (retry_all_effect after_one_failure).
  split; [|split; [|split]]; vm_compute; reflexivity.
Qed.

Lemma wait_swallows_interrupt_witness :
  wait true None 0 0 5 [JInterrupt false] after_one_add
  = Ok true (interrupted true
               (world_of (wait_body true None 0 0 5 [JInterrupt false]
                            after_one_add))).
Proof.
  apply (wait_swallows_interrupt true None 0 0 5 [JInterrupt false]
           after_one_add).
  vm_compute. reflexivity.
Defined.

(** An interrupt while [wait] is blocked in a join does not reach the
    caller: [wait] returns.  The status line is erased when the print lock
    is free, and stays on the screen when another thread holds it. *)
Lemma wait_returns_after_interrupt :
  (∃ w', wait true None 0 0 5 [JInterrupt false] after_one_add = Ok true w' ∧
         _status (console w') = None) ∧
  (∃ w', wait true None 0 0 5 [JInterrupt true] after_one_add = Ok true w' ∧
         _status (console w') = Some (status_string after_one_add)).
Proof.
  split.
  - exists (world_of (wait true None 0 0 5 [JInterrupt false] after_one_add)).
    split; vm_compute; reflexivity.
  - exists (world_of (wait true None 0 0 5 [JInterrupt true] after_one_add)).
    split; vm_compute; reflexivity.
Qed.

Lemma second_submission_enqueues_nothing_witness :
  let w := outcome_of unforced
             [Call (CAddMany [5%Z; 6%Z] false); Enter 0; Dequeue 0;
              Call (CAdd 5%Z false)]
             (new_job 2 1) in
  first_puts 5%Z (history w) = 1.
Proof.
  intros w.
  apply (second_submission_enqueues_nothing digit_per_thread 2 1
           [] [Enter 0; Dequeue 0; Call (CAdd 5%Z false)]
           (Call (CAddMany [5%Z; 6%Z] false))
           (new_job 2 1)
           (outcome_of unforced [Call (CAddMany [5%Z; 6%Z] false)]
              (new_job 2 1))
           w 5%Z); vm_compute; reflexivity.
Defined.

(** After the workers have drained the queue and left, a second
    [add_many] of the same input puts nothing in the queue, but it is no
    no-op: it starts two new threads, which a second [add] does not. *)
Lemma second_add_many_spawns_threads :
  exec drained_pool (new_job 2 1) = Some after_drained_pool ∧
  (∃ w', add_many [5%Z] false after_drained_pool = Ok () w' ∧
         _queue (job w') = _queue (job after_drained_pool) ∧
         length (spawned after_drained_pool) = 2 ∧
         length (spawned w') = 4 ∧
         size (_threads (job after_drained_pool)) = 0 ∧
         size (_threads (job w')) = 2) ∧
  (∃ w', add 5%Z false after_drained_pool = Ok () w' ∧
         spawned w' = spawned after_drained_pool).
Proof.
  split; [vm_compute; reflexivity|]. split.
  - exists (add_many_effect [5%Z] false after_drained_pool).
    split; [|split; [|split; [|split; [|split]]]]; vm_compute; reflexivity.
  - exists (add_effect 5%Z false after_drained_pool).
    split; vm_compute; reflexivity.
Qed.

Lemma start_spawns_missing_threads_witness :
  ∃ w', _start inside_add = Ok () w' ∧
        locks w' = locks inside_add ∧
        spawned w' =
          spawned inside_add ++
          ((λ tid, mkThread tid WStart) <$> new_tids inside_add) ∧
        Z.of_nat (length (new_tids inside_add)) =
          Z.max 0 (_n_threads (job inside_add) -
                   Z.of_nat (size (_threads (job inside_add)))) ∧
        (∀ tid : string, tid ∉ new_tids inside_add →
           _threads (job w') !! tid = _threads (job inside_add) !! tid) ∧
        (NoDup (new_tids inside_add) →
         (∀ i (tid : string), new_tids inside_add !! i = Some tid →
            _threads (job w') !! tid =
            Some (length (spawned inside_add) + i)) ∧
         ((∀ tid : string, tid ∈ new_tids inside_add →
             tid ∉ dom (_threads (job inside_add))) →
          size (_threads (job w')) =
          size (_threads (job inside_add)) + length (new_tids inside_add))).
Proof.
  apply start_spawns_missing_threads.
  refine (bool_decide_unpack (_tlock ∉ locks inside_add) _).
  vm_compute. exact I.
Defined.

(** With three threads in the dict and a target of one, [_start] spawns no
    thread, whereas the target minus the number of live threads is -2.
    With a random source that repeats itself, [_start] spawns two threads
    under the same id: the second entry replaces the first, and the dict
    holds one thread. *)
Lemma start_spawns_none_or_one_id :
  (∃ w1 w2,
     exec [Call (CAdd 5%Z false)] (new_job 3 1) = Some w1 ∧
     _start (on_job (with_n_threads 1) w1) = Ok () w2 ∧
     Z.of_nat (size (_threads (job w1))) = 3%Z ∧
     length (spawned w2) = length (spawned w1) ∧
     (_n_threads (job w2) - Z.of_nat (size (_threads (job w1))))%Z = (-2)%Z) ∧
  (∃ w', _start (World_init constant_source 2 1 : @World Z _ _ Z)
         = Ok () w' ∧
         t_tid <$> spawned w' = ["0000000000000000"; "0000000000000000"] ∧
         size (_threads (job w')) = 1).
Proof.
  split.
  - exists (outcome_of (λ _ _, true) [Call (CAdd 5%Z false)] (new_job 3 1)).
    exists (started
              (on_job (with_n_threads 1)
                 (outcome_of (λ _ _, true) [Call (CAdd 5%Z false)]
                    (new_job 3 1)))).
    split; [|split; [|split; [|split]]]; vm_compute; reflexivity.
  - exists (started (World_init constant_source 2 1)).
    split; [|split]; vm_compute; reflexivity.
Qed.

Lemma results_hold_last_store_witness :
  let fw := foutcome_of in_order stores_in_turn
              (Fine_init digit_per_thread 2 1) in
  _results (job (base fw)) !! 5%Z = latest_success 5%Z (history (base fw)).
Proof.
  intros fw.
  destruct (results_hold_last_store digit_per_thread 2 1 stores_in_turn fw)
    as (_ & _ & _ & Hlatest).
  - vm_compute. reflexivity.
  - apply Hlatest.
    + vm_compute. reflexivity.
    + refine (bool_decide_unpack (unheld 5%Z fw) _). vm_compute. exact I.
Defined.

(** When two forced attempts of input 5 overlap, the call that returned
    first (with 7) can store last: the results then hold 7, and not the
    value 9 of the most recent successful attempt. *)
Lemma earlier_attempt_stores_last :
  ∃ fw, fexec stores_cross (Fine_init digit_per_thread 2 1) = Some fw ∧
        dom (in_hand fw) = ∅ ∧
        _results (job (base fw)) !! 5%Z = Some 7%Z ∧
        latest_success 5%Z (history (base fw)) = Some 9%Z.
Proof.
  exists (foutcome_of (λ _ _, true) stores_cross
            (Fine_init digit_per_thread 2 1)).
  split; [|split; [|split]]; vm_compute; reflexivity.
Qed.

(** * Examples for the further properties *)

Lemma hide_status_erases_witness :
  screen (_hide_status showing)
    = screen showing ++ [eraser (status_template 1 2 3 4)] ∧
  _status (_hide_status showing) = None ∧
  String.length (blank (status_template 1 2 3 4))
    = String.length (status_template 1 2 3 4) ∧
  (∀ i ch, String.get i (status_template 1 2 3 4) = Some ch →
           String.get i (blank (status_template 1 2 3 4)) = Some (cover ch)) ∧
  _hide_status (_hide_status showing) = _hide_status showing.
Proof. apply hide_status_erases. reflexivity. Defined.

Lemma print_keeps_status_witness :
  ∃ w', print "line" after_one_add = Ok () w' ∧
        _status (console w') = _status (console after_one_add) ∧
        screen (console w') =
          screen (console after_one_add) ++
          match _status (console after_one_add) with
          | Some st => [eraser st; "line"; st]
          | None => ["line"]
          end ∧
        job w' = job after_one_add ∧ locks w' = locks after_one_add.
Proof.
  apply print_keeps_status.
  refine (bool_decide_unpack (module_plock ∉ locks after_one_add) _).
  vm_compute. exact I.
Defined.

Lemma readers_change_nothing_witness :
  with_lock_log (lock_log after_one_failure)
    (after (@OGetException Z Z 6%Z) after_one_failure)
  = after_one_failure.
Proof.
  apply readers_change_nothing; vm_compute; reflexivity.
Defined.

Lemma get_result_needs_result_witness :
  ∃ (b : bool) w',
    has_result 5%Z after_one_failure = Ok b w' ∧
    (b = true → ∃ x, _results (job after_one_failure) !! 5%Z = Some x ∧
                     get_result 5%Z after_one_failure = Ok x w') ∧
    (b = false → get_result 5%Z after_one_failure = Raise KeyError w').
Proof. apply get_result_needs_result. vm_compute. reflexivity. Defined.

Lemma get_exception_needs_exception_witness :
  ∃ (b : bool) w',
    has_exception 5%Z after_one_failure = Ok b w' ∧
    (b = true → ∃ e, _exceptions (job after_one_failure) !! 5%Z = Some e ∧
                     get_exception 5%Z after_one_failure = Ok e w') ∧
    (b = false → get_exception 5%Z after_one_failure = Raise KeyError w').
Proof. apply get_exception_needs_exception. vm_compute. reflexivity. Defined.

Lemma snapshots_agree_with_lookups_witness :
  (∃ m w', get_results after_one_failure = Ok m w' ∧
           (∀ arg x, m !! arg = Some x ↔
                     get_result arg after_one_failure = Ok x w') ∧
           get_n_finished after_one_failure = Ok (Z.of_nat (size m)) w') ∧
  (∃ m w', get_exceptions after_one_failure = Ok m w' ∧
           (∀ arg e, m !! arg = Some e ↔
                     get_exception arg after_one_failure = Ok e w') ∧
           get_n_failed after_one_failure = Ok (Z.of_nat (size m)) w').
Proof. apply snapshots_agree_with_lookups. vm_compute. reflexivity. Defined.

Lemma shrinking_target_stops_no_thread_witness :
  ∃ w', set_n_threads 0 after_one_add = Ok () w' ∧
        (0%Z = 0%Z → kill after_one_add = Ok () w') ∧
        job w' = with_n_threads 0 (job after_one_add) ∧
        spawned w' = spawned after_one_add ∧
        locks w' = locks after_one_add.
Proof.
  apply shrinking_target_stops_no_thread.
  - vm_compute. reflexivity.
  - vm_compute. discriminate.
Defined.

Lemma over_target_worker_exits_witness :
  let w := on_job (with_n_threads 1) after_one_enter in
  ∃ w', worker_dequeue tid0 w = Ok WExited w' ∧
        _threads (job w') = delete tid0 (_threads (job w)) ∧
        _queue (job w') = _queue (job w) ∧
        _n_paused (job w') = (_n_paused (job w) - 1)%Z ∧
        history w' = history w ∧ locks w' = locks w.
Proof.
  intros w. apply (over_target_worker_exits tid0 w).
  - vm_compute. reflexivity.
  - vm_compute. reflexivity.
  - vm_compute. reflexivity.
  - refine (bool_decide_unpack (tid0 ∈ dom (_threads (job w))) _).
    vm_compute. exact I.
Defined.

Lemma idle_worker_exits_witness :
  ∃ w', _threads (job w') = delete tid1 (_threads (job after_second_enter)) ∧
        _n_paused (job w') = (_n_paused (job after_second_enter) - 1)%Z ∧
        history w' = history after_second_enter ∧
        locks w' = locks after_second_enter.
Proof.
  destruct (idle_worker_exits tid1 after_second_enter) as (w' & _ & Hw').
  - vm_compute. reflexivity.
  - vm_compute. reflexivity.
  - vm_compute. discriminate.
  - vm_compute. reflexivity.
  - exists w'. exact Hw'.
Defined.

Lemma worker_takes_head_witness :
  ∃ w', worker_dequeue tid0 after_one_enter = Ok (WProcessing 5%Z 1%Z) w' ∧
        job w' = with_queue []
                   (with_n_paused (_n_paused (job after_one_enter) - 1)%Z
                      (job after_one_enter)) ∧
        history w' = history after_one_enter ++ [EvGet 5%Z 1%Z] ∧
        locks w' = locks after_one_enter.
Proof.
  apply (worker_takes_head tid0 5%Z 1%Z [] after_one_enter).
  - vm_compute. reflexivity.
  - vm_compute. reflexivity.
  - vm_compute. discriminate.
  - vm_compute. reflexivity.
Defined.


Lemma pause_resume_round_trip_witness :
  ∃ w1 w2, pause after_one_add = Ok () w1 ∧ pause w1 = Ok () w1 ∧
           resume w1 = Ok () w2 ∧
           locks w2 = locks after_one_add ∧ job w2 = job after_one_add ∧
           resume w2 = Raise RuntimeError w2.
Proof. apply pause_resume_round_trip. vm_compute. reflexivity. Defined.

Lemma retry_clears_and_requeues_witness :
  ∃ w', retry 5%Z after_one_failure = Ok () w' ∧
        _exceptions (job w') !! 5%Z = None ∧
        size (_exceptions (job w')) + 1
          = size (_exceptions (job after_one_failure)) ∧
        _queue (job w') = _queue (job after_one_failure) ++ [(5%Z, 1%Z)] ∧
        _results (job w') = _results (job after_one_failure) ∧
        locks w' = locks after_one_failure.
Proof.
  apply (retry_clears_and_requeues 5%Z (TargetError 1) after_one_failure);
    vm_compute; reflexivity.
Defined.

Lemma retry_many_requeues_each_witness :
  ∃ w', retry_many [5%Z; 6%Z; 5%Z] after_one_failure = Ok () w' ∧
        _queue (job w') =
          _queue (job after_one_failure) ++ first_attempts [5%Z; 6%Z; 5%Z] ∧
        _inputs (job w') =
          list_to_set [5%Z; 6%Z; 5%Z] ∪ _inputs (job after_one_failure) ∧
        _results (job w') = _results (job after_one_failure) ∧
        (∀ a, _exceptions (job w') !! a =
              if bool_decide (a ∈ [5%Z; 6%Z; 5%Z]) then None
              else _exceptions (job after_one_failure) !! a) ∧
        locks w' = locks after_one_failure.
Proof. apply retry_many_requeues_each. vm_compute. reflexivity. Defined.

Lemma retry_all_requeues_failures_witness :
  ∃ w' (keys : list Z),
    retry_all after_one_failure = Ok () w' ∧
    _exceptions (job w') = ∅ ∧
    _queue (job w') = _queue (job after_one_failure) ++ first_attempts keys ∧
    NoDup keys ∧
    (∀ a, a ∈ keys ↔ a ∈ dom (_exceptions (job after_one_failure))) ∧
    _inputs (job w') = list_to_set keys ∪ _inputs (job after_one_failure) ∧
    _results (job w') = _results (job after_one_failure) ∧
    locks w' = locks after_one_failure.
Proof. apply retry_all_requeues_failures. vm_compute. reflexivity. Defined.

Lemma add_many_skips_known_witness :
  (∃ w', add_many [5%Z; 6%Z; 6%Z] false after_one_add = Ok () w' ∧
         (∀ a, queued a (_queue (job w')) =
               queued a (_queue (job after_one_add)) +
               (if bool_decide (a ∈ [5%Z; 6%Z; 6%Z] ∧
                                a ∉ _inputs (job after_one_add))
                then 1 else 0)) ∧
         _inputs (job w') =
           list_to_set [5%Z; 6%Z; 6%Z] ∪ _inputs (job after_one_add)) ∧
  (∃ w', add_many [5%Z; 6%Z; 6%Z] true after_one_add = Ok () w' ∧
         _queue (job w') =
           _queue (job after_one_add) ++ first_attempts [5%Z; 6%Z; 6%Z] ∧
         _inputs (job w') =
           list_to_set [5%Z; 6%Z; 6%Z] ∪ _inputs (job after_one_add)).
Proof. apply add_many_skips_known. vm_compute. reflexivity. Defined.

Lemma attempts_stay_positive_witness :
  let w := outcome_of (λ _ _, true) two_failures (new_job 2 2) in
  Forall (λ it, (1 ≤ it.2)%Z) (_queue (job w)) ∧
  (∀ h (tid : string) arg (n : Z),
     spawned w !! h = Some (mkThread tid (WProcessing arg n)) → (1 ≤ n)%Z).
Proof.
  intros w. apply (attempts_stay_positive digit_per_thread 2 2 two_failures).
  vm_compute. reflexivity.
Defined.

Lemma stored_inputs_are_registered_witness :
  let w := outcome_of (λ _ _, true) force_after_failure (new_job 2 1) in
  (∀ it, it ∈ _queue (job w) → it.1 ∈ _inputs (job w)) ∧
  (∀ h (tid : string) arg (n : Z),
     spawned w !! h = Some (mkThread tid (WProcessing arg n)) →
     arg ∈ _inputs (job w)) ∧
  (∀ arg, arg ∈ dom (_results (job w)) → arg ∈ _inputs (job w)) ∧
  (∀ arg, arg ∈ dom (_exceptions (job w)) → arg ∈ _inputs (job w)).
Proof.
  intros w.
  apply (stored_inputs_are_registered digit_per_thread 2 1
           force_after_failure).
  vm_compute. reflexivity.
Defined.

Lemma paused_counter_counts_gate_witness :
  _n_paused (job after_one_enter)
    = Z.of_nat (count at_gate (t_pc <$> spawned after_one_enter)) ∧
  ∃ w', get_n_running after_one_enter =
          Ok (Z.of_nat (size (_threads (job after_one_enter))) -
              Z.of_nat (count at_gate (t_pc <$> spawned after_one_enter)))%Z
             w' ∧
        job w' = job after_one_enter.
Proof.
  apply (paused_counter_counts_gate digit_per_thread 2 1
           [Call (CAdd 5%Z false); Enter 0]).
  vm_compute. reflexivity.
Defined.

Lemma locks_are_released_witness :
  locks (after (@OGetResult Z Z 5%Z) after_one_failure)
  = locks after_one_failure.
Proof. apply locks_are_released; vm_compute; reflexivity. Defined.

Lemma print_status_prints_counts_witness :
  ∃ w', print_status after_one_add = Ok () w' ∧
        job w' = job after_one_add ∧ locks w' = locks after_one_add ∧
        _status (console w') = _status (console after_one_add) ∧
        screen (console w') =
          screen (console after_one_add) ++
          match _status (console after_one_add) with
          | Some st => [eraser st; status_string after_one_add; st]
          | None => [status_string after_one_add]
          end.
Proof. apply print_status_prints_counts. vm_compute. reflexivity. Defined.

Lemma wait_idle_returns_witness :
  ∃ w', wait true None 0 0 1 [] (new_job 2 1) = Ok true w' ∧
        job w' = job (new_job 2 1) ∧ locks w' = locks (new_job 2 1) ∧
        console w' =
          _hide_status
            (_show_status (status_string (new_job 2 1))
               (console (new_job 2 1))).
Proof.
  apply (wait_idle_returns true None 0 0 0 [] (new_job 2 1)).
  - vm_compute. reflexivity.
  - vm_compute. discriminate.
Defined.

Lemma wait_spins_without_live_thread_witness :
  ∃ w', wait true (Some 1000%Z) 0 0 7 [] unstaffed = Ok false w' ∧
        job w' = job unstaffed.
Proof.
  apply wait_spins_without_live_thread; vm_compute; reflexivity.
Defined.


Lemma attempts_limit_read_at_failure_witness :
  ∃ w1 w2,
    set_n_attempts 3 after_one_take = Ok () w1 ∧
    job w1 = with_n_attempts 3 (job after_one_take) ∧
    spawned w1 = spawned after_one_take ∧
    step (Finish 0 (Raised (TargetError 1))) w1 = Some w2 ∧
    if (1 <? 3)%Z
    then _queue (job w2) = _queue (job after_one_take) ++ [(5%Z, (1 + 1)%Z)] ∧
         _exceptions (job w2) = _exceptions (job after_one_take)
    else _queue (job w2) = _queue (job after_one_take) ∧
         _exceptions (job w2) =
           <[5%Z := TargetError 1]> (_exceptions (job after_one_take)).
Proof.
  apply (attempts_limit_read_at_failure 0 tid0 5%Z 1 3 (TargetError 1)
           after_one_take); vm_compute; reflexivity.
Defined.
